(** * Deadmanswitch encryption: the native and the browser module

    A model of [native.ts] and of the browser module over the providers
    they are initialised with, and the properties of the two modules:
    key derivation, fingerprint, encryption and decryption, the
    capability checks and the error paths. *)

From Stdlib Require Import List NArith ZArith Lia String Ascii Bool Arith Btauto.
From Stdlib Require Import Strings.Byte.
Import ListNotations.
Local Open Scope string_scope.
Local Open Scope list_scope.
Local Open Scope N_scope.

(** * Bytes, buffers and JavaScript strings *)

(** A [Buffer] / [Uint8Array] / [ArrayBuffer] holds octets. *)
Definition Buffer := list byte.

(** The octet with value [n mod 256]. *)
Definition byte_of_N (n : N) : byte :=
  match Byte.of_N (n mod 256) with
  | Some b => b
  | None => x00
  end.

Definition byte_xor (a b : byte) : byte :=
  byte_of_N (N.lxor (Byte.to_N a) (Byte.to_N b)).

(** A JavaScript [string] is a sequence of 16-bit UTF-16 code units. *)
Definition JSString := list N.

(** The typing invariant of a JavaScript string: every element is a
    16-bit code unit. *)
Definition is_string (s : JSString) : Prop := Forall (fun c => c < 65536) s.

(** The string whose characters are the ASCII characters of a literal. *)
Definition js (s : string) : JSString := map N_of_ascii (list_ascii_of_string s).

Definition is_high_surrogate (c : N) : bool := (0xD800 <=? c) && (c <=? 0xDBFF).
Definition is_low_surrogate (c : N) : bool := (0xDC00 <=? c) && (c <=? 0xDFFF).

(** A string is well formed (a "scalar value string") when every surrogate
    code unit is half of a high/low pair. *)
Fixpoint well_formed (s : JSString) : bool :=
  match s with
  | [] => true
  | c :: s' =>
      if is_high_surrogate c then
        match s' with
        | d :: s'' => is_low_surrogate d && well_formed s''
        | [] => false
        end
      else if is_low_surrogate c then false
      else well_formed s'
  end.

(** * base64, as [Buffer.prototype.toString('base64')] and
      [Buffer.from(text, 'base64')] implement it *)

Definition b64_char (n : N) : N :=
  if n <? 26 then 65 + n
  else if n <? 52 then 97 + (n - 26)
  else if n <? 62 then 48 + (n - 52)
  else if n =? 62 then 43
  else 47.

(** The decoder accepts the standard and the URL-safe alphabet. It reads
    each code unit of the text as an [unsigned char], that is its low
    byte. *)
Definition unbase64 (c : N) : option N :=
  let c := c mod 256 in
  if (65 <=? c) && (c <=? 90) then Some (c - 65)
  else if (97 <=? c) && (c <=? 122) then Some (c - 71)
  else if (48 <=? c) && (c <=? 57) then Some (c + 4)
  else if (c =? 43) || (c =? 45) then Some 62
  else if (c =? 47) || (c =? 95) then Some 63
  else None.

(** Standard base64 with [=] padding. *)
Fixpoint base64_encode (bs : Buffer) : JSString :=
  match bs with
  | [] => []
  | [a] =>
      let a := Byte.to_N a in
      [b64_char (a / 4); b64_char ((a mod 4) * 16); 61; 61]
  | [a; b] =>
      let a := Byte.to_N a in
      let b := Byte.to_N b in
      [b64_char (a / 4); b64_char ((a mod 4) * 16 + b / 16);
       b64_char ((b mod 16) * 4); 61]
  | a :: b :: c :: rest =>
      let a := Byte.to_N a in
      let b := Byte.to_N b in
      let c := Byte.to_N c in
      b64_char (a / 4) :: b64_char ((a mod 4) * 16 + b / 16)
        :: b64_char ((b mod 16) * 4 + c / 64) :: b64_char (c mod 64)
        :: base64_encode rest
  end.

(** The decoder is lenient: characters outside the alphabet are skipped
    and decoding stops at the first [=], a code unit with low byte 0x3d. *)
Fixpoint b64_sextets (s : JSString) : list N :=
  match s with
  | [] => []
  | c :: s' =>
      if c mod 256 =? 61 then []
      else match unbase64 c with
           | Some v => v :: b64_sextets s'
           | None => b64_sextets s'
           end
  end.

Fixpoint b64_bytes (vs : list N) : Buffer :=
  match vs with
  | a :: b :: c :: d :: rest =>
      byte_of_N (a * 4 + b / 16) :: byte_of_N ((b mod 16) * 16 + c / 4)
        :: byte_of_N ((c mod 4) * 64 + d) :: b64_bytes rest
  | [a; b; c] =>
      [byte_of_N (a * 4 + b / 16); byte_of_N ((b mod 16) * 16 + c / 4)]
  | [a; b] => [byte_of_N (a * 4 + b / 16)]
  | _ => []
  end.

Definition base64_decode (s : JSString) : Buffer := b64_bytes (b64_sextets s).

(** * UTF-8 *)

Definition replacement_character : N := 0xFFFD.

(** UTF-8 encoding of a code point below 0x110000. *)
Definition utf8_bytes (cp : N) : Buffer :=
  if cp <? 0x80 then [byte_of_N cp]
  else if cp <? 0x800 then
    [byte_of_N (0xC0 + cp / 64); byte_of_N (0x80 + cp mod 64)]
  else if cp <? 0x10000 then
    [byte_of_N (0xE0 + cp / 4096); byte_of_N (0x80 + (cp / 64) mod 64);
     byte_of_N (0x80 + cp mod 64)]
  else
    [byte_of_N (0xF0 + cp / 262144); byte_of_N (0x80 + (cp / 4096) mod 64);
     byte_of_N (0x80 + (cp / 64) mod 64); byte_of_N (0x80 + cp mod 64)].

(** String to UTF-8, as [TextEncoder.prototype.encode] and the ['utf8']
    input encoding do it: a surrogate pair is one code point, an unpaired
    surrogate becomes U+FFFD. *)
Fixpoint utf8_encode (s : JSString) : Buffer :=
  match s with
  | [] => []
  | c :: s' =>
      if is_high_surrogate c then
        match s' with
        | d :: s'' =>
            if is_low_surrogate d then
              utf8_bytes (0x10000 + (c - 0xD800) * 1024 + (d - 0xDC00))
                ++ utf8_encode s''
            else utf8_bytes replacement_character ++ utf8_encode s'
        | [] => utf8_bytes replacement_character
        end
      else if is_low_surrogate c then
        utf8_bytes replacement_character ++ utf8_encode s'
      else utf8_bytes c ++ utf8_encode s'
  end.

(** The UTF-8 decoder of the Encoding Standard, a state machine fed one
    byte at a time. *)
Record Utf8State := {
  u_code_point : N;
  u_bytes_seen : N;
  u_bytes_needed : N;
  u_lower : N;
  u_upper : N
}.

Definition utf8_start : Utf8State :=
  {| u_code_point := 0; u_bytes_seen := 0; u_bytes_needed := 0;
     u_lower := 0x80; u_upper := 0xBF |}.

(** A byte read when no sequence is open. *)
Definition utf8_lead (n : N) : list N * Utf8State :=
  if n <=? 0x7F then ([n], utf8_start)
  else if (0xC2 <=? n) && (n <=? 0xDF) then
    ([], {| u_code_point := n - 0xC0; u_bytes_seen := 0; u_bytes_needed := 1;
            u_lower := 0x80; u_upper := 0xBF |})
  else if (0xE0 <=? n) && (n <=? 0xEF) then
    ([], {| u_code_point := n - 0xE0; u_bytes_seen := 0; u_bytes_needed := 2;
            u_lower := if n =? 0xE0 then 0xA0 else 0x80;
            u_upper := if n =? 0xED then 0x9F else 0xBF |})
  else if (0xF0 <=? n) && (n <=? 0xF4) then
    ([], {| u_code_point := n - 0xF0; u_bytes_seen := 0; u_bytes_needed := 3;
            u_lower := if n =? 0xF0 then 0x90 else 0x80;
            u_upper := if n =? 0xF4 then 0x8F else 0xBF |})
  else ([replacement_character], utf8_start).

(** One step: the code points emitted and the next state. *)
Definition utf8_step (st : Utf8State) (b : byte) : list N * Utf8State :=
  let n := Byte.to_N b in
  if u_bytes_needed st =? 0 then utf8_lead n
  else if (n <? u_lower st) || (u_upper st <? n) then
    let (out, st') := utf8_lead n in (replacement_character :: out, st')
  else
    let cp := u_code_point st * 64 + (n - 0x80) in
    if u_bytes_seen st + 1 =? u_bytes_needed st then ([cp], utf8_start)
    else ([], {| u_code_point := cp; u_bytes_seen := u_bytes_seen st + 1;
                 u_bytes_needed := u_bytes_needed st;
                 u_lower := 0x80; u_upper := 0xBF |}).

(** A code point as UTF-16 code units. *)
Definition utf16_units (cp : N) : JSString :=
  if cp <? 0x10000 then [cp]
  else [0xD800 + (cp - 0x10000) / 1024; 0xDC00 + (cp - 0x10000) mod 1024].

Fixpoint utf8_run (st : Utf8State) (bs : Buffer) : JSString * Utf8State :=
  match bs with
  | [] => ([], st)
  | b :: bs' =>
      let (cps, st1) := utf8_step st b in
      let (out, st2) := utf8_run st1 bs' in
      (flat_map utf16_units cps ++ out, st2)
  end.

(** At the end of the input an open sequence is one U+FFFD. *)
Definition utf8_flush (st : Utf8State) : JSString :=
  if u_bytes_needed st =? 0 then [] else [replacement_character].

(** [buf.toString('utf8')]: the whole buffer decoded. *)
Definition utf8_decode (bs : Buffer) : JSString :=
  let (out, st) := utf8_run utf8_start bs in out ++ utf8_flush st.

(** [new TextEncoder().encode(text)]. *)
Definition TextEncoder_encode (s : JSString) : Buffer := utf8_encode s.

(** Does the string begin with the byte order mark U+FEFF? *)
Definition starts_with_bom (s : JSString) : bool :=
  match s with
  | c :: _ => c =? 0xFEFF
  | [] => false
  end.

(** [new TextDecoder().decode(bytes)]: UTF-8, not fatal, and with the
    default [ignoreBOM = false] a leading U+FEFF is dropped from the
    output. *)
Definition TextDecoder_decode (bs : Buffer) : JSString :=
  let s := utf8_decode bs in
  if starts_with_bom s then tl s else s.

(** ** The stream decoders kept by a cipher object for its output
       encoding ([string_decoder]) *)

Inductive Encoding := utf8 | base64.

(** The bytes of the incomplete character kept from the chunks so far
    and, for UTF-8, the number of bytes still missing from it. *)
Inductive StringDecoder :=
| Utf8Decoder (buffered : Buffer) (missing : nat)
| Base64Decoder (pending : Buffer).

Definition newStringDecoder (enc : Encoding) : StringDecoder :=
  match enc with
  | utf8 => Utf8Decoder [] 0
  | base64 => Base64Decoder []
  end.

Definition decoder_encoding (d : StringDecoder) : Encoding :=
  match d with
  | Utf8Decoder _ _ => utf8
  | Base64Decoder _ => base64
  end.

(** [(b & 0xC0) == 0x80]: a byte that does not start a character. *)
Definition is_continuation (b : byte) : bool :=
  N.land (Byte.to_N b) 0xC0 =? 0x80.

(** The length of the character that a first byte announces by its upper
    bits, 0 when it announces none. *)
Definition utf8_char_length (b : byte) : nat :=
  let n := Byte.to_N b in
  if N.land n 0xE0 =? 0xC0 then 2
  else if N.land n 0xF0 =? 0xE0 then 3
  else if N.land n 0xF8 =? 0xF0 then 4
  else 0.

(** The scan from the last byte of a chunk backwards for the first byte
    of the character that the chunk may cut off. [rdata] is the chunk
    reversed, [buffered] counts the bytes passed over. The result is the
    number of bytes to keep and the number of bytes missing; nothing is
    kept after four continuation bytes, when the chunk has no first byte,
    or when the character has all its bytes. *)
Fixpoint utf8_scan_back (rdata : Buffer) (buffered : nat) : nat * nat :=
  match rdata with
  | [] => (0, 0)%nat
  | b :: before =>
      let buffered := S buffered in
      if is_continuation b then
        if (4 <=? buffered)%nat
           || match before with [] => true | _ :: _ => false end
        then (0, 0)%nat
        else utf8_scan_back before buffered
      else
        let missing := utf8_char_length b in
        if (missing <=? buffered)%nat then (0, 0)%nat
        else (buffered, missing - buffered)%nat
  end.

(** The character cut off at the end of a chunk, looked for when the
    last byte is not ASCII ([data[nread - 1] & 0x80]). *)
Definition utf8_incomplete (data : Buffer) : nat * nat :=
  match rev data with
  | [] => (0, 0)%nat
  | b :: _ =>
      if N.land (Byte.to_N b) 0x80 =? 0 then (0, 0)%nat
      else utf8_scan_back (rev data) 0
  end.

(** The bytes at the head of a chunk that go to the character kept from
    the chunk before: at most [missing], and none from the first byte on
    that is not a continuation byte. *)
Fixpoint utf8_found (missing : nat) (data : Buffer) : Buffer :=
  match missing, data with
  | S m, b :: data' =>
      if is_continuation b then b :: utf8_found m data' else []
  | _, _ => []
  end.

(** [decoder.write(buf)] for UTF-8. The character kept from the chunk
    before is completed from the head of the chunk and decoded on its
    own, also when a byte that is not a continuation byte ends it early;
    the rest of the chunk is decoded up to the character it cuts off,
    whose bytes are kept. Each piece is decoded as a whole buffer. *)
Definition utf8_write (buffered : Buffer) (missing : nat) (data : Buffer)
  : JSString * StringDecoder :=
  let found := if (missing =? 0)%nat then [] else utf8_found missing data in
  let stopped :=
    (List.length found <? Nat.min missing (List.length data))%nat in
  let buffered := buffered ++ found in
  let missing := if stopped then 0%nat
                 else (missing - List.length found)%nat in
  let data := skipn (List.length found) data in
  let prepend := if (missing =? 0)%nat then utf8_decode buffered else [] in
  let buffered := if (missing =? 0)%nat then [] else buffered in
  match data with
  | [] => (prepend, Utf8Decoder buffered missing)
  | _ :: _ =>
      let (keep, missing') := utf8_incomplete data in
      let n := (List.length data - keep)%nat in
      (prepend ++ utf8_decode (firstn n data),
       Utf8Decoder (skipn n data) missing')
  end.

(** [decoder.write(buf)]: the text of the complete characters (UTF-8) or
    of the complete 3-byte groups (base64); the rest is kept. *)
Definition decoder_write (d : StringDecoder) (buf : Buffer)
  : JSString * StringDecoder :=
  match d with
  | Utf8Decoder buffered missing => utf8_write buffered missing buf
  | Base64Decoder pending =>
      let all := pending ++ buf in
      let n := (List.length all mod 3)%nat in
      (base64_encode (firstn (List.length all - n) all),
       Base64Decoder (skipn (List.length all - n) all))
  end.

(** [decoder.end(buf)]: [write(buf)] followed by the text of the bytes
    that were kept. *)
Definition decoder_end (d : StringDecoder) (buf : Buffer) : JSString :=
  let (out, d') := decoder_write d buf in
  match d' with
  | Utf8Decoder buffered _ => out ++ utf8_decode buffered
  | Base64Decoder pending => out ++ base64_encode pending
  end.

(** Decoding of a string argument by its input encoding. *)
Definition decode_input (enc : Encoding) (s : JSString) : Buffer :=
  match enc with
  | utf8 => utf8_encode s
  | base64 => base64_decode s
  end.

(** [String.prototype.toWellFormed]: every unpaired surrogate replaced by
    U+FFFD. *)
Fixpoint toWellFormed (s : JSString) : JSString :=
  match s with
  | [] => []
  | c :: s' =>
      if is_high_surrogate c then
        match s' with
        | d :: s'' =>
            if is_low_surrogate d then c :: d :: toWellFormed s''
            else replacement_character :: toWellFormed s'
        | [] => [replacement_character]
        end
      else if is_low_surrogate c then replacement_character :: toWellFormed s'
      else c :: toWellFormed s'
  end.

(** ** The decoder in the middle of a character

    The invariant that relates the two decoders: the whole-buffer
    decoder has a sequence open after the input [x] exactly when the end
    of [x] is a first byte [L] followed by continuation bytes [cs],
    fewer than [L] announces. These are the bytes that the stream
    decoder keeps. *)
Definition sequence_open (x : Buffer) (st : Utf8State) : Prop :=
  exists x0 L cs,
    x = x0 ++ L :: cs /\
    is_continuation L = false /\
    forallb is_continuation cs = true /\
    N.of_nat (List.length cs) = u_bytes_seen st /\
    u_bytes_seen st < u_bytes_needed st /\
    N.of_nat (utf8_char_length L) = u_bytes_needed st + 1 /\
    0x80 <= u_lower st /\ u_upper st <= 0xBF.

(** * Exceptions, promises and the world the module runs in *)

Inductive Exn :=
| Error (message : string)          (* [new Error(message)], thrown by the module *)
| TypeError (message : string)      (* raised by the engine itself *)
| ProviderError (message : string). (* raised or rejected by a primitive *)

(** Outcome of evaluating synchronous code. *)
Inductive Completion (A : Type) :=
| Normal (a : A)
| Throw (e : Exn).
Arguments Normal {A} a.
Arguments Throw {A} e.

(** A settled promise. *)
Inductive Promise (A : Type) :=
| Fulfilled (a : A)
| Rejected (e : Exn).
Arguments Fulfilled {A} a.
Arguments Rejected {A} e.

(** ** The primitive provider handed to [nativeInit] *)

(** The object returned by [createCipheriv] / [createDecipheriv]: a
    private state and the two methods the module calls on it. *)
Record CipherObject := {
  cipher_state : Type;
  cipher_start : cipher_state;
  cipher_update : cipher_state -> JSString -> Encoding -> Encoding ->
                  Completion (JSString * cipher_state);
  cipher_final : cipher_state -> Encoding -> Completion JSString
}.

(** A property that is [undefined] is [None]. [randomBytes] draws from
    the state of the random source and returns the new state. *)
Record NativeCrypto := {
  randomBytes : option (N -> N -> Completion Buffer * N);
  pbkdf2Sync : option (JSString -> Buffer -> N -> N -> string ->
                       Completion Buffer);
  createCipheriv : option (string -> Buffer -> Buffer ->
                           Completion CipherObject);
  createDecipheriv : option (string -> Buffer -> Buffer ->
                             Completion CipherObject)
}.

(** ** The primitive provider handed to [browserInit] *)

(** The algorithm dictionaries the module builds. *)
Inductive Algorithm :=
| Alg (name : string)
| AlgPbkdf2 (name : string) (salt : Buffer) (iterations : N) (hash : string)
| AlgAesCbc (name : string) (iv : Buffer).

Record CryptoKey := {
  key_algorithm : string;
  key_data : Buffer;
  key_extractable : bool;
  key_usages : list string
}.

Record SubtleCrypto := {
  importKey : option (string -> Buffer -> Algorithm -> bool -> list string ->
                      Promise CryptoKey);
  deriveBits : option (Algorithm -> CryptoKey -> N -> Promise Buffer);
  decrypt : option (Algorithm -> CryptoKey -> Buffer -> Promise Buffer)
}.

Record Crypto := {
  subtle : option SubtleCrypto
}.

(** ** The world *)

(** What an observer of a call sees: the primitives of the provider that
    were invoked and the chunks handed to the sink. *)
Inductive Event :=
| Call (primitive : string)
| Emit (chunk : JSString).

(** The two module-level variables ([let nativeCrypto], [let
    browserCrypto], [undefined] until the init function ran), the state
    of the random source and the events so far (oldest first). *)
Record World := {
  nativeCrypto : option NativeCrypto;
  browserCrypto : option Crypto;
  entropy : N;
  trace : list Event
}.

Definition new_world : World :=
  {| nativeCrypto := None; browserCrypto := None; entropy := 0; trace := [] |}.

(** ** A state and exception monad *)

Definition M (A : Type) : Type := World -> Completion A * World.

Definition ret {A} (a : A) : M A := fun w => (Normal a, w).

Definition throw {A} (e : Exn) : M A := fun w => (Throw e, w).

Definition bind {A B} (m : M A) (k : A -> M B) : M B :=
  fun w => match m w with
           | (Normal a, w') => k a w'
           | (Throw e, w') => (Throw e, w')
           end.

Notation "x <- m ;; k" := (bind m (fun x => k))
  (at level 61, m at next level, right associativity).
Notation "' p <- m ;; k" := (bind m (fun x => match x with p => k end))
  (at level 61, p pattern, m at next level, right associativity).
Notation "m ;;; k" := (bind m (fun _ => k))
  (at level 61, right associativity).

Definition lift {A} (c : Completion A) : M A := fun w => (c, w).

(** The world after further events. *)
Definition add_events (w : World) (es : list Event) : World :=
  {| nativeCrypto := nativeCrypto w; browserCrypto := browserCrypto w;
     entropy := entropy w; trace := trace w ++ es |}.

Definition log (e : Event) : M unit :=
  fun w => (Normal tt, add_events w [e]).

(** The body of an [async] function: its completion settles the promise
    the function returns; the call itself completes normally. *)
Definition async {A} (body : M A) : M (Promise A) :=
  fun w => match body w with
           | (Normal a, w') => (Normal (Fulfilled a), w')
           | (Throw e, w') => (Normal (Rejected e), w')
           end.

Definition await {A} (p : Promise A) : M A :=
  match p with
  | Fulfilled a => ret a
  | Rejected e => throw e
  end.

(** [!x] for a property that is a function or [undefined]. *)
Definition falsy {A} (x : option A) : bool :=
  match x with
  | Some _ => false
  | None => true
  end.

(** [o.prop] where [o] may be [undefined]. *)
Definition member {O A} (prop : string) (o : option O) (field : O -> A) : M A :=
  match o with
  | Some obj => ret (field obj)
  | None =>
      throw (TypeError ("Cannot read properties of undefined (reading '"
                          ++ prop ++ "')")%string)
  end.

(** [o?.prop]. *)
Definition optional_member {O A} (o : option O) (field : O -> option A)
  : option A :=
  match o with
  | Some obj => field obj
  | None => None
  end.

(** [nativeCrypto.prop] and [browserCrypto.prop] on the module variables. *)
Definition nativeCrypto_member {A} (prop : string) (field : NativeCrypto -> A)
  : M A :=
  fun w => member prop (nativeCrypto w) field w.

Definition browserCrypto_member {A} (prop : string) (field : Crypto -> A)
  : M A :=
  fun w => member prop (browserCrypto w) field w.

(** A call [f(args)] of a primitive of the provider: a [TypeError] when
    [f] is [undefined], otherwise the call is recorded and made. *)
Definition invoke {F R} (name : string) (f : option F)
           (apply : F -> Completion R) : M R :=
  match f with
  | Some g => log (Call name) ;;; lift (apply g)
  | None => throw (TypeError (name ++ " is not a function")%string)
  end.

(** A call of [randomBytes], which also advances the random source. *)
Definition invoke_random (name : string)
           (f : option (N -> N -> Completion Buffer * N)) (size : N)
  : M Buffer :=
  match f with
  | Some g =>
      log (Call name) ;;;
      (fun w => let (r, e) := g size (entropy w) in
                (r, {| nativeCrypto := nativeCrypto w;
                       browserCrypto := browserCrypto w;
                       entropy := e; trace := trace w |}))
  | None => throw (TypeError (name ++ " is not a function")%string)
  end.

(** A method call on a cipher object. *)
Definition method {R} (name : string) (c : Completion R) : M R :=
  log (Call name) ;;; lift c.

(** The sink that records each chunk it is given. *)
Definition emit (chunk : JSString) : M unit := log (Emit chunk).

Fixpoint emitted (t : list Event) : list JSString :=
  match t with
  | [] => []
  | Emit c :: t' => c :: emitted t'
  | Call _ :: t' => emitted t'
  end.

(** The events a call added to the trace. *)
Definition events_of {A} (m : M A) (w : World) : list Event :=
  skipn (List.length (trace w)) (trace (snd (m w))).

(** What a sink that records its chunks has received, in one piece, when
    the call is fulfilled. *)
Definition sink_output (call : (JSString -> M unit) -> M (Promise unit))
           (w : World) : option JSString :=
  match fst (call emit w) with
  | Normal (Fulfilled _) => Some (List.concat (emitted (events_of (call emit) w)))
  | _ => None
  end.

Fixpoint calls (t : list Event) : list string :=
  match t with
  | [] => []
  | Call p :: t' => p :: calls t'
  | Emit _ :: t' => calls t'
  end.

(** [Buffer.from(text, encoding)] and [buf.toString(encoding)]. *)
Definition Buffer_from (s : JSString) (enc : Encoding) : Buffer :=
  decode_input enc s.

Definition Buffer_toString (buf : Buffer) (enc : Encoding) : JSString :=
  match enc with
  | utf8 => utf8_decode buf
  | base64 => base64_encode buf
  end.

(** * native.ts *)

Definition nativeInit (crypto : NativeCrypto) : M unit :=
  fun w => (Normal tt,
            {| nativeCrypto := Some crypto; browserCrypto := browserCrypto w;
               entropy := entropy w; trace := trace w |}).

(** Not an [async] function: its [throw] is a synchronous exception. *)
Definition nativeGenerateIvv : M (Promise JSString) :=
  f <- nativeCrypto_member "randomBytes" randomBytes ;;
  if falsy f then throw (Error "nativeCrypto.randomBytes is not supported")
  else
    f <- nativeCrypto_member "randomBytes" randomBytes ;;
    buf <- invoke_random "nativeCrypto.randomBytes" f 16 ;;
    ret (Fulfilled (Buffer_toString buf base64)).

Definition nativeGenerateKey (password ivv : JSString) : M (Promise JSString) :=
  async (
    f <- nativeCrypto_member "randomBytes" randomBytes ;;
    if falsy f then throw (Error "nativeCrypto.randomBytes is not supported")
    else
      let iterations := 100000 in
      let bytesize := 32 in
      let decodedSalt := Buffer_from ivv base64 in
      f <- nativeCrypto_member "pbkdf2Sync" pbkdf2Sync ;;
      buf <- invoke "nativeCrypto.pbkdf2Sync" f
               (fun g => g password decodedSalt iterations bytesize "sha256") ;;
      ret (Buffer_toString buf base64)).

Definition nativeGenerateHash (password ivv : JSString) : M (Promise JSString) :=
  async (
    p <- nativeGenerateKey password ivv ;;
    key <- await p ;;
    p <- nativeGenerateKey key ivv ;;
    await p).

Definition nativeEncryptText (key ivv text : JSString)
           (event : JSString -> M unit) : M (Promise unit) :=
  async (
    f <- nativeCrypto_member "createCipheriv" createCipheriv ;;
    if falsy f then throw (Error "nativeCrypto.createCipheriv is not supported")
    else
      f <- nativeCrypto_member "createCipheriv" createCipheriv ;;
      cipher <- invoke "nativeCrypto.createCipheriv" f
                  (fun g => g "aes-256-cbc" (Buffer_from key base64)
                              (Buffer_from ivv base64)) ;;
      r <- method "cipher.update"
             (cipher_update cipher (cipher_start cipher) text utf8 base64) ;;
      event (fst r) ;;;
      s <- method "cipher.final" (cipher_final cipher (snd r) base64) ;;
      event s ;;;
      ret tt).

Definition nativeDecryptText (key ivv text : JSString)
           (event : JSString -> M unit) : M (Promise unit) :=
  async (
    f <- nativeCrypto_member "createCipheriv" createCipheriv ;;
    if falsy f then throw (Error "nativeCrypto.createCipheriv is not supported")
    else
      f <- nativeCrypto_member "createDecipheriv" createDecipheriv ;;
      cipher <- invoke "nativeCrypto.createDecipheriv" f
                  (fun g => g "aes-256-cbc" (Buffer_from key base64)
                              (Buffer_from ivv base64)) ;;
      r <- method "cipher.update"
             (cipher_update cipher (cipher_start cipher) text base64 utf8) ;;
      event (fst r) ;;;
      s <- method "cipher.final" (cipher_final cipher (snd r) utf8) ;;
      event s ;;;
      ret tt).

(** * The browser module *)

Definition browserInit (crypto : Crypto) : M unit :=
  fun w => (Normal tt,
            {| nativeCrypto := nativeCrypto w; browserCrypto := Some crypto;
               entropy := entropy w; trace := trace w |}).

Definition browserGenerateKey (password ivv : JSString) : M (Promise JSString) :=
  async (
    s <- browserCrypto_member "subtle" subtle ;;
    if falsy (optional_member s importKey)
    then throw (Error "browserCrypto.subtle.importKey is not supported")
    else
      let iterations := 100000 in
      let bytesize := 32 in
      s <- browserCrypto_member "subtle" subtle ;;
      f <- member "importKey" s importKey ;;
      p <- invoke "browserCrypto.subtle.importKey" f
             (fun g => Normal (g "raw" (TextEncoder_encode password)
                                 (Alg "PBKDF2") false
                                 ["deriveBits"; "deriveKey"])) ;;
      importedKey <- await p ;;
      s <- browserCrypto_member "subtle" subtle ;;
      f <- member "deriveBits" s deriveBits ;;
      p <- invoke "browserCrypto.subtle.deriveBits" f
             (fun g => Normal (g (AlgPbkdf2 "PBKDF2" (Buffer_from ivv base64)
                                            iterations "SHA-256")
                                 importedKey (bytesize * 8))) ;;
      derivedBits <- await p ;;
      ret (Buffer_toString derivedBits base64)).

Definition browserGenerateHash (password ivv : JSString) : M (Promise JSString) :=
  async (
    p <- browserGenerateKey password ivv ;;
    key <- await p ;;
    p <- browserGenerateKey key ivv ;;
    await p).

Definition browserDecryptText (key ivv text : JSString)
           (event : JSString -> M unit) : M (Promise unit) :=
  async (
    s <- browserCrypto_member "subtle" subtle ;;
    if falsy (optional_member s importKey)
    then throw (Error "browserCrypto.subtle.importKey is not supported")
    else
      s <- browserCrypto_member "subtle" subtle ;;
      f <- member "importKey" s importKey ;;
      p <- invoke "browserCrypto.subtle.importKey" f
             (fun g => Normal (g "raw" (Buffer_from key base64)
                                 (Alg "AES-CBC") false ["decrypt"])) ;;
      importedKey <- await p ;;
      s <- browserCrypto_member "subtle" subtle ;;
      f <- member "decrypt" s decrypt ;;
      p <- invoke "browserCrypto.subtle.decrypt" f
             (fun g => Normal (g (AlgAesCbc "AES-CBC" (Buffer_from ivv base64))
                                 importedKey (Buffer_from text base64))) ;;
      decryptedText <- await p ;;
      event (TextDecoder_decode decryptedText) ;;;
      ret tt).

(** * What the provider computes for a call *)

(** The cipher object made by [create] for the key and the IV returns
    [out] from [update] over the whole text and then [fin] from [final]. *)
Definition cipher_outputs
           (create : option (string -> Buffer -> Buffer -> Completion CipherObject))
           (key iv : Buffer) (text : JSString) (inEnc outEnc : Encoding)
           (out fin : JSString) : Prop :=
  exists mk cipher st,
    create = Some mk /\
    mk "aes-256-cbc" key iv = Normal cipher /\
    cipher_update cipher (cipher_start cipher) text inEnc outEnc
      = Normal (out, st) /\
    cipher_final cipher st outEnc = Normal fin.

(** [subtle.importKey] and [subtle.decrypt] of the provider yield the
    plaintext [plain] for the key, the IV and the data. *)
Definition subtle_decrypts (c : Crypto) (key iv data plain : Buffer) : Prop :=
  exists s ik dk k,
    subtle c = Some s /\ importKey s = Some ik /\ decrypt s = Some dk /\
    ik "raw" key (Alg "AES-CBC") false ["decrypt"] = Fulfilled k /\
    dk (AlgAesCbc "AES-CBC" iv) k data = Fulfilled plain.

(** * The primitives behind the two providers

    The module is a thin layer over the provider it is initialised with.
    What follows describes the providers it is written for, Node's
    [crypto] module and the Web Cryptography API, over a block cipher, a
    PBKDF2 function and a random source that are left abstract. *)

(** ** PKCS#7 padding and CBC chaining over 16-byte blocks *)

Definition block_size : nat := 16.

Definition pkcs7_pad (buf : Buffer) : Buffer :=
  let n := (block_size - List.length buf)%nat in
  buf ++ repeat (byte_of_N (N.of_nat n)) n.

(** The last byte [n] of the block must be in 1..16 and the last [n]
    bytes must all be [n]; the rest is the data. *)
Definition pkcs7_unpad (block : Buffer) : option Buffer :=
  let p := last block x00 in
  let n := N.to_nat (Byte.to_N p) in
  if (n =? 0)%nat || (block_size <? n)%nat then None
  else if forallb (Byte.eqb p) (skipn (block_size - n) block)
       then Some (firstn (block_size - n) block)
       else None.

Definition xor_block (a b : Buffer) : Buffer :=
  map (fun p => byte_xor (fst p) (snd p)) (combine a b).

(** The first [n] 16-byte blocks of [data]. *)
Fixpoint blocks (n : nat) (data : Buffer) : list Buffer :=
  match n with
  | O => []
  | S n' => firstn block_size data :: blocks n' (skipn block_size data)
  end.

Definition full_blocks (data : Buffer) : list Buffer :=
  blocks (List.length data / block_size) data.

Definition leftover (data : Buffer) : Buffer :=
  skipn (block_size * (List.length data / block_size)) data.

Section Primitives.

(** The block cipher: key, 16-byte block, 16-byte block. *)
Variable block_encrypt block_decrypt : Buffer -> Buffer -> Buffer.

(** PBKDF2 with HMAC-SHA-256: password, salt, iteration count, length
    of the output in bytes. Of the digests of the providers only
    SHA-256, the one the module names, is described. *)
Variable pbkdf2_sha256 : Buffer -> Buffer -> N -> N -> Buffer.

(** The byte the random source yields in each of its states. *)
Variable random_source : N -> byte.

(** Output blocks and the chaining value left for the next block. *)
Fixpoint cbc_encrypt (key chain : Buffer) (bs : list Buffer)
  : list Buffer * Buffer :=
  match bs with
  | [] => ([], chain)
  | b :: bs' =>
      let c := block_encrypt key (xor_block b chain) in
      let (cs, chain') := cbc_encrypt key c bs' in
      (c :: cs, chain')
  end.

Fixpoint cbc_decrypt (key chain : Buffer) (cs : list Buffer)
  : list Buffer * Buffer :=
  match cs with
  | [] => ([], chain)
  | c :: cs' =>
      let b := xor_block (block_decrypt key c) chain in
      let (bs, chain') := cbc_decrypt key c cs' in
      (b :: bs, chain')
  end.

(** The ciphertext of a plaintext: CBC over its complete blocks and
    over the padded rest. *)
Definition cbc_pkcs7_encrypt (key iv data : Buffer) : Buffer :=
  List.concat
    (fst (cbc_encrypt key iv
            (full_blocks data ++ [pkcs7_pad (leftover data)]))).

(** ** The cipher context (OpenSSL's [EVP_CIPHER_CTX]) *)

Record EvpState := {
  evp_key : Buffer;
  evp_chain : Buffer;  (* the IV, then the last ciphertext block *)
  evp_buf : Buffer;    (* input bytes of an incomplete block *)
  evp_held : Buffer    (* decryption: the last block, held back *)
}.

Definition evp_init (key iv : Buffer) : EvpState :=
  {| evp_key := key; evp_chain := iv; evp_buf := []; evp_held := [] |}.

(** [EVP_EncryptUpdate]: every complete block is encrypted and put
    out, the incomplete rest is kept. *)
Definition evp_encrypt_update (st : EvpState) (data : Buffer)
  : Buffer * EvpState :=
  let all := evp_buf st ++ data in
  let (cs, chain) := cbc_encrypt (evp_key st) (evp_chain st) (full_blocks all) in
  (List.concat cs,
   {| evp_key := evp_key st; evp_chain := chain; evp_buf := leftover all;
      evp_held := [] |}).

(** [EVP_EncryptFinal_ex]: the rest, padded to one block. *)
Definition evp_encrypt_final (st : EvpState) : Completion Buffer :=
  Normal (block_encrypt (evp_key st)
            (xor_block (pkcs7_pad (evp_buf st)) (evp_chain st))).

(** [EVP_DecryptUpdate]: every complete block is decrypted; when the
    input ends on a block boundary the last decrypted block is held
    back, since it may carry the padding. *)
Definition evp_decrypt_update (st : EvpState) (data : Buffer)
  : Buffer * EvpState :=
  match data with
  | [] => ([], st)
  | _ :: _ =>
      let all := evp_buf st ++ data in
      let (bs, chain) :=
        cbc_decrypt (evp_key st) (evp_chain st) (full_blocks all) in
      let out := evp_held st ++ List.concat bs in
      match leftover all with
      | [] =>
          (firstn (List.length out - block_size) out,
           {| evp_key := evp_key st; evp_chain := chain; evp_buf := [];
              evp_held := skipn (List.length out - block_size) out |})
      | rest =>
          (out,
           {| evp_key := evp_key st; evp_chain := chain; evp_buf := rest;
              evp_held := [] |})
      end
  end.

(** [EVP_DecryptFinal_ex]: the input must have ended on a block
    boundary with a block held back, whose padding is checked and
    removed. *)
Definition evp_decrypt_final (st : EvpState) : Completion Buffer :=
  match evp_buf st, evp_held st with
  | [], _ :: _ =>
      match pkcs7_unpad (evp_held st) with
      | Some data => Normal data
      | None => Throw (ProviderError "bad decrypt")
      end
  | _, _ => Throw (ProviderError "wrong final block length")
  end.

(** ** Node's [Cipheriv] and [Decipheriv] objects *)

(** The context and the stream decoder of the output encoding, created
    at the first call that names one. *)
Record NodeCipherState := {
  ncs_evp : EvpState;
  ncs_decoder : option StringDecoder
}.

Definition getDecoder (d : option StringDecoder) (enc : Encoding)
  : Completion StringDecoder :=
  match d with
  | None => Normal (newStringDecoder enc)
  | Some d' =>
      match decoder_encoding d', enc with
      | utf8, utf8 | base64, base64 => Normal d'
      | _, _ => Throw (ProviderError "Cannot change encoding")
      end
  end.

Definition node_update (upd : EvpState -> Buffer -> Buffer * EvpState)
           (st : NodeCipherState) (data : JSString) (inEnc outEnc : Encoding)
  : Completion (JSString * NodeCipherState) :=
  let (out, evp) := upd (ncs_evp st) (decode_input inEnc data) in
  match getDecoder (ncs_decoder st) outEnc with
  | Normal d =>
      let (text, d') := decoder_write d out in
      Normal (text, {| ncs_evp := evp; ncs_decoder := Some d' |})
  | Throw e => Throw e
  end.

Definition node_final (fin : EvpState -> Completion Buffer)
           (st : NodeCipherState) (outEnc : Encoding) : Completion JSString :=
  match fin (ncs_evp st) with
  | Normal out =>
      match getDecoder (ncs_decoder st) outEnc with
      | Normal d => Normal (decoder_end d out)
      | Throw e => Throw e
      end
  | Throw e => Throw e
  end.

Definition node_cipher (key iv : Buffer) : CipherObject :=
  {| cipher_state := NodeCipherState;
     cipher_start := {| ncs_evp := evp_init key iv; ncs_decoder := None |};
     cipher_update := node_update evp_encrypt_update;
     cipher_final := node_final evp_encrypt_final |}.

Definition node_decipher (key iv : Buffer) : CipherObject :=
  {| cipher_state := NodeCipherState;
     cipher_start := {| ncs_evp := evp_init key iv; ncs_decoder := None |};
     cipher_update := node_update evp_decrypt_update;
     cipher_final := node_final evp_decrypt_final |}.

(** The checks that [createCipheriv] and [createDecipheriv] make for
    ['aes-256-cbc']: the length of the IV first, then that of the key. *)
Definition node_create (make : Buffer -> Buffer -> CipherObject)
           (algorithm : string) (key iv : Buffer) : Completion CipherObject :=
  if negb (String.eqb algorithm "aes-256-cbc")
  then Throw (ProviderError "Unknown cipher")
  else if negb (List.length iv =? 16)%nat
  then Throw (ProviderError "Invalid initialization vector")
  else if negb (List.length key =? 32)%nat
  then Throw (ProviderError "Invalid key length")
  else Normal (make key iv).

Definition node_pbkdf2Sync (password : JSString) (salt : Buffer)
           (iterations keylen : N) (digest : string) : Completion Buffer :=
  if negb (String.eqb digest "sha256")
  then Throw (ProviderError "Invalid digest")
  else if iterations =? 0
  then Throw (ProviderError "The value of iterations is out of range")
  else Normal (pbkdf2_sha256 (utf8_encode password) salt iterations keylen).

Definition node_randomBytes (size : N) (e : N) : Completion Buffer * N :=
  (Normal (map (fun i => random_source (e + N.of_nat i))
               (seq 0 (N.to_nat size))),
   e + size).

(** Node's [crypto] module. *)
Definition nodeCrypto : NativeCrypto :=
  {| randomBytes := Some node_randomBytes;
     pbkdf2Sync := Some node_pbkdf2Sync;
     createCipheriv := Some (node_create node_cipher);
     createDecipheriv := Some (node_create node_decipher) |}.

(** ** The Web Cryptography API *)

Definition subset (xs ys : list string) : bool :=
  forallb (fun x => existsb (String.eqb x) ys) xs.

Definition subtle_importKey (format : string) (keyData : Buffer)
           (algorithm : Algorithm) (extractable : bool)
           (usages : list string) : Promise CryptoKey :=
  let name := match algorithm with
              | Alg n | AlgPbkdf2 n _ _ _ | AlgAesCbc n _ => n
              end in
  if negb (String.eqb format "raw")
  then Rejected (ProviderError "NotSupportedError")
  else if String.eqb name "PBKDF2" then
    if extractable || negb (subset usages ["deriveKey"; "deriveBits"])
    then Rejected (ProviderError "SyntaxError")
    else Fulfilled {| key_algorithm := name; key_data := keyData;
                      key_extractable := false; key_usages := usages |}
  else if String.eqb name "AES-CBC" then
    if negb (subset usages ["encrypt"; "decrypt"; "wrapKey"; "unwrapKey"])
    then Rejected (ProviderError "SyntaxError")
    else if negb ((List.length keyData =? 16)%nat
                  || (List.length keyData =? 24)%nat
                  || (List.length keyData =? 32)%nat)
    then Rejected (ProviderError "DataError")
    else match usages with
         | [] => Rejected (ProviderError "SyntaxError")
         | _ :: _ =>
             Fulfilled {| key_algorithm := name; key_data := keyData;
                          key_extractable := extractable;
                          key_usages := usages |}
         end
  else Rejected (ProviderError "NotSupportedError").

Definition subtle_deriveBits (algorithm : Algorithm) (baseKey : CryptoKey)
           (length : N) : Promise Buffer :=
  match algorithm with
  | AlgPbkdf2 name salt iterations hash =>
      if negb (String.eqb name "PBKDF2")
      then Rejected (ProviderError "NotSupportedError")
      else if negb (String.eqb (key_algorithm baseKey) name)
              || negb (existsb (String.eqb "deriveBits") (key_usages baseKey))
      then Rejected (ProviderError "InvalidAccessError")
      else if (length =? 0) || negb (length mod 8 =? 0) || (iterations =? 0)
      then Rejected (ProviderError "OperationError")
      else if negb (String.eqb hash "SHA-256")
      then Rejected (ProviderError "NotSupportedError")
      else Fulfilled (pbkdf2_sha256 (key_data baseKey) salt iterations
                                    (length / 8))
  | _ => Rejected (ProviderError "NotSupportedError")
  end.

(** AES-CBC decryption of a whole buffer, the PKCS#7 padding of its
    last block checked and removed. *)
Definition cbc_decrypt_unpad (key iv data : Buffer) : option Buffer :=
  if (List.length data =? 0)%nat
     || negb (List.length data mod block_size =? 0)%nat
  then None
  else
    let plain := List.concat (fst (cbc_decrypt key iv (full_blocks data))) in
    match pkcs7_unpad (skipn (List.length plain - block_size) plain) with
    | Some rest => Some (firstn (List.length plain - block_size) plain ++ rest)
    | None => None
    end.

(** The plaintext blocks of a ciphertext, padding included. *)
Definition cbc_plain_blocks (key iv data : Buffer) : list Buffer :=
  fst (cbc_decrypt key iv (full_blocks data)).

(** The data is one or more complete blocks and the last of them does
    not decrypt to a block with valid padding. *)
Definition padding_invalid (key iv data : Buffer) : Prop :=
  data <> [] /\ (List.length data mod block_size = 0)%nat /\
  pkcs7_unpad (last (cbc_plain_blocks key iv data) []) = None.

Definition subtle_decrypt (algorithm : Algorithm) (key : CryptoKey)
           (data : Buffer) : Promise Buffer :=
  match algorithm with
  | AlgAesCbc name iv =>
      if negb (String.eqb name "AES-CBC")
      then Rejected (ProviderError "NotSupportedError")
      else if negb (String.eqb (key_algorithm key) name)
              || negb (existsb (String.eqb "decrypt") (key_usages key))
      then Rejected (ProviderError "InvalidAccessError")
      else if negb (List.length iv =? 16)%nat
      then Rejected (ProviderError "OperationError")
      else match cbc_decrypt_unpad (key_data key) iv data with
           | Some plain => Fulfilled plain
           | None => Rejected (ProviderError "OperationError")
           end
  | _ => Rejected (ProviderError "NotSupportedError")
  end.

(** The browser's [crypto] object. *)
Definition webCrypto : Crypto :=
  {| subtle := Some {| importKey := Some subtle_importKey;
                       deriveBits := Some subtle_deriveBits;
                       decrypt := Some subtle_decrypt |} |}.

End Primitives.

(** * AES (FIPS 197), the block cipher of both providers *)

(** ** The field GF(2^8) *)

Definition all_bytes : list byte := map byte_of_N (map N.of_nat (seq 0 256)).

(** Multiplication by x modulo x^8 + x^4 + x^3 + x + 1. *)
Definition xtime (b : byte) : byte :=
  let n := 2 * Byte.to_N b in
  byte_of_N (if n <? 256 then n else N.lxor (n - 256) 0x1B).

Definition byte_bits (b : byte) : list bool :=
  let '(b0, (b1, (b2, (b3, (b4, (b5, (b6, b7))))))) := Byte.to_bits b in
  [b0; b1; b2; b3; b4; b5; b6; b7].

Fixpoint gf_mul_bits (a : byte) (bs : list bool) : byte :=
  match bs with
  | [] => x00
  | bit :: bs' =>
      byte_xor (if bit then a else x00) (gf_mul_bits (xtime a) bs')
  end.

Definition gf_mul (a b : byte) : byte := gf_mul_bits a (byte_bits b).

(** The multiplicative inverse, with 0 mapped to 0. *)
Definition gf_inv (a : byte) : byte :=
  match find (fun b => Byte.eqb (gf_mul a b) x01) all_bytes with
  | Some b => b
  | None => x00
  end.

(** ** SubBytes *)

(** The affine transformation over GF(2): bit i of the result is
    b_i + b_(i+4) + b_(i+5) + b_(i+6) + b_(i+7) + c_i, with c = 0x63. *)
Definition sbox_affine (b : byte) : byte :=
  let '(b0, (b1, (b2, (b3, (b4, (b5, (b6, b7))))))) := Byte.to_bits b in
  let x a b c d e := xorb a (xorb b (xorb c (xorb d e))) in
  Byte.of_bits
    (negb (x b0 b4 b5 b6 b7), (negb (x b1 b5 b6 b7 b0), (x b2 b6 b7 b0 b1,
    (x b3 b7 b0 b1 b2, (x b4 b0 b1 b2 b3, (negb (x b5 b1 b2 b3 b4),
    (negb (x b6 b2 b3 b4 b5), x b7 b3 b4 b5 b6))))))).

Definition sbox_table : list byte :=
  Eval vm_compute in map (fun b => sbox_affine (gf_inv b)) all_bytes.

Definition table_lookup (table : list byte) (b : byte) : byte :=
  nth (N.to_nat (Byte.to_N b)) table x00.

Definition inv_sbox_table : list byte :=
  Eval vm_compute in
    map (fun y => match find (fun b => Byte.eqb (table_lookup sbox_table b) y)
                             all_bytes with
                  | Some b => b
                  | None => x00
                  end) all_bytes.

Definition sub_byte (b : byte) : byte := table_lookup sbox_table b.
Definition inv_sub_byte (b : byte) : byte := table_lookup inv_sbox_table b.

Definition sub_bytes (s : Buffer) : Buffer := map sub_byte s.
Definition inv_sub_bytes (s : Buffer) : Buffer := map inv_sub_byte s.

(** ** ShiftRows, on the state stored column by column *)

Definition shift_rows (s : Buffer) : Buffer :=
  match s with
  | [s0; s1; s2; s3; s4; s5; s6; s7; s8; s9; s10; s11; s12; s13; s14; s15] =>
      [s0; s5; s10; s15; s4; s9; s14; s3; s8; s13; s2; s7; s12; s1; s6; s11]
  | _ => s
  end.

Definition inv_shift_rows (s : Buffer) : Buffer :=
  match s with
  | [s0; s1; s2; s3; s4; s5; s6; s7; s8; s9; s10; s11; s12; s13; s14; s15] =>
      [s0; s13; s10; s7; s4; s1; s14; s11; s8; s5; s2; s15; s12; s9; s6; s3]
  | _ => s
  end.

(** ** MixColumns *)

Definition mul2 (x : byte) : byte := xtime x.
Definition mul3 (x : byte) : byte := byte_xor (xtime x) x.
Definition mul4 (x : byte) : byte := xtime (xtime x).
Definition mul8 (x : byte) : byte := xtime (mul4 x).
Definition mul9 (x : byte) : byte := byte_xor (mul8 x) x.
Definition mul11 (x : byte) : byte := byte_xor (byte_xor (mul8 x) (mul2 x)) x.
Definition mul13 (x : byte) : byte := byte_xor (byte_xor (mul8 x) (mul4 x)) x.
Definition mul14 (x : byte) : byte :=
  byte_xor (byte_xor (mul8 x) (mul4 x)) (mul2 x).

Definition xor4 (a b c d : byte) : byte :=
  byte_xor (byte_xor (byte_xor a b) c) d.

Definition mix_column (a b c d : byte) : Buffer :=
  [xor4 (mul2 a) (mul3 b) c d; xor4 a (mul2 b) (mul3 c) d;
   xor4 a b (mul2 c) (mul3 d); xor4 (mul3 a) b c (mul2 d)].

Definition inv_mix_column (a b c d : byte) : Buffer :=
  [xor4 (mul14 a) (mul11 b) (mul13 c) (mul9 d);
   xor4 (mul9 a) (mul14 b) (mul11 c) (mul13 d);
   xor4 (mul13 a) (mul9 b) (mul14 c) (mul11 d);
   xor4 (mul11 a) (mul13 b) (mul9 c) (mul14 d)].

Fixpoint mix_columns (s : Buffer) : Buffer :=
  match s with
  | a :: b :: c :: d :: s' => mix_column a b c d ++ mix_columns s'
  | _ => s
  end.

Fixpoint inv_mix_columns (s : Buffer) : Buffer :=
  match s with
  | a :: b :: c :: d :: s' => inv_mix_column a b c d ++ inv_mix_columns s'
  | _ => s
  end.

(** Exclusive or and [xtime] on the eight bits of a byte, lowest first. *)

Definition bits8 : Type :=
  bool * (bool * (bool * (bool * (bool * (bool * (bool * bool)))))).

Definition xor_bits (x y : bits8) : bits8 :=
  let '(x0, (x1, (x2, (x3, (x4, (x5, (x6, x7))))))) := x in
  let '(y0, (y1, (y2, (y3, (y4, (y5, (y6, y7))))))) := y in
  (xorb x0 y0, (xorb x1 y1, (xorb x2 y2, (xorb x3 y3, (xorb x4 y4,
   (xorb x5 y5, (xorb x6 y6, xorb x7 y7))))))).

Definition xtime_bits (x : bits8) : bits8 :=
  let '(x0, (x1, (x2, (x3, (x4, (x5, (x6, x7))))))) := x in
  (x7, (xorb x0 x7, (x1, (xorb x2 x7, (xorb x3 x7, (x4, (x5, x6))))))).

(** ** Key expansion, for keys of Nk = 4, 6 or 8 words *)

Fixpoint words (n : nat) (data : Buffer) : list Buffer :=
  match n with
  | O => []
  | S n' => firstn 4 data :: words n' (skipn 4 data)
  end.

Definition rot_word (w : Buffer) : Buffer :=
  match w with
  | [] => []
  | a :: w' => w' ++ [a]
  end.

Definition sub_word (w : Buffer) : Buffer := map sub_byte w.

Definition rcon (i : nat) : Buffer :=
  [Nat.iter (i - 1) xtime x01; x00; x00; x00].

(** [n] more words after the [i] words [ws]. *)
Fixpoint expand_key (n nk i : nat) (ws : list Buffer) : list Buffer :=
  match n with
  | O => ws
  | S n' =>
      let prev := nth (i - 1) ws [] in
      let temp :=
        if (i mod nk =? 0)%nat
        then xor_block (sub_word (rot_word prev)) (rcon (i / nk))
        else if (6 <? nk)%nat && (i mod nk =? 4)%nat then sub_word prev
        else prev in
      expand_key n' nk (S i) (ws ++ [xor_block (nth (i - nk) ws []) temp])
  end.

(** The Nr + 1 round keys, Nr = Nk + 6. *)
Definition key_schedule (key : Buffer) : list Buffer :=
  let nk := (List.length key / 4)%nat in
  let nr := (nk + 6)%nat in
  blocks (nr + 1)
         (List.concat (expand_key (4 * (nr + 1) - nk) nk nk (words nk key))).

(** ** Cipher and inverse cipher *)

Definition aes_round (s rk : Buffer) : Buffer :=
  xor_block (mix_columns (shift_rows (sub_bytes s))) rk.

Definition aes_inv_round (s rk : Buffer) : Buffer :=
  inv_sub_bytes (inv_shift_rows (inv_mix_columns (xor_block s rk))).

Definition aes_encrypt_block (key block : Buffer) : Buffer :=
  match key_schedule key with
  | [] => block
  | rk0 :: rks =>
      let s := xor_block block rk0 in
      let s := fold_left aes_round (removelast rks) s in
      xor_block (shift_rows (sub_bytes s)) (last rks [])
  end.

Definition aes_decrypt_block (key block : Buffer) : Buffer :=
  match key_schedule key with
  | [] => block
  | rk0 :: rks =>
      let s := xor_block block (last rks []) in
      let s := inv_sub_bytes (inv_shift_rows s) in
      let s := fold_left aes_inv_round (rev (removelast rks)) s in
      xor_block s rk0
  end.

(** * PBKDF2 with HMAC-SHA-256, the key derivation of both providers *)

(** ** SHA-256 (FIPS 180-4), on 32-bit words *)

Definition w32 (n : N) : N := n mod 4294967296.
Definition add32 (a b : N) : N := w32 (a + b).
Definition rotr32 (n : N) (x : N) : N :=
  N.lor (N.shiftr x n) (w32 (N.shiftl x (32 - n))).
Definition not32 (x : N) : N := 4294967295 - x.

Definition Ch (x y z : N) : N := N.lxor (N.land x y) (N.land (not32 x) z).
Definition Maj (x y z : N) : N :=
  N.lxor (N.lxor (N.land x y) (N.land x z)) (N.land y z).
Definition Sigma0 (x : N) : N :=
  N.lxor (N.lxor (rotr32 2 x) (rotr32 13 x)) (rotr32 22 x).
Definition Sigma1 (x : N) : N :=
  N.lxor (N.lxor (rotr32 6 x) (rotr32 11 x)) (rotr32 25 x).
Definition sigma0 (x : N) : N :=
  N.lxor (N.lxor (rotr32 7 x) (rotr32 18 x)) (N.shiftr x 3).
Definition sigma1 (x : N) : N :=
  N.lxor (N.lxor (rotr32 17 x) (rotr32 19 x)) (N.shiftr x 10).

(** The constants are the first 32 bits of the fractional parts of the
    square roots (initial hash value) and of the cube roots (round
    constants) of the first primes. *)
Definition is_prime (n : nat) : bool :=
  forallb (fun d => negb (n mod d =? 0)%nat) (seq 2 (n - 2)).

Definition primes64 : list N :=
  Eval vm_compute in map N.of_nat (filter is_prime (seq 2 310)).

Fixpoint cube_root_from (bits : nat) (n r : N) : N :=
  match bits with
  | O => r
  | S b =>
      let r' := r + 2 ^ N.of_nat b in
      cube_root_from b n (if r' * r' * r' <=? n then r' else r)
  end.

Definition sha256_K : list N :=
  Eval vm_compute in
    map (fun p => w32 (cube_root_from 40 (p * 2 ^ 96) 0)) primes64.

Definition sha256_H0 : list N :=
  Eval vm_compute in
    map (fun p => w32 (N.sqrt (p * 2 ^ 64))) (firstn 8 primes64).

(** Big-endian bytes of a word and back. *)
Definition word_bytes (x : N) : Buffer :=
  [byte_of_N (x / 16777216); byte_of_N (x / 65536); byte_of_N (x / 256);
   byte_of_N x].

Definition bytes_word (bs : Buffer) : N :=
  fold_left (fun acc b => acc * 256 + Byte.to_N b) bs 0.

(** The message schedule: [n] more words after [ws], newest first. *)
Fixpoint schedule (n : nat) (ws : list N) : list N :=
  match n with
  | O => ws
  | S n' =>
      let w := add32 (add32 (sigma1 (nth 1 ws 0)) (nth 6 ws 0))
                     (add32 (sigma0 (nth 14 ws 0)) (nth 15 ws 0)) in
      schedule n' (w :: ws)
  end.

Definition sha256_round (st : list N) (kw : N * N) : list N :=
  match st with
  | [a; b; c; d; e; f; g; h] =>
      let t1 := add32 (add32 (add32 h (Sigma1 e)) (add32 (Ch e f g) (fst kw)))
                      (snd kw) in
      let t2 := add32 (Sigma0 a) (Maj a b c) in
      [add32 t1 t2; a; b; c; add32 d t1; e; f; g]
  | _ => st
  end.

(** One 64-byte block. *)
Definition sha256_compress (st : list N) (block : Buffer) : list N :=
  let w16 := map bytes_word (words 16 block) in
  let ws := rev (schedule 48 (rev w16)) in
  map (fun p => add32 (fst p) (snd p))
      (combine st (fold_left sha256_round (combine sha256_K ws) st)).

(** The message, a 1 bit, zeros, and the length in bits on 64 bits. *)
Definition sha256_pad (msg : Buffer) : Buffer :=
  let len := List.length msg in
  let zeros := ((64 - (len + 9) mod 64) mod 64)%nat in
  let bits := N.of_nat len * 8 in
  msg ++ x80 :: repeat x00 zeros
      ++ word_bytes (bits / 4294967296) ++ word_bytes (w32 bits).

Fixpoint chunks64 (n : nat) (data : Buffer) : list Buffer :=
  match n with
  | O => []
  | S n' => firstn 64 data :: chunks64 n' (skipn 64 data)
  end.

Definition sha256 (msg : Buffer) : Buffer :=
  let padded := sha256_pad msg in
  let st := fold_left sha256_compress
                      (chunks64 (List.length padded / 64) padded) sha256_H0 in
  flat_map word_bytes (firstn 8 (st ++ repeat 0 8)).

(** ** HMAC (RFC 2104) over SHA-256 *)

Definition hmac_sha256 (key msg : Buffer) : Buffer :=
  let key := if (64 <? List.length key)%nat then sha256 key else key in
  let key := key ++ repeat x00 (64 - List.length key) in
  let ipad := map (fun b => byte_xor b x36) key in
  let opad := map (fun b => byte_xor b x5c) key in
  sha256 (opad ++ sha256 (ipad ++ msg)).

(** ** PBKDF2 (RFC 8018) *)

(** Block [i] of the derived key: the exclusive or of [c] iterated
    applications of the pseudorandom function. *)
Definition pbkdf2_block (prf : Buffer -> Buffer -> Buffer)
           (password salt : Buffer) (c : N) (i : N) : Buffer :=
  let u1 := prf password (salt ++ word_bytes i) in
  snd (N.iter (c - 1)
              (fun ut => let u := prf password (fst ut) in
                         (u, xor_block (snd ut) u))
              (u1, u1)).

Definition pbkdf2 (prf : Buffer -> Buffer -> Buffer) (hLen : nat)
           (password salt : Buffer) (c dkLen : N) : Buffer :=
  let len := N.to_nat dkLen in
  let l := ((len + hLen - 1) / hLen)%nat in
  firstn len
         (flat_map (fun i => pbkdf2_block prf password salt c (N.of_nat i))
                   (seq 1 l)).

Definition pbkdf2_hmac_sha256 (password salt : Buffer) (c dkLen : N) : Buffer :=
  pbkdf2 hmac_sha256 32 password salt c dkLen.

(** * The providers over AES and PBKDF2-HMAC-SHA-256 *)

(** A random source to run the model on: state [n] yields byte [n]. *)
Definition counter_source (n : N) : byte := byte_of_N n.

Definition node : NativeCrypto :=
  nodeCrypto aes_encrypt_block aes_decrypt_block pbkdf2_hmac_sha256
             counter_source.

Definition web : Crypto := webCrypto aes_decrypt_block pbkdf2_hmac_sha256.

Definition world_with_native (c : NativeCrypto) : World :=
  snd (nativeInit c new_world).

Definition world_with_browser (c : Crypto) : World :=
  snd (browserInit c new_world).

(** The world after both init functions ran. *)
Definition initialised : World :=
  snd (browserInit web (snd (nativeInit node new_world))).

(** ** Providers that lack a primitive *)

(** Only a random source, as a [getRandomValues] shim provides. *)
Definition random_only : NativeCrypto :=
  {| randomBytes := Some (node_randomBytes counter_source);
     pbkdf2Sync := None; createCipheriv := None; createDecipheriv := None |}.

(** PBKDF2 without [randomBytes]. *)
Definition pbkdf2_only : NativeCrypto :=
  {| randomBytes := None;
     pbkdf2Sync := Some (node_pbkdf2Sync pbkdf2_hmac_sha256);
     createCipheriv := None; createDecipheriv := None |}.

(** Encryption without decryption, and decryption without encryption. *)
Definition encrypt_only : NativeCrypto :=
  {| randomBytes := None; pbkdf2Sync := None;
     createCipheriv := Some (node_create (node_cipher aes_encrypt_block));
     createDecipheriv := None |}.

Definition decrypt_only : NativeCrypto :=
  {| randomBytes := None; pbkdf2Sync := None;
     createCipheriv := None;
     createDecipheriv := Some (node_create (node_decipher aes_decrypt_block)) |}.

(** A [subtle] that imports keys but derives no bits. *)
Definition import_only : Crypto :=
  {| subtle := Some {| importKey := Some subtle_importKey;
                       deriveBits := None; decrypt := None |} |}.

(** ** Inputs *)

(** The 32-byte key 00 01 .. 1f, the 32-byte key of all zeros, the
    16-byte key 00 01 .. 0f, a 3-byte key, and the 16-byte salt of all
    zeros. *)
Definition key32 : JSString := js "AAECAwQFBgcICQoLDA0ODxAREhMUFRYXGBkaGxwdHh8=".
Definition other_key32 : JSString := js "AAAAAAAAAAAAAAAAAAAAAAAAAAAAAAAAAAAAAAAAAAA=".
Definition key16 : JSString := js "AAECAwQFBgcICQoLDA0ODw==".
Definition key3 : JSString := js "AAAA".
Definition salt16 : JSString := js "AAAAAAAAAAAAAAAAAAAAAA==".

(** * Proofs *)

Ltac Zify.zify_post_hook ::= Z.to_euclidean_division_equations.

(** * Bytes *)


Lemma to_N_lt (b : byte) : Byte.to_N b < 256.
Proof. pose proof (Byte.to_N_bounded b). lia. Qed.

Lemma to_N_byte_of_N (n : N) : n < 256 -> Byte.to_N (byte_of_N n) = n.
Proof.
  intros H. unfold byte_of_N.
  rewrite N.mod_small by exact H.
  destruct (Byte.of_N n) eqn:E.
  - now apply Byte.to_of_N.
  - apply Byte.of_N_None_iff in E. lia.
Qed.

Lemma byte_of_N_to_N (b : byte) : byte_of_N (Byte.to_N b) = b.
Proof.
  unfold byte_of_N. rewrite N.mod_small by apply to_N_lt.
  now rewrite Byte.of_to_N.
Qed.

Lemma byte_of_N_eq (n : N) (b : byte) : n = Byte.to_N b -> byte_of_N n = b.
Proof. intros ->. apply byte_of_N_to_N. Qed.

(** * base64 *)

(** A property of the numbers below a bound, checked one by one. *)
Lemma N_below (p : N -> bool) (k : nat) :
  forallb (fun i => p (N.of_nat i)) (seq 0 k) = true ->
  forall n, n < N.of_nat k -> p n = true.
Proof.
  intros H n Hn. rewrite forallb_forall in H.
  rewrite <- (N2Nat.id n). apply H. apply in_seq. lia.
Qed.

Lemma unbase64_b64_char (n : N) : n < 64 -> unbase64 (b64_char n) = Some n.
Proof.
  intros H.
  pose proof (N_below (fun n => match unbase64 (b64_char n) with
                                | Some m => m =? n
                                | None => false
                                end) 64 eq_refl n H) as E.
  cbv beta in E. destruct (unbase64 (b64_char n)); [|discriminate].
  apply N.eqb_eq in E. now subst.
Qed.

Lemma b64_char_not_pad (n : N) : n < 64 -> (b64_char n mod 256 =? 61) = false.
Proof.
  intros H.
  pose proof (N_below (fun n => negb (b64_char n mod 256 =? 61)) 64 eq_refl n H)
    as E.
  now apply negb_true_iff in E.
Qed.

Lemma b64_sextets_char (n : N) (s : JSString) :
  n < 64 -> b64_sextets (b64_char n :: s) = n :: b64_sextets s.
Proof.
  intros H. cbn [b64_sextets].
  now rewrite b64_char_not_pad, unbase64_b64_char.
Qed.

(** Induction three bytes at a time. *)
Lemma list_ind3 {A} (P : list A -> Prop) :
  P [] -> (forall a, P [a]) -> (forall a b, P [a; b]) ->
  (forall a b c l, P l -> P (a :: b :: c :: l)) ->
  forall l, P l.
Proof.
  intros H0 H1 H2 H3.
  fix IH 1. intros [|a [|b [|c l]]];
    [exact H0 | apply H1 | apply H2 | apply H3, IH].
Qed.

Lemma base64_decode_encode (bs : Buffer) :
  base64_decode (base64_encode bs) = bs.
Proof.
  unfold base64_decode.
  induction bs as [|a|a b|a b c l IH] using list_ind3.
  - reflexivity.
  - pose proof (to_N_lt a).
    cbn [base64_encode].
    rewrite !b64_sextets_char by lia.
    cbn. f_equal. apply byte_of_N_eq. lia.
  - pose proof (to_N_lt a). pose proof (to_N_lt b).
    cbn [base64_encode].
    rewrite !b64_sextets_char by lia.
    cbn. f_equal; [|f_equal]; apply byte_of_N_eq; lia.
  - pose proof (to_N_lt a). pose proof (to_N_lt b). pose proof (to_N_lt c).
    cbn [base64_encode].
    rewrite !b64_sextets_char by lia.
    cbn [b64_bytes]. rewrite IH.
    f_equal; [|f_equal; [|f_equal]]; apply byte_of_N_eq; lia.
Qed.

Lemma base64_encode_app (a b : Buffer) :
  (List.length a mod 3 = 0)%nat ->
  base64_encode (a ++ b) = base64_encode a ++ base64_encode b.
Proof.
  induction a as [|x|x y|x y z l IH] using list_ind3; intros H.
  - reflexivity.
  - discriminate H.
  - discriminate H.
  - cbn [base64_encode app]. rewrite IH; [reflexivity|].
    cbn [List.length] in H.
    replace (S (S (S (List.length l)))) with (List.length l + 1 * 3)%nat in H by lia.
    now rewrite Nat.Div0.mod_add in H.
Qed.

(** What the stream decoder of a cipher object yields over an [update]
    and the [final] after it is the base64 text of the whole output. *)
Lemma base64_stream (a b : Buffer) :
  let (t1, d) := decoder_write (newStringDecoder base64) a in
  t1 ++ decoder_end d b = base64_encode (a ++ b).
Proof.
  cbn [newStringDecoder decoder_write app].
  set (n := (List.length a mod 3)%nat).
  cbn [decoder_end decoder_write].
  set (p := skipn (List.length a - n) a).
  set (m := (List.length (p ++ b) mod 3)%nat).
  assert (Hn : (n <= List.length a)%nat).
  { subst n. pose proof (Nat.Div0.mod_le (List.length a) 3). lia. }
  assert (H1 : (List.length (firstn (List.length a - n) a) mod 3 = 0)%nat).
  { rewrite length_firstn, Nat.min_l by lia. subst n.
    pose proof (Nat.div_mod_eq (List.length a) 3).
    replace (List.length a - List.length a mod 3)%nat
      with ((List.length a / 3) * 3)%nat by lia.
    apply Nat.Div0.mod_mul. }
  assert (Hm : (m <= List.length (p ++ b))%nat).
  { subst m. pose proof (Nat.Div0.mod_le (List.length (p ++ b)) 3). lia. }
  assert (H2 : (List.length (firstn (List.length (p ++ b) - m) (p ++ b)) mod 3 = 0)%nat).
  { rewrite length_firstn, Nat.min_l by lia. subst m.
    pose proof (Nat.div_mod_eq (List.length (p ++ b)) 3).
    replace (List.length (p ++ b) - List.length (p ++ b) mod 3)%nat
      with ((List.length (p ++ b) / 3) * 3)%nat by lia.
    apply Nat.Div0.mod_mul. }
  rewrite <- (base64_encode_app _ _ H2), firstn_skipn.
  rewrite <- (base64_encode_app _ _ H1). subst p.
  now rewrite app_assoc, firstn_skipn.
Qed.

(** * UTF-8 *)

Lemma utf8_run_app (st : Utf8State) (a b : Buffer) :
  utf8_run st (a ++ b) =
    let (o1, st1) := utf8_run st a in
    let (o2, st2) := utf8_run st1 b in
    (o1 ++ o2, st2).
Proof.
  revert st. induction a as [|x a IH]; intros st; cbn [utf8_run app].
  - now destruct (utf8_run st b).
  - destruct (utf8_step st x) as [cps st1]. rewrite IH.
    destruct (utf8_run st1 a) as [o1 st2].
    destruct (utf8_run st2 b) as [o2 st3].
    now rewrite app_assoc.
Qed.

(** Decide the comparisons of a goal, closing the impossible cases. *)
Ltac cmp_cases :=
  repeat match goal with
         | |- context [?a <? ?b] => destruct (N.ltb_spec a b); try lia
         | |- context [?a <=? ?b] => destruct (N.leb_spec a b); try lia
         | |- context [?a =? ?b] => destruct (N.eqb_spec a b); try lia
         | _ => progress cbn [andb orb negb fst snd
                                u_code_point u_bytes_seen u_bytes_needed
                                u_lower u_upper]
         end.

Lemma utf8_step_1 (cp : N) :
  cp < 0x80 -> utf8_step utf8_start (byte_of_N cp) = ([cp], utf8_start).
Proof.
  intros H. unfold utf8_step. rewrite to_N_byte_of_N by lia.
  cbn [utf8_start u_bytes_needed]. unfold utf8_lead. cbn [N.eqb].
  cmp_cases. reflexivity.
Qed.

(** A lead byte opens a sequence. *)
Lemma utf8_step_lead (n : N) :
  n < 256 -> utf8_step utf8_start (byte_of_N n) = utf8_lead n.
Proof.
  intros H. unfold utf8_step. rewrite to_N_byte_of_N by lia. reflexivity.
Qed.

(** A continuation byte that is in range and not the last. *)
Lemma utf8_step_cont (st : Utf8State) (n : N) :
  u_bytes_needed st <> 0 -> u_lower st <= n <= u_upper st -> n < 256 ->
  u_bytes_seen st + 1 <> u_bytes_needed st ->
  utf8_step st (byte_of_N n) =
    ([], {| u_code_point := u_code_point st * 64 + (n - 0x80);
            u_bytes_seen := u_bytes_seen st + 1;
            u_bytes_needed := u_bytes_needed st;
            u_lower := 0x80; u_upper := 0xBF |}).
Proof.
  intros H1 H2 H3 H4. unfold utf8_step. rewrite to_N_byte_of_N by lia.
  cmp_cases. reflexivity.
Qed.

(** The continuation byte that completes the sequence. *)
Lemma utf8_step_last (st : Utf8State) (n : N) :
  u_bytes_needed st <> 0 -> u_lower st <= n <= u_upper st -> n < 256 ->
  u_bytes_seen st + 1 = u_bytes_needed st ->
  utf8_step st (byte_of_N n) =
    ([u_code_point st * 64 + (n - 0x80)], utf8_start).
Proof.
  intros H1 H2 H3 H4. unfold utf8_step. rewrite to_N_byte_of_N by lia.
  cmp_cases. reflexivity.
Qed.

(** The decoder reads the encoding of a scalar value back as that value
    and is then ready for the next one. *)
Lemma utf8_run_bytes (cp : N) (rest : Buffer) :
  cp < 0x110000 -> ~ (0xD800 <= cp <= 0xDFFF) ->
  utf8_run utf8_start (utf8_bytes cp ++ rest) =
    let (out, st) := utf8_run utf8_start rest in (utf16_units cp ++ out, st).
Proof.
  intros Hmax Hsur. unfold utf8_bytes.
  destruct (N.ltb_spec cp 0x80) as [H1|H1];
    [|destruct (N.ltb_spec cp 0x800) as [H2|H2];
      [|destruct (N.ltb_spec cp 0x10000) as [H3|H3]]];
    cbn [app utf8_run].
  - rewrite utf8_step_1 by lia.
    destruct (utf8_run utf8_start rest) as [out st].
    cbn [flat_map app]. now rewrite app_nil_r.
  - rewrite utf8_step_lead by lia. unfold utf8_lead at 1. cmp_cases.
    rewrite utf8_step_last by (cbn [u_bytes_needed u_lower u_upper u_bytes_seen u_code_point]; lia).
    destruct (utf8_run utf8_start rest) as [out st].
    cbn [flat_map app u_code_point]. rewrite app_nil_r.
    replace (_ * 64 + _) with cp by lia. reflexivity.
  - rewrite utf8_step_lead by lia. unfold utf8_lead at 1. cmp_cases;
      (rewrite utf8_step_cont by (cbn [u_bytes_needed u_lower u_upper u_bytes_seen u_code_point]; lia));
      (rewrite utf8_step_last by (cbn [u_bytes_needed u_lower u_upper u_bytes_seen u_code_point]; lia));
      destruct (utf8_run utf8_start rest) as [out st];
      cbn [flat_map app u_code_point]; rewrite app_nil_r;
      (replace (_ * 64 + _) with cp by lia); reflexivity.
  - rewrite utf8_step_lead by lia. unfold utf8_lead at 1. cmp_cases;
      (rewrite utf8_step_cont by (cbn [u_bytes_needed u_lower u_upper u_bytes_seen u_code_point]; lia));
      (rewrite utf8_step_cont by (cbn [u_bytes_needed u_lower u_upper u_bytes_seen u_code_point]; lia));
      (rewrite utf8_step_last by (cbn [u_bytes_needed u_lower u_upper u_bytes_seen u_code_point]; lia));
      destruct (utf8_run utf8_start rest) as [out st];
      cbn [flat_map app u_code_point]; rewrite app_nil_r;
      (replace (_ * 64 + _) with cp by lia); reflexivity.
Qed.

Lemma list_length_ind {A} (P : list A -> Prop) :
  (forall l, (forall l', (List.length l' < List.length l)%nat -> P l') -> P l) ->
  forall l, P l.
Proof.
  intros H l. remember (List.length l) as n eqn:E. revert l E.
  induction n as [n IH] using lt_wf_ind. intros l ->.
  apply H. intros l' Hl. exact (IH _ Hl l' eq_refl).
Qed.

Lemma is_string_inv (c : N) (s : JSString) :
  is_string (c :: s) -> c < 65536 /\ is_string s.
Proof. intros H. inversion H; subst. now split. Qed.

Lemma utf8_run_replacement (rest : Buffer) :
  utf8_run utf8_start (utf8_bytes replacement_character ++ rest) =
    let (out, st) := utf8_run utf8_start rest in
    (replacement_character :: out, st).
Proof.
  rewrite utf8_run_bytes by (unfold replacement_character; lia).
  reflexivity.
Qed.

(** Encoding a string and decoding the bytes yields the string with its
    unpaired surrogates replaced, and leaves no sequence open. *)
Lemma utf8_run_encode (s : JSString) :
  is_string s ->
  utf8_run utf8_start (utf8_encode s) = (toWellFormed s, utf8_start).
Proof.
  induction s as [s IH] using list_length_ind. intros Hs.
  destruct s as [|c s']; [reflexivity|].
  apply is_string_inv in Hs. destruct Hs as [Hc Hs'].
  cbn [utf8_encode toWellFormed].
  destruct (is_high_surrogate c) eqn:Hh.
  - destruct s' as [|d s''].
    + rewrite <- (app_nil_r (utf8_bytes _)), utf8_run_replacement. reflexivity.
    + destruct (is_low_surrogate d) eqn:Hl.
      * apply is_string_inv in Hs'. destruct Hs' as [Hd Hs''].
        unfold is_high_surrogate in Hh. unfold is_low_surrogate in Hl.
        apply andb_true_iff in Hh, Hl.
        rewrite !N.leb_le in Hh, Hl.
        rewrite utf8_run_bytes by lia.
        rewrite IH by (cbn [List.length]; lia || assumption).
        unfold utf16_units.
        destruct (N.ltb_spec (65536 + (c - 55296) * 1024 + (d - 56320)) 65536);
          [lia|].
        cbn [app]. repeat f_equal; lia.
      * rewrite utf8_run_replacement.
        rewrite IH by (cbn [List.length]; lia || assumption). reflexivity.
  - destruct (is_low_surrogate c) eqn:Hl.
    + rewrite utf8_run_replacement.
      rewrite IH by (cbn [List.length]; lia || assumption). reflexivity.
    + unfold is_high_surrogate in Hh. unfold is_low_surrogate in Hl.
      apply andb_false_iff in Hh, Hl.
      rewrite !N.leb_gt in Hh, Hl.
      rewrite utf8_run_bytes by lia.
      rewrite IH by (cbn [List.length]; lia || assumption).
      unfold utf16_units. destruct (N.ltb_spec c 65536); [|lia].
      reflexivity.
Qed.

Lemma toWellFormed_id (s : JSString) :
  well_formed s = true -> toWellFormed s = s.
Proof.
  induction s as [s IH] using list_length_ind. intros H.
  destruct s as [|c s']; [reflexivity|].
  cbn [well_formed toWellFormed] in *.
  destruct (is_high_surrogate c).
  - destruct s' as [|d s'']; [discriminate|].
    apply andb_true_iff in H. destruct H as [Hd H]. rewrite Hd.
    rewrite IH by (cbn [List.length]; lia || assumption). reflexivity.
  - destruct (is_low_surrogate c); [discriminate|].
    rewrite IH by (cbn [List.length]; lia || assumption). reflexivity.
Qed.

Lemma utf8_decode_encode (s : JSString) :
  is_string s -> utf8_decode (utf8_encode s) = toWellFormed s.
Proof.
  intros Hs. unfold utf8_decode. rewrite utf8_run_encode by assumption.
  cbn. apply app_nil_r.
Qed.

(** * The UTF-8 stream decoder *)

(** ** The two tests on a byte, as ranges *)

Lemma is_continuation_range (b : byte) :
  is_continuation b = (0x80 <=? Byte.to_N b) && (Byte.to_N b <=? 0xBF).
Proof. destruct b; reflexivity. Qed.

Lemma utf8_char_length_range (b : byte) :
  utf8_char_length b =
    let n := Byte.to_N b in
    if (0xC0 <=? n) && (n <=? 0xDF) then 2%nat
    else if (0xE0 <=? n) && (n <=? 0xEF) then 3%nat
    else if (0xF0 <=? n) && (n <=? 0xF7) then 4%nat
    else 0%nat.
Proof. destruct b; reflexivity. Qed.

Lemma high_bit_range (b : byte) :
  (N.land (Byte.to_N b) 0x80 =? 0) = (Byte.to_N b <? 0x80).
Proof. destruct b; reflexivity. Qed.

Lemma is_continuation_true (b : byte) :
  is_continuation b = true <-> 0x80 <= Byte.to_N b <= 0xBF.
Proof. rewrite is_continuation_range, andb_true_iff, !N.leb_le. tauto. Qed.

Lemma is_continuation_false (b : byte) :
  is_continuation b = false <-> Byte.to_N b < 0x80 \/ 0xBF < Byte.to_N b.
Proof.
  rewrite is_continuation_range, andb_false_iff, !N.leb_gt. tauto.
Qed.

(** ** The states of the decoder *)

Lemma utf8_lead_state (x : Buffer) (b : byte) :
  snd (utf8_lead (Byte.to_N b)) = utf8_start \/
  sequence_open (x ++ [b]) (snd (utf8_lead (Byte.to_N b))).
Proof.
  pose proof (to_N_lt b) as Hb.
  pose proof (utf8_char_length_range b) as Hl. cbv zeta in Hl.
  unfold utf8_lead. cmp_cases; try (left; reflexivity).
  all: right; exists x, b, [];
    cbn [snd u_bytes_seen u_bytes_needed u_lower u_upper List.length forallb];
    repeat split; try lia; try reflexivity;
    try (apply is_continuation_false; lia);
    rewrite Hl; cmp_cases; reflexivity.
Qed.

Lemma utf8_step_state (x : Buffer) (st : Utf8State) (b : byte) :
  st = utf8_start \/ sequence_open x st ->
  snd (utf8_step st b) = utf8_start \/
  sequence_open (x ++ [b]) (snd (utf8_step st b)).
Proof.
  intros [-> | (x0 & L & cs & -> & HL & Hcs & Hseen & Hlt & Hlen & Hlo & Hup)].
  - exact (utf8_lead_state x b).
  - pose proof (to_N_lt b) as Hb. unfold utf8_step.
    destruct (N.eqb_spec (u_bytes_needed st) 0); [lia|].
    destruct (N.ltb_spec (Byte.to_N b) (u_lower st)); cbn [orb].
    { pose proof (utf8_lead_state (x0 ++ L :: cs) b) as Hst.
      destruct (utf8_lead (Byte.to_N b)). exact Hst. }
    destruct (N.ltb_spec (u_upper st) (Byte.to_N b)).
    { pose proof (utf8_lead_state (x0 ++ L :: cs) b) as Hst.
      destruct (utf8_lead (Byte.to_N b)). exact Hst. }
    destruct (N.eqb_spec (u_bytes_seen st + 1) (u_bytes_needed st));
      [now left|].
    right. exists x0, L, (cs ++ [b]).
    cbn [snd u_bytes_seen u_bytes_needed u_lower u_upper].
    rewrite <- app_assoc, forallb_app, Hcs, length_app.
    cbn [app forallb List.length andb].
    replace (is_continuation b) with true
      by (symmetry; apply is_continuation_true; lia).
    repeat split; try lia; try reflexivity; assumption.
Qed.

(** After any input the decoder is in its initial state or has a
    sequence open. *)
Lemma utf8_run_state (x : Buffer) :
  snd (utf8_run utf8_start x) = utf8_start \/
  sequence_open x (snd (utf8_run utf8_start x)).
Proof.
  induction x as [|b x IH] using rev_ind; [now left|].
  rewrite utf8_run_app.
  destruct (utf8_run utf8_start x) as [o1 st1]. cbn [snd] in IH.
  cbn [utf8_run].
  pose proof (utf8_step_state x st1 b IH) as H.
  destruct (utf8_step st1 b) as [cps st2]. exact H.
Qed.

(** ** Where a buffer can be cut *)

Lemma utf8_flush_start : utf8_flush utf8_start = [].
Proof. reflexivity. Qed.

(** After an input that leaves no sequence open. *)
Lemma utf8_decode_app_start (x y : Buffer) :
  snd (utf8_run utf8_start x) = utf8_start ->
  utf8_decode (x ++ y) = utf8_decode x ++ utf8_decode y.
Proof.
  intros H. unfold utf8_decode. rewrite utf8_run_app.
  destruct (utf8_run utf8_start x) as [o1 st1]. cbn [snd] in H. subst st1.
  destruct (utf8_run utf8_start y) as [o2 st2].
  rewrite utf8_flush_start, app_nil_r. now rewrite app_assoc.
Qed.

(** Before a byte that is not a continuation byte. *)
Lemma utf8_decode_app_first (x y : Buffer) (b : byte) :
  is_continuation b = false ->
  utf8_decode (x ++ b :: y) = utf8_decode x ++ utf8_decode (b :: y).
Proof.
  intros Hb.
  destruct (utf8_run_state x)
    as [H | (x0 & L & cs & E & HL & Hcs & Hseen & Hlt & Hlen & Hlo & Hup)];
    [now apply utf8_decode_app_start|].
  unfold utf8_decode. rewrite utf8_run_app.
  destruct (utf8_run utf8_start x) as [o1 st1]. cbn [snd] in *.
  cbn [utf8_run]. apply is_continuation_false in Hb.
  assert (Hs : utf8_step st1 b =
               (let (out, st') := utf8_lead (Byte.to_N b) in
                (replacement_character :: out, st'))).
  { unfold utf8_step.
    destruct (N.eqb_spec (u_bytes_needed st1) 0); [lia|].
    destruct (N.ltb_spec (Byte.to_N b) (u_lower st1)); [reflexivity|].
    destruct (N.ltb_spec (u_upper st1) (Byte.to_N b)); [reflexivity|lia]. }
  rewrite Hs.
  change (utf8_step utf8_start b) with (utf8_lead (Byte.to_N b)).
  destruct (utf8_lead (Byte.to_N b)) as [out st'].
  destruct (utf8_run st' y) as [o2 st2].
  unfold utf8_flush at 2.
  destruct (N.eqb_spec (u_bytes_needed st1) 0); [lia|].
  cbn [flat_map]. change (utf16_units replacement_character)
    with [replacement_character].
  repeat (cbn [app]; rewrite <- ?app_assoc). reflexivity.
Qed.

(** A first byte with all the continuation bytes it announces, or more,
    leaves no sequence open. *)
Lemma utf8_run_whole_character (L : byte) (cs : Buffer) :
  is_continuation L = false -> forallb is_continuation cs = true ->
  (utf8_char_length L <= S (List.length cs))%nat ->
  snd (utf8_run utf8_start (L :: cs)) = utf8_start.
Proof.
  intros HL Hcs Hlen.
  destruct (utf8_run_state (L :: cs))
    as [H | (x0 & L' & cs' & E & HL' & Hcs' & Hseen & Hlt & Hlen' & _)];
    [exact H|exfalso].
  destruct x0 as [|a x0]; cbn [app] in E.
  - injection E as -> ->. lia.
  - injection E as _ ->. rewrite forallb_app in Hcs. cbn [forallb] in Hcs.
    rewrite HL' in Hcs. cbn in Hcs. now rewrite andb_false_r in Hcs.
Qed.

(** ** The character that a chunk cuts off *)

Lemma utf8_char_length_le (b : byte) : (utf8_char_length b <= 4)%nat.
Proof.
  unfold utf8_char_length.
  repeat match goal with |- context [if ?c then _ else _] => destruct c end;
    lia.
Qed.

(** What the scan keeps begins with a first byte, which announces more
    bytes than follow it. *)
Lemma utf8_scan_back_kept (rdata : Buffer) (k h m : nat) :
  utf8_scan_back rdata k = (h, m) ->
  (h = 0 /\ m = 0)%nat \/
  exists cs L before,
    rdata = rev cs ++ L :: before /\
    forallb is_continuation cs = true /\ is_continuation L = false /\
    h = (k + List.length cs + 1)%nat /\
    utf8_char_length L = (h + m)%nat /\ (0 < m)%nat.
Proof.
  revert k. induction rdata as [|b before IH]; intros k E; cbn [utf8_scan_back] in E.
  - injection E as <- <-. now left.
  - destruct (is_continuation b) eqn:Hb.
    + destruct ((4 <=? S k)%nat || match before with [] => true | _ :: _ => false end).
      * injection E as <- <-. now left.
      * destruct (IH (S k) E) as [H | (cs & L & bf & -> & Hcs & HL & Hh & Hlen & Hm)];
          [now left|right].
        exists (cs ++ [b]), L, bf.
        rewrite rev_app_distr, forallb_app, Hcs, length_app.
        cbn [rev app forallb List.length]. rewrite Hb.
        repeat split; try assumption; try reflexivity. lia.
    + destruct (Nat.leb_spec (utf8_char_length b) (S k)).
      * injection E as <- <-. now left.
      * injection E as <- <-. right. exists [], b, before.
        cbn [rev app forallb List.length].
        repeat split; try assumption; try reflexivity; lia.
Qed.

Lemma utf8_scan_back_open (rcs : Buffer) (L : byte) (before : Buffer) (k : nat) :
  forallb is_continuation rcs = true -> is_continuation L = false ->
  (k + List.length rcs + 1 < utf8_char_length L)%nat ->
  utf8_scan_back (rcs ++ L :: before) k
  = ((k + List.length rcs + 1)%nat,
     (utf8_char_length L - (k + List.length rcs + 1))%nat).
Proof.
  pose proof (utf8_char_length_le L) as H4.
  revert k. induction rcs as [|b rcs IH]; intros k Hcs HL Hlen;
    cbn [app utf8_scan_back List.length] in *.
  - rewrite HL. destruct (Nat.leb_spec (utf8_char_length L) (S k)); [lia|].
    f_equal; lia.
  - apply andb_true_iff in Hcs. destruct Hcs as [Hb Hcs]. rewrite Hb.
    destruct (Nat.leb_spec 4 (S k)); [lia|]. cbn [orb].
    replace (match rcs ++ L :: before with [] => true | _ :: _ => false end)
      with false by now destruct rcs.
    rewrite IH by (assumption || lia). f_equal; lia.
Qed.

Lemma forallb_rev {A} (p : A -> bool) (l : list A) :
  forallb p (rev l) = forallb p l.
Proof.
  induction l as [|a l IH]; [reflexivity|].
  cbn [rev forallb]. rewrite forallb_app, IH. cbn [forallb].
  now rewrite andb_true_r, andb_comm.
Qed.

(** The bytes of an open sequence are the bytes the scan keeps. *)
Lemma utf8_incomplete_open (x : Buffer) (st : Utf8State) :
  sequence_open x st -> fst (utf8_incomplete x) <> 0%nat.
Proof.
  intros (x0 & L & cs & -> & HL & Hcs & Hseen & Hlt & Hlen & _).
  assert (Hk : (0 + List.length (rev cs) + 1 < utf8_char_length L)%nat)
    by (rewrite length_rev; lia).
  unfold utf8_incomplete.
  rewrite rev_app_distr. cbn [rev]. rewrite <- app_assoc. cbn [app].
  pose proof (utf8_scan_back_open (rev cs) L (rev x0) 0) as E.
  rewrite forallb_rev in E. specialize (E Hcs HL Hk).
  assert (Hhigh : forall b, 0x80 <= Byte.to_N b ->
                            (N.land (Byte.to_N b) 0x80 =? 0) = false).
  { intros b Hb. rewrite high_bit_range. now apply N.ltb_ge. }
  destruct (rev cs) as [|c rcs] eqn:Er; cbn [app] in *.
  - rewrite Hhigh.
    + rewrite E. cbn [fst]. lia.
    + pose proof (utf8_char_length_range L) as R. cbv zeta in R.
      destruct (N.leb_spec 0x80 (Byte.to_N L)); [assumption|].
      rewrite R in Hk. revert Hk. cmp_cases; cbn [List.length]; lia.
  - rewrite Hhigh.
    + rewrite E. cbn [fst]. lia.
    + assert (Hc : is_continuation c = true).
      { rewrite <- forallb_rev, Er in Hcs. cbn [forallb] in Hcs.
        now apply andb_true_iff in Hcs. }
      apply is_continuation_true in Hc. lia.
Qed.

Lemma utf8_incomplete_none (x : Buffer) :
  fst (utf8_incomplete x) = 0%nat -> snd (utf8_run utf8_start x) = utf8_start.
Proof.
  intros H. destruct (utf8_run_state x) as [E | Ho]; [exact E|].
  now apply utf8_incomplete_open in Ho.
Qed.

Lemma utf8_incomplete_kept (x : Buffer) (h m : nat) :
  utf8_incomplete x = (h, m) ->
  (h = 0 /\ m = 0)%nat \/
  exists x0 L cs,
    x = x0 ++ L :: cs /\
    forallb is_continuation cs = true /\ is_continuation L = false /\
    h = S (List.length cs) /\
    utf8_char_length L = (h + m)%nat /\ (0 < m)%nat.
Proof.
  unfold utf8_incomplete. intros E.
  destruct (rev x) as [|b r] eqn:Er; [injection E as <- <-; now left|].
  destruct (N.land (Byte.to_N b) 0x80 =? 0); [injection E as <- <-; now left|].
  destruct (utf8_scan_back_kept _ _ _ _ E)
    as [H | (cs & L & bf & E' & Hcs & HL & Hh & Hlen & Hm)]; [now left|right].
  exists (rev bf), L, cs. repeat split; try assumption; try lia.
  rewrite <- (rev_involutive x), Er, E', rev_app_distr. cbn [rev].
  now rewrite rev_involutive, <- app_assoc.
Qed.

(** The text before the bytes that are kept does not depend on what
    follows. *)
Lemma utf8_incomplete_cut (x z : Buffer) :
  let n := (List.length x - fst (utf8_incomplete x))%nat in
  utf8_decode (x ++ z)
  = utf8_decode (firstn n x) ++ utf8_decode (skipn n x ++ z).
Proof.
  destruct (utf8_incomplete x) as [h m] eqn:E. cbn [fst].
  destruct (utf8_incomplete_kept x h m E)
    as [[-> ->] | (x0 & L & cs & -> & Hcs & HL & -> & Hlen & Hm)]; cbv zeta.
  - rewrite Nat.sub_0_r, firstn_all, skipn_all. cbn [app].
    apply utf8_decode_app_start, utf8_incomplete_none. now rewrite E.
  - rewrite length_app. cbn [List.length].
    replace (List.length x0 + S (List.length cs) - S (List.length cs))%nat
      with (List.length x0 + 0)%nat by lia.
    rewrite firstn_app_2, skipn_app, skipn_all2, Nat.add_comm by lia.
    cbn [firstn skipn app Nat.add]. rewrite app_nil_r.
    replace (List.length x0 - List.length x0)%nat with 0%nat by lia.
    cbn [skipn]. rewrite <- app_assoc. cbn [app].
    now apply utf8_decode_app_first.
Qed.

(** ** [write] and [end] *)

(** The first [write] of a decoder: the text up to the character that
    the chunk cuts off, whose bytes are kept. *)
Lemma utf8_write_fresh (data : Buffer) :
  decoder_write (newStringDecoder utf8) data =
    (utf8_decode
       (firstn (List.length data - fst (utf8_incomplete data)) data),
     Utf8Decoder
       (skipn (List.length data - fst (utf8_incomplete data)) data)
       (snd (utf8_incomplete data))).
Proof.
  cbn [newStringDecoder decoder_write]. unfold utf8_write.
  cbn [Nat.eqb List.length Nat.min Nat.ltb Nat.leb Nat.sub skipn app].
  destruct data as [|b data]; [reflexivity|].
  now destruct (utf8_incomplete (b :: data)).
Qed.

Lemma utf8_found_spec (m : nat) (data : Buffer) :
  let f := utf8_found m data in
  data = f ++ skipn (List.length f) data /\
  forallb is_continuation f = true /\
  (List.length f <= m)%nat /\ (List.length f <= List.length data)%nat /\
  ((List.length f < Nat.min m (List.length data))%nat ->
   exists b rest, skipn (List.length f) data = b :: rest /\
                  is_continuation b = false).
Proof.
  revert data. induction m as [|m IH]; intros data; cbn [utf8_found].
  - cbn [List.length skipn app forallb Nat.min]. repeat split; lia.
  - destruct data as [|b data].
    + cbn [List.length skipn app forallb Nat.min]. repeat split; lia.
    + destruct (is_continuation b) eqn:Hb.
      * specialize (IH data). cbv zeta in IH.
        destruct IH as (E & Hf & L1 & L2 & Hs).
        cbn [List.length skipn app forallb]. rewrite Hb, Hf.
        repeat split; try lia.
        -- now rewrite <- E.
        -- intros H. apply Hs. cbn [Nat.min] in H.
           destruct (Nat.min m (List.length data)) eqn:Em; lia.
      * cbn [List.length skipn app forallb]. repeat split; try lia.
        intros _. eauto.
Qed.

(** [end] of a decoder that keeps the first bytes of a character: the
    text of those bytes and of the last chunk together. *)
Lemma utf8_end_kept (L : byte) (cs b : Buffer) (m : nat) :
  is_continuation L = false -> forallb is_continuation cs = true ->
  (0 < m)%nat -> utf8_char_length L = (S (List.length cs) + m)%nat ->
  decoder_end (Utf8Decoder (L :: cs) m) b = utf8_decode ((L :: cs) ++ b).
Proof.
  intros HL Hcs Hm Hlen. unfold decoder_end, decoder_write, utf8_write.
  destruct (Nat.eqb_spec m 0) as [|_]; [lia|].
  destruct (utf8_found_spec m b) as (E & Hf & L1 & L2 & Hs).
  set (f := utf8_found m b) in *.
  set (rest := skipn (List.length f) b) in *.
  destruct rest as [|r rs] eqn:Er.
  - assert (Hb : List.length f = List.length b).
    { apply (f_equal (@List.length byte)) in E.
      rewrite length_app in E. cbn [List.length] in E. lia. }
    destruct (Nat.ltb_spec (List.length f) (Nat.min m (List.length b))); [lia|].
    rewrite app_nil_r in E. rewrite <- E.
    destruct (m - List.length b =? 0)%nat; [|reflexivity].
    change (utf8_decode []) with (@nil N). apply app_nil_r.
  - assert (Hb : (List.length f < List.length b)%nat).
    { apply (f_equal (@List.length byte)) in E.
      rewrite length_app in E. cbn [List.length] in E. lia. }
    assert (Hcut : utf8_decode (((L :: cs) ++ f) ++ r :: rs)
                   = utf8_decode ((L :: cs) ++ f) ++ utf8_decode (r :: rs)).
    { destruct (Nat.ltb_spec (List.length f) (Nat.min m (List.length b)))
        as [Hlt|Hge].
      - destruct (Hs Hlt) as (b' & rest' & Eb & Hb').
        injection Eb as -> ->. now apply utf8_decode_app_first.
      - apply utf8_decode_app_start. cbn [app].
        apply utf8_run_whole_character; [exact HL| |].
        + now rewrite forallb_app, Hcs, Hf.
        + rewrite length_app. lia. }
    assert (Hz : (if (List.length f <? Nat.min m (List.length b))%nat
                  then 0%nat else (m - List.length f)%nat) = 0%nat).
    { destruct (Nat.ltb_spec (List.length f) (Nat.min m (List.length b)));
        lia. }
    rewrite Hz. cbn [Nat.eqb].
    pose proof (utf8_incomplete_cut (r :: rs) []) as Hr. cbv zeta in Hr.
    rewrite !app_nil_r in Hr.
    destruct (utf8_incomplete (r :: rs)) as [h2 m2]. cbn [fst] in Hr.
    rewrite <- app_assoc, <- Hr, <- Hcut, <- app_assoc. now rewrite <- E.
Qed.

(** What the UTF-8 stream decoder of a decipher object yields over an
    [update] and the [final] after it is the text of the whole output. *)
Lemma utf8_stream (a b : Buffer) :
  let (t1, d) := decoder_write (newStringDecoder utf8) a in
  t1 ++ decoder_end d b = utf8_decode (a ++ b).
Proof.
  rewrite utf8_write_fresh.
  pose proof (utf8_incomplete_cut a b) as Ha. cbv zeta in Ha.
  destruct (utf8_incomplete a) as [h m] eqn:E. cbn [fst snd] in *.
  destruct (utf8_incomplete_kept a h m E)
    as [[-> ->] | (x0 & L & cs & -> & Hcs & HL & -> & Hlen & Hm)].
  - rewrite Ha, Nat.sub_0_r, firstn_all, skipn_all. cbn [app]. f_equal.
    change (Utf8Decoder [] 0) with (newStringDecoder utf8).
    unfold decoder_end. rewrite utf8_write_fresh.
    pose proof (utf8_incomplete_cut b []) as Hb. cbv zeta in Hb.
    now rewrite !app_nil_r in Hb.
  - rewrite Ha. f_equal.
    assert (Es : skipn (List.length (x0 ++ L :: cs) - S (List.length cs))
                       (x0 ++ L :: cs) = L :: cs).
    { rewrite length_app. cbn [List.length].
      replace (List.length x0 + S (List.length cs) - S (List.length cs))%nat
        with (List.length x0) by lia.
      rewrite skipn_app, skipn_all, Nat.sub_diag. reflexivity. }
    rewrite Es. now apply utf8_end_kept.
Qed.

(** A chunk written to a fresh decoder and nothing after it: the text
    lacks the bytes of the character that the chunk cuts off. *)
Lemma utf8_write_first (data : Buffer) :
  fst (decoder_write (newStringDecoder utf8) data) =
    utf8_decode (firstn (List.length data - fst (utf8_incomplete data)) data)
  /\ exists buffered missing,
       snd (decoder_write (newStringDecoder utf8) data)
       = Utf8Decoder buffered missing.
Proof.
  rewrite utf8_write_fresh. split; [reflexivity|].
  eexists _, _. reflexivity.
Qed.

(** * Blocks, padding and chaining *)

Lemma log2_lt_8 (a : N) : a < 256 -> N.log2 a < 8.
Proof.
  intros H. destruct (N.eq_dec a 0) as [->|Hz]; [reflexivity|].
  apply N.log2_lt_pow2; [lia|exact H].
Qed.

Lemma lxor_lt_256 (a b : N) : a < 256 -> b < 256 -> N.lxor a b < 256.
Proof.
  intros Ha Hb. destruct (N.eq_dec (N.lxor a b) 0) as [E|E]; [rewrite E; lia|].
  change 256 with (2 ^ 8). apply N.log2_lt_pow2; [lia|].
  pose proof (N.log2_lxor a b). pose proof (log2_lt_8 a Ha).
  pose proof (log2_lt_8 b Hb). lia.
Qed.

Lemma byte_xor_involutive (a b : byte) : byte_xor (byte_xor a b) b = a.
Proof.
  unfold byte_xor.
  rewrite to_N_byte_of_N by (apply lxor_lt_256; apply to_N_lt).
  rewrite N.lxor_assoc, N.lxor_nilpotent, N.lxor_0_r.
  apply byte_of_N_to_N.
Qed.

Lemma xor_block_length (a b : Buffer) :
  List.length a = List.length b -> List.length (xor_block a b) = List.length a.
Proof.
  intros H. unfold xor_block. rewrite length_map, length_combine. lia.
Qed.

Lemma xor_block_involutive (a b : Buffer) :
  List.length a = List.length b -> xor_block (xor_block a b) b = a.
Proof.
  revert b. induction a as [|x a IH]; intros [|y b] H; try discriminate.
  - reflexivity.
  - cbn in H. injection H as H.
    unfold xor_block in *. cbn [combine map fst snd].
    now rewrite byte_xor_involutive, IH.
Qed.

Lemma blocks_cons (n : nat) (b rest : Buffer) :
  List.length b = block_size ->
  blocks (S n) (b ++ rest) = b :: blocks n rest.
Proof.
  intros H. cbn [blocks]. rewrite <- H.
  rewrite firstn_app, Nat.sub_diag, firstn_all, firstn_O, app_nil_r.
  rewrite skipn_app, Nat.sub_diag, skipn_all. reflexivity.
Qed.

Lemma full_blocks_cons (b rest : Buffer) :
  List.length b = block_size ->
  full_blocks (b ++ rest) = b :: full_blocks rest.
Proof.
  intros H. unfold full_blocks. rewrite length_app, H.
  replace ((block_size + List.length rest) / block_size)%nat
    with (S (List.length rest / block_size)).
  - now apply blocks_cons.
  - unfold block_size.
    replace (16 + List.length rest)%nat with (List.length rest + 1 * 16)%nat by lia.
    rewrite Nat.div_add by lia. lia.
Qed.

Lemma leftover_cons (b rest : Buffer) :
  List.length b = block_size -> leftover (b ++ rest) = leftover rest.
Proof.
  intros H. unfold leftover. rewrite length_app, H.
  replace ((block_size + List.length rest) / block_size)%nat
    with (S (List.length rest / block_size)).
  - rewrite skipn_app.
    replace (block_size * S (List.length rest / block_size))%nat
      with (List.length b + block_size * (List.length rest / block_size))%nat
      by lia.
    rewrite skipn_all2 by lia. cbn [app]. f_equal. lia.
  - unfold block_size.
    replace (16 + List.length rest)%nat with (List.length rest + 1 * 16)%nat by lia.
    rewrite Nat.div_add by lia. lia.
Qed.

Lemma full_blocks_short (d : Buffer) :
  (List.length d < block_size)%nat -> full_blocks d = [] /\ leftover d = d.
Proof.
  intros H. unfold full_blocks, leftover.
  rewrite Nat.div_small by exact H. now rewrite Nat.mul_0_r.
Qed.

Lemma full_blocks_concat (bs : list Buffer) (rest : Buffer) :
  Forall (fun b => List.length b = block_size) bs ->
  (List.length rest < block_size)%nat ->
  full_blocks (List.concat bs ++ rest) = bs /\
  leftover (List.concat bs ++ rest) = rest.
Proof.
  intros H Hr. induction H as [|b bs Hb _ IH].
  - cbn [List.concat app]. now apply full_blocks_short.
  - cbn [List.concat]. rewrite <- app_assoc.
    rewrite full_blocks_cons, leftover_cons by exact Hb.
    destruct IH as [-> ->]. now split.
Qed.

Lemma blocks_spec (n : nat) (d : Buffer) :
  (block_size * n <= List.length d)%nat ->
  Forall (fun b => List.length b = block_size) (blocks n d) /\
  List.concat (blocks n d) ++ skipn (block_size * n) d = d.
Proof.
  revert d. induction n as [|n IH]; intros d Hn; cbn [blocks List.concat].
  - rewrite Nat.mul_0_r. cbn. split; [constructor|reflexivity].
  - destruct (IH (skipn block_size d)) as [H1 H2].
    { rewrite length_skipn. lia. }
    split.
    + constructor; [|exact H1]. rewrite length_firstn. lia.
    + rewrite skipn_skipn in H2.
      replace (block_size * S n)%nat with (block_size * n + block_size)%nat by lia.
      rewrite <- app_assoc, H2. apply firstn_skipn.
Qed.

(** Every buffer is its complete blocks followed by the rest. *)
Lemma full_blocks_spec (d : Buffer) :
  Forall (fun b => List.length b = block_size) (full_blocks d) /\
  (List.length (leftover d) < block_size)%nat /\
  List.concat (full_blocks d) ++ leftover d = d.
Proof.
  unfold full_blocks, leftover.
  pose proof (Nat.div_mod_eq (List.length d) block_size) as E.
  pose proof (Nat.mod_upper_bound (List.length d) block_size) as U.
  assert (block_size <> 0)%nat as Hb by discriminate. specialize (U Hb).
  destruct (blocks_spec (List.length d / block_size) d) as [H1 H2]; [lia|].
  split; [exact H1|split; [|exact H2]].
  rewrite length_skipn. lia.
Qed.

Lemma last_repeat {A} (x d : A) (n : nat) (l : list A) :
  (0 < n)%nat -> last (l ++ repeat x n) d = x.
Proof.
  intros H. destruct n as [|n]; [lia|].
  replace (S n) with (n + 1)%nat by lia.
  rewrite repeat_app, app_assoc. cbn [repeat]. apply last_last.
Qed.

Lemma forallb_repeat {A} (p : A -> bool) (x : A) (n : nat) :
  p x = true -> forallb p (repeat x n) = true.
Proof. intros H. induction n; cbn; [reflexivity|now rewrite H]. Qed.

Lemma byte_eqb_refl (b : byte) : Byte.eqb b b = true.
Proof. now apply Byte.byte_dec_lb. Qed.

Lemma pkcs7_pad_length (buf : Buffer) :
  (List.length buf < block_size)%nat ->
  List.length (pkcs7_pad buf) = block_size.
Proof.
  intros H. unfold pkcs7_pad. rewrite length_app, repeat_length. lia.
Qed.

(** Removing the padding of a padded buffer gives the buffer back. *)
Lemma pkcs7_unpad_pad (buf : Buffer) :
  (List.length buf < block_size)%nat ->
  pkcs7_unpad (pkcs7_pad buf) = Some buf.
Proof.
  intros H. unfold pkcs7_unpad, pkcs7_pad.
  set (n := (block_size - List.length buf)%nat).
  assert (Hn : (0 < n <= 16)%nat) by (unfold block_size in *; lia).
  rewrite last_repeat by lia.
  rewrite to_N_byte_of_N by lia. rewrite Nat2N.id.
  destruct (Nat.eqb_spec n 0); [lia|].
  destruct (Nat.ltb_spec block_size n); [unfold block_size in *; lia|].
  cbn [orb].
  replace (block_size - n)%nat with (List.length buf) by lia.
  rewrite skipn_app, skipn_all, Nat.sub_diag. cbn [app skipn].
  rewrite forallb_repeat by apply byte_eqb_refl.
  rewrite firstn_app, firstn_all, Nat.sub_diag. cbn [firstn].
  now rewrite app_nil_r.
Qed.

Lemma cbc_encrypt_app (E : Buffer -> Buffer -> Buffer) (key chain : Buffer)
      (bs1 bs2 : list Buffer) :
  cbc_encrypt E key chain (bs1 ++ bs2) =
    let (cs1, chain1) := cbc_encrypt E key chain bs1 in
    let (cs2, chain2) := cbc_encrypt E key chain1 bs2 in
    (cs1 ++ cs2, chain2).
Proof.
  revert chain. induction bs1 as [|b bs1 IH]; intros chain;
    cbn [app cbc_encrypt].
  - now destruct (cbc_encrypt E key chain bs2).
  - rewrite IH.
    destruct (cbc_encrypt E key _ bs1) as [cs1 chain1].
    now destruct (cbc_encrypt E key chain1 bs2).
Qed.

Section Chaining.

Variable block_encrypt block_decrypt : Buffer -> Buffer -> Buffer.
Variable key : Buffer.

Hypothesis encrypt_length : forall b,
  List.length b = block_size ->
  List.length (block_encrypt key b) = block_size.

Hypothesis decrypt_encrypt : forall b,
  List.length b = block_size ->
  block_decrypt key (block_encrypt key b) = b.

Lemma cbc_encrypt_length (chain : Buffer) (bs : list Buffer) :
  List.length chain = block_size ->
  Forall (fun b => List.length b = block_size) bs ->
  Forall (fun b => List.length b = block_size)
         (fst (cbc_encrypt block_encrypt key chain bs))
  /\ List.length (snd (cbc_encrypt block_encrypt key chain bs)) = block_size.
Proof.
  intros Hc H. revert chain Hc.
  induction H as [|b bs Hb _ IH]; intros chain Hc; cbn [cbc_encrypt].
  - split; [constructor|exact Hc].
  - set (c := block_encrypt key (xor_block b chain)).
    assert (Hlen : List.length c = block_size).
    { apply encrypt_length. rewrite xor_block_length; congruence. }
    specialize (IH c Hlen).
    destruct (cbc_encrypt block_encrypt key c bs) as [cs chain'].
    cbn [fst snd] in *. destruct IH as [IH1 IH2].
    split; [constructor; assumption|assumption].
Qed.

Lemma cbc_decrypt_encrypt (chain : Buffer) (bs : list Buffer) :
  List.length chain = block_size ->
  Forall (fun b => List.length b = block_size) bs ->
  fst (cbc_decrypt block_decrypt key chain
         (fst (cbc_encrypt block_encrypt key chain bs))) = bs.
Proof.
  intros Hc H. revert chain Hc.
  induction H as [|b bs Hb _ IH]; intros chain Hc; cbn [cbc_encrypt].
  - reflexivity.
  - set (c := block_encrypt key (xor_block b chain)).
    assert (Hlen : List.length c = block_size).
    { apply encrypt_length. rewrite xor_block_length; congruence. }
    specialize (IH c Hlen).
    destruct (cbc_encrypt block_encrypt key c bs) as [cs chain'].
    cbn [fst snd cbc_decrypt] in *.
    destruct (cbc_decrypt block_decrypt key c cs) as [ps chain''].
    cbn [fst] in *. subst ps. f_equal. subst c.
    rewrite decrypt_encrypt by (rewrite xor_block_length; congruence).
    apply xor_block_involutive. congruence.
Qed.

(** The blocks of a ciphertext and what they decrypt to. *)
Lemma ciphertext_blocks (iv data : Buffer) :
  List.length iv = block_size ->
  let ps := full_blocks data ++ [pkcs7_pad (leftover data)] in
  let cs := fst (cbc_encrypt block_encrypt key iv ps) in
  cbc_pkcs7_encrypt block_encrypt key iv data = List.concat cs /\
  full_blocks (List.concat cs) = cs /\
  leftover (List.concat cs) = [] /\
  fst (cbc_decrypt block_decrypt key iv cs) = ps /\
  List.concat cs <> [].
Proof.
  intros Hiv ps cs.
  destruct (full_blocks_spec data) as (Hfb & Hlo & _).
  assert (Hps : Forall (fun b => List.length b = block_size) ps).
  { apply Forall_app. split; [exact Hfb|].
    constructor; [now apply pkcs7_pad_length|constructor]. }
  destruct (cbc_encrypt_length iv ps Hiv Hps) as [Hcs _]. fold cs in Hcs.
  destruct (full_blocks_concat cs [] Hcs) as [F1 F2];
    [cbn; unfold block_size; lia|].
  rewrite app_nil_r in F1, F2.
  repeat split; try assumption.
  - now apply cbc_decrypt_encrypt.
  - subst cs ps. intros E.
    assert (L : List.length (List.concat
              (fst (cbc_encrypt block_encrypt key iv
                 (full_blocks data ++ [pkcs7_pad (leftover data)])))) = 0%nat)
      by now rewrite E.
    clear E F1 F2 Hps.
    destruct (full_blocks data ++ [pkcs7_pad (leftover data)]) as [|b l] eqn:El.
    + now destruct (full_blocks data).
    + cbn [cbc_encrypt] in *.
      destruct (cbc_encrypt block_encrypt key _ l) as [cs' ch].
      cbn [fst List.concat] in *. rewrite length_app in L.
      inversion Hcs; subst. unfold block_size in *. lia.
Qed.

End Chaining.

(** * AES: the inverse cipher inverts the cipher *)

Lemma all_bytes_complete (b : byte) : In b all_bytes.
Proof.
  unfold all_bytes. rewrite <- (byte_of_N_to_N b). apply in_map.
  rewrite <- (N2Nat.id (Byte.to_N b)). apply in_map, in_seq.
  pose proof (to_N_lt b). lia.
Qed.

(** A property of bytes, checked on each of the 256. *)
Lemma for_all_bytes (p : byte -> bool) :
  forallb p all_bytes = true -> forall b, p b = true.
Proof.
  intros H b. rewrite forallb_forall in H. apply H, all_bytes_complete.
Qed.

Lemma inv_sub_byte_sub_byte (b : byte) : inv_sub_byte (sub_byte b) = b.
Proof.
  apply Byte.byte_dec_bl.
  apply (for_all_bytes (fun b => Byte.eqb (inv_sub_byte (sub_byte b)) b)).
  vm_compute. reflexivity.
Qed.

Lemma inv_sub_bytes_sub_bytes (s : Buffer) : inv_sub_bytes (sub_bytes s) = s.
Proof.
  unfold inv_sub_bytes, sub_bytes. rewrite map_map.
  rewrite <- (map_id s) at 2. apply map_ext, inv_sub_byte_sub_byte.
Qed.

Lemma inv_shift_rows_shift_rows (s : Buffer) : inv_shift_rows (shift_rows s) = s.
Proof.
  do 17 (destruct s as [|? s]; [reflexivity|]). reflexivity.
Qed.

Lemma shift_rows_length (s : Buffer) : List.length (shift_rows s) = List.length s.
Proof.
  do 17 (destruct s as [|? s]; [reflexivity|]). reflexivity.
Qed.

(** *** MixColumns, bit by bit *)

Lemma to_bits_inj (a b : byte) : Byte.to_bits a = Byte.to_bits b -> a = b.
Proof.
  intros H. rewrite <- (Byte.of_bits_to_bits a), H.
  apply Byte.of_bits_to_bits.
Qed.

Lemma xtime_to_bits (a : byte) :
  Byte.to_bits (xtime a) = xtime_bits (Byte.to_bits a).
Proof.
  pose proof (for_all_bytes
                (fun a => Byte.eqb (xtime a)
                            (Byte.of_bits (xtime_bits (Byte.to_bits a))))) as H.
  rewrite (Byte.byte_dec_bl _ _ (H ltac:(vm_compute; reflexivity) a)).
  apply Byte.to_bits_of_bits.
Qed.

Lemma byte_xor_to_bits (a b : byte) :
  Byte.to_bits (byte_xor a b) = xor_bits (Byte.to_bits a) (Byte.to_bits b).
Proof.
  pose proof (for_all_bytes
                (fun a => forallb
                   (fun b => Byte.eqb (byte_xor a b)
                      (Byte.of_bits (xor_bits (Byte.to_bits a) (Byte.to_bits b))))
                   all_bytes)) as H.
  specialize (H ltac:(vm_compute; reflexivity) a). cbv beta in H.
  rewrite (Byte.byte_dec_bl _ _ (for_all_bytes _ H b)).
  apply Byte.to_bits_of_bits.
Qed.

Lemma inv_mix_column_mix_column (a b c d : byte) :
  match mix_column a b c d with
  | [a'; b'; c'; d'] => inv_mix_column a' b' c' d'
  | _ => []
  end = [a; b; c; d].
Proof.
  unfold mix_column, inv_mix_column, xor4, mul14, mul13, mul11, mul9, mul8,
    mul4, mul3, mul2.
  repeat f_equal; apply to_bits_inj;
    repeat rewrite ?byte_xor_to_bits, ?xtime_to_bits;
    destruct (Byte.to_bits a) as [a0 [a1 [a2 [a3 [a4 [a5 [a6 a7]]]]]]];
    destruct (Byte.to_bits b) as [b0 [b1 [b2 [b3 [b4 [b5 [b6 b7]]]]]]];
    destruct (Byte.to_bits c) as [c0 [c1 [c2 [c3 [c4 [c5 [c6 c7]]]]]]];
    destruct (Byte.to_bits d) as [d0 [d1 [d2 [d3 [d4 [d5 [d6 d7]]]]]]];
    cbn [xor_bits xtime_bits]; repeat (f_equal; try btauto).
Qed.

Lemma list_ind4 {A} (P : list A -> Prop) :
  P [] -> (forall a, P [a]) -> (forall a b, P [a; b]) ->
  (forall a b c, P [a; b; c]) ->
  (forall a b c d l, P l -> P (a :: b :: c :: d :: l)) ->
  forall l, P l.
Proof.
  intros H0 H1 H2 H3 H4.
  fix IH 1. intros [|a [|b [|c [|d l]]]];
    [exact H0 | apply H1 | apply H2 | apply H3 | apply H4, IH].
Qed.

Lemma inv_mix_columns_mix_columns (s : Buffer) :
  inv_mix_columns (mix_columns s) = s.
Proof.
  induction s as [|a|a b|a b c|a b c d l IH] using list_ind4;
    try reflexivity.
  cbn [mix_columns].
  pose proof (inv_mix_column_mix_column a b c d) as H.
  unfold mix_column in *. cbn [app inv_mix_columns] in *.
  rewrite IH. unfold inv_mix_column in *. cbn [app].
  injection H as -> -> -> ->. reflexivity.
Qed.

Lemma mix_columns_length (s : Buffer) :
  List.length (mix_columns s) = List.length s.
Proof.
  induction s as [|a|a b|a b c|a b c d l IH] using list_ind4;
    try reflexivity.
  cbn [mix_columns mix_column app List.length]. now rewrite IH.
Qed.

(** *** Rounds *)

Lemma aes_round_length (s rk : Buffer) :
  List.length s = 16%nat -> List.length rk = 16%nat ->
  List.length (aes_round s rk) = 16%nat.
Proof.
  intros Hs Hk. unfold aes_round, sub_bytes.
  rewrite xor_block_length;
    rewrite mix_columns_length, shift_rows_length, length_map; congruence.
Qed.

Lemma aes_inv_round_round (s rk : Buffer) :
  List.length s = 16%nat -> List.length rk = 16%nat ->
  aes_inv_round (aes_round s rk) rk = s.
Proof.
  intros Hs Hk. unfold aes_inv_round, aes_round.
  rewrite xor_block_involutive.
  - now rewrite inv_mix_columns_mix_columns, inv_shift_rows_shift_rows,
      inv_sub_bytes_sub_bytes.
  - unfold sub_bytes.
    rewrite mix_columns_length, shift_rows_length, length_map. congruence.
Qed.

Lemma fold_rounds_length (rks : list Buffer) (s : Buffer) :
  List.length s = 16%nat ->
  Forall (fun rk => List.length rk = 16%nat) rks ->
  List.length (fold_left aes_round rks s) = 16%nat.
Proof.
  intros Hs H. revert s Hs.
  induction H as [|rk rks Hk _ IH]; intros s Hs; cbn [fold_left].
  - exact Hs.
  - apply IH. now apply aes_round_length.
Qed.

Lemma fold_inv_rounds (rks : list Buffer) (s : Buffer) :
  List.length s = 16%nat ->
  Forall (fun rk => List.length rk = 16%nat) rks ->
  fold_left aes_inv_round (rev rks) (fold_left aes_round rks s) = s.
Proof.
  intros Hs H. revert s Hs.
  induction H as [|rk rks Hk Hr IH]; intros s Hs; cbn [fold_left rev].
  - reflexivity.
  - rewrite fold_left_app. cbn [fold_left].
    rewrite IH by now apply aes_round_length.
    now apply aes_inv_round_round.
Qed.

(** *** The key schedule of a 32-byte key *)

Lemma key_schedule_256 (key : Buffer) :
  List.length key = 32%nat ->
  map (@List.length byte) (key_schedule key) = repeat 16%nat 15.
Proof.
  intros H.
  do 32 (destruct key as [|? key]; [discriminate H|]).
  destruct key; [|discriminate H].
  vm_compute. reflexivity.
Qed.

Lemma key_schedule_256_shape (key : Buffer) :
  List.length key = 32%nat ->
  exists rk0 mid rk14,
    key_schedule key = rk0 :: mid ++ [rk14] /\
    List.length rk0 = 16%nat /\ List.length rk14 = 16%nat /\
    Forall (fun rk => List.length rk = 16%nat) mid.
Proof.
  intros H. pose proof (key_schedule_256 key H) as L.
  destruct (key_schedule key) as [|rk0 rks]; [discriminate L|].
  change (repeat 16%nat 15) with (16%nat :: repeat 16%nat 14) in L.
  cbn [map] in L. injection L as L0 L.
  assert (Hne : rks <> []) by (intros ->; discriminate L).
  exists rk0, (removelast rks), (last rks []).
  split; [now rewrite <- app_removelast_last|].
  assert (F : Forall (fun rk => List.length rk = 16%nat) rks).
  { apply Forall_forall. intros rk Hin.
    apply (in_map (@List.length byte)) in Hin. rewrite L in Hin.
    exact (repeat_spec 14 16%nat _ Hin). }
  rewrite (app_removelast_last [] Hne) in F.
  apply Forall_app in F. destruct F as [F1 F2].
  split; [exact L0|]. split; [now inversion F2|exact F1].
Qed.

(** *** The laws of the block cipher *)

Lemma aes_encrypt_length (key b : Buffer) :
  List.length key = 32%nat -> List.length b = block_size ->
  List.length (aes_encrypt_block key b) = block_size.
Proof.
  intros Hk Hb. unfold aes_encrypt_block.
  destruct (key_schedule_256_shape key Hk) as (rk0 & mid & rk14 & -> & L0 & L14 & F).
  rewrite removelast_last, last_last.
  assert (L : List.length (fold_left aes_round mid (xor_block b rk0)) = 16%nat).
  { apply fold_rounds_length; [|exact F].
    rewrite xor_block_length; unfold block_size in *; congruence. }
  unfold sub_bytes. rewrite xor_block_length;
    rewrite shift_rows_length, length_map; unfold block_size; congruence.
Qed.

Lemma aes_decrypt_encrypt (key b : Buffer) :
  List.length key = 32%nat -> List.length b = block_size ->
  aes_decrypt_block key (aes_encrypt_block key b) = b.
Proof.
  intros Hk Hb. unfold aes_decrypt_block, aes_encrypt_block.
  destruct (key_schedule_256_shape key Hk) as (rk0 & mid & rk14 & -> & L0 & L14 & F).
  rewrite removelast_last, last_last.
  assert (L1 : List.length (xor_block b rk0) = 16%nat).
  { rewrite xor_block_length; unfold block_size in *; congruence. }
  assert (L : List.length (fold_left aes_round mid (xor_block b rk0)) = 16%nat).
  { now apply fold_rounds_length. }
  rewrite xor_block_involutive.
  - rewrite inv_shift_rows_shift_rows, inv_sub_bytes_sub_bytes.
    rewrite fold_inv_rounds by assumption.
    apply xor_block_involutive. unfold block_size in *. congruence.
  - unfold sub_bytes. rewrite shift_rows_length, length_map. congruence.
Qed.

Lemma inv_shift_rows_length (s : Buffer) :
  List.length (inv_shift_rows s) = List.length s.
Proof.
  do 17 (destruct s as [|? s]; [reflexivity|]). reflexivity.
Qed.

Lemma inv_mix_columns_length (s : Buffer) :
  List.length (inv_mix_columns s) = List.length s.
Proof.
  induction s as [|a|a b|a b c|a b c d l IH] using list_ind4;
    try reflexivity.
  cbn [inv_mix_columns inv_mix_column app List.length]. now rewrite IH.
Qed.

Lemma aes_inv_round_length (s rk : Buffer) :
  List.length s = 16%nat -> List.length rk = 16%nat ->
  List.length (aes_inv_round s rk) = 16%nat.
Proof.
  intros Hs Hk. unfold aes_inv_round, inv_sub_bytes.
  rewrite length_map, inv_shift_rows_length, inv_mix_columns_length.
  rewrite xor_block_length; congruence.
Qed.

Lemma fold_inv_rounds_length (rks : list Buffer) (s : Buffer) :
  List.length s = 16%nat ->
  Forall (fun rk => List.length rk = 16%nat) rks ->
  List.length (fold_left aes_inv_round rks s) = 16%nat.
Proof.
  intros Hs H. revert s Hs.
  induction H as [|rk rks Hk _ IH]; intros s Hs; cbn [fold_left].
  - exact Hs.
  - apply IH. now apply aes_inv_round_length.
Qed.

Lemma aes_decrypt_length (key b : Buffer) :
  List.length key = 32%nat -> List.length b = block_size ->
  List.length (aes_decrypt_block key b) = block_size.
Proof.
  intros Hk Hb. unfold aes_decrypt_block.
  destruct (key_schedule_256_shape key Hk) as (rk0 & mid & rk14 & -> & L0 & L14 & F).
  rewrite removelast_last, last_last.
  rewrite xor_block_length; [|rewrite L0].
  - apply fold_inv_rounds_length; [|now apply Forall_rev].
    unfold inv_sub_bytes. rewrite length_map, inv_shift_rows_length.
    rewrite xor_block_length; unfold block_size in *; congruence.
  - apply fold_inv_rounds_length; [|now apply Forall_rev].
    unfold inv_sub_bytes. rewrite length_map, inv_shift_rows_length.
    rewrite xor_block_length; unfold block_size in *; congruence.
Qed.

(** The cipher on the example vector of FIPS 197, appendix C.3. *)
Example aes256_fips197 :
  aes_encrypt_block
    (map byte_of_N (map N.of_nat (seq 0 32)))
    (map byte_of_N [0x00; 0x11; 0x22; 0x33; 0x44; 0x55; 0x66; 0x77;
                    0x88; 0x99; 0xaa; 0xbb; 0xcc; 0xdd; 0xee; 0xff])
  = map byte_of_N [0x8e; 0xa2; 0xb7; 0xca; 0x51; 0x67; 0x45; 0xbf;
                   0xea; 0xfc; 0x49; 0x90; 0x4b; 0x49; 0x60; 0x89].
Proof. vm_compute. reflexivity. Qed.

(** * PBKDF2: the length of the derived key *)

Lemma flat_map_length_const {A B} (f : A -> list B) (n : nat) (l : list A) :
  (forall a, List.length (f a) = n) ->
  List.length (flat_map f l) = (n * List.length l)%nat.
Proof.
  intros H. induction l as [|a l IH]; cbn [flat_map List.length].
  - lia.
  - rewrite length_app, H, IH. lia.
Qed.

Lemma sha256_length (msg : Buffer) : List.length (sha256 msg) = 32%nat.
Proof.
  unfold sha256.
  rewrite (flat_map_length_const word_bytes 4) by reflexivity.
  rewrite length_firstn, length_app, repeat_length. lia.
Qed.

Lemma hmac_sha256_length (key msg : Buffer) :
  List.length (hmac_sha256 key msg) = 32%nat.
Proof. apply sha256_length. Qed.

Section Pbkdf2.

Variable prf : Buffer -> Buffer -> Buffer.
Variable hLen : nat.
Hypothesis prf_length : forall key msg, List.length (prf key msg) = hLen.

Lemma pbkdf2_block_length (password salt : Buffer) (c i : N) :
  List.length (pbkdf2_block prf password salt c i) = hLen.
Proof.
  unfold pbkdf2_block.
  set (step := fun ut : Buffer * Buffer =>
                 let u := prf password (fst ut) in (u, xor_block (snd ut) u)).
  assert (H : forall n ut,
             List.length (snd ut) = hLen ->
             List.length (snd (N.iter n step ut)) = hLen).
  { intros n. induction n as [|n IH] using N.peano_ind; intros ut Hut.
    - exact Hut.
    - rewrite N.iter_succ. unfold step at 1. cbn [snd].
      rewrite xor_block_length; rewrite IH by exact Hut; [reflexivity|].
      now rewrite prf_length. }
  apply H. cbn [snd]. apply prf_length.
Qed.

Lemma pbkdf2_length (password salt : Buffer) (c dkLen : N) :
  (0 < hLen)%nat ->
  List.length (pbkdf2 prf hLen password salt c dkLen) = N.to_nat dkLen.
Proof.
  intros Hpos. unfold pbkdf2. rewrite length_firstn.
  rewrite (flat_map_length_const _ hLen) by (intros; apply pbkdf2_block_length).
  rewrite length_seq. apply Nat.min_l.
  pose proof (Nat.div_mod_eq (N.to_nat dkLen + hLen - 1) hLen).
  pose proof (Nat.mod_upper_bound (N.to_nat dkLen + hLen - 1) hLen).
  nia.
Qed.

End Pbkdf2.

Lemma pbkdf2_hmac_sha256_length (password salt : Buffer) (c dkLen : N) :
  List.length (pbkdf2_hmac_sha256 password salt c dkLen) = N.to_nat dkLen.
Proof.
  apply pbkdf2_length; [apply hmac_sha256_length|lia].
Qed.

(** The functions on the test vectors of the standards. *)
Example sha256_abc :
  sha256 (utf8_encode (js "abc")) =
    map byte_of_N
        [0xba; 0x78; 0x16; 0xbf; 0x8f; 0x01; 0xcf; 0xea; 0x41; 0x41; 0x40;
         0xde; 0x5d; 0xae; 0x22; 0x23; 0xb0; 0x03; 0x61; 0xa3; 0x96; 0x17;
         0x7a; 0x9c; 0xb4; 0x10; 0xff; 0x61; 0xf2; 0x00; 0x15; 0xad].
Proof. vm_compute. reflexivity. Qed.

Example hmac_sha256_rfc4231_2 :
  base64_encode
    (hmac_sha256 (utf8_encode (js "Jefe"))
                 (utf8_encode (js "what do ya want for nothing?")))
  = js "W9zBRr9gdU5qBCQmCJV1x1oAPwidJzmDnexYuWTsOEM=".
Proof. vm_compute. reflexivity. Qed.

Example pbkdf2_two_iterations :
  base64_encode
    (pbkdf2_hmac_sha256 (utf8_encode (js "password")) (utf8_encode (js "salt"))
                        2 32)
  = js "rk0Mla9rRtMtCt/5KPBt0CowP47zwlHf1uLYWpVHTEM=".
Proof. vm_compute. reflexivity. Qed.

(** * Running the module *)

Lemma add_events_app (w : World) (a b : list Event) :
  add_events (add_events w a) b = add_events w (a ++ b).
Proof. unfold add_events. cbn. now rewrite app_assoc. Qed.

Lemma add_events_nil (w : World) : add_events w [] = w.
Proof. destruct w. unfold add_events. cbn. now rewrite app_nil_r. Qed.

Lemma emitted_app (a b : list Event) : emitted (a ++ b) = emitted a ++ emitted b.
Proof.
  induction a as [|[p|c] a IH]; cbn [emitted app]; [reflexivity|exact IH|].
  now rewrite IH.
Qed.

Lemma calls_app (a b : list Event) : calls (a ++ b) = calls a ++ calls b.
Proof.
  induction a as [|[p|c] a IH]; cbn [calls app]; [reflexivity| |exact IH].
  now rewrite IH.
Qed.

Lemma events_of_add {A} (m : M A) (w : World) (r : Completion A)
      (es : list Event) :
  m w = (r, add_events w es) -> events_of m w = es.
Proof.
  intros H. unfold events_of. rewrite H. cbn [snd add_events trace].
  rewrite skipn_app, skipn_all, Nat.sub_diag. reflexivity.
Qed.

Lemma sink_output_add (call : (JSString -> M unit) -> M (Promise unit))
      (w : World) (es : list Event) :
  call emit w = (Normal (Fulfilled tt), add_events w es) ->
  sink_output call w = Some (List.concat (emitted es)).
Proof.
  intros H. unfold sink_output.
  rewrite (events_of_add _ _ _ _ H), H. reflexivity.
Qed.

(** Unfold the module's code and the monad down to the world. *)
Ltac unfold_module :=
  unfold nativeGenerateHash, browserGenerateHash;
  unfold nativeGenerateIvv, nativeGenerateKey,
    nativeEncryptText, nativeDecryptText, browserGenerateKey,
    browserDecryptText;
  unfold method, invoke, invoke_random, emit, log, nativeCrypto_member,
    browserCrypto_member, member, optional_member, falsy;
  unfold async, await, bind, ret, throw, lift.

Tactic Notation "simpl_world" :=
  cbn [nativeCrypto browserCrypto entropy trace add_events fst snd
       randomBytes pbkdf2Sync createCipheriv createDecipheriv
       subtle importKey deriveBits decrypt].
Tactic Notation "simpl_world" "in" hyp(H) :=
  cbn [nativeCrypto browserCrypto entropy trace add_events fst snd
       randomBytes pbkdf2Sync createCipheriv createDecipheriv
       subtle importKey deriveBits decrypt] in H.

(** Reduce a hypothesis about a run, using the equations at hand. *)
Ltac reduce_in H :=
  repeat (cbv beta iota in H; simpl_world in H;
          try match goal with
              | E : _ = _ |- _ =>
                  tryif constr_eq E H then fail else rewrite E in H
              end).

(** ** A module that was never initialised *)

Lemma uninitialised_native (key ivv text : JSString) (w : World) :
  nativeCrypto w = None ->
  nativeGenerateIvv w =
    (Throw (TypeError "Cannot read properties of undefined (reading 'randomBytes')"), w)
  /\ nativeGenerateKey key ivv w =
    (Normal (Rejected (TypeError "Cannot read properties of undefined (reading 'randomBytes')")), w)
  /\ nativeGenerateHash key ivv w =
    (Normal (Rejected (TypeError "Cannot read properties of undefined (reading 'randomBytes')")), w)
  /\ nativeEncryptText key ivv text emit w =
    (Normal (Rejected (TypeError "Cannot read properties of undefined (reading 'createCipheriv')")), w)
  /\ nativeDecryptText key ivv text emit w =
    (Normal (Rejected (TypeError "Cannot read properties of undefined (reading 'createCipheriv')")), w).
Proof.
  intros H. unfold_module. rewrite H. cbn. repeat split.
Qed.

Lemma uninitialised_browser (key ivv text : JSString) (w : World) :
  browserCrypto w = None ->
  browserGenerateKey key ivv w =
    (Normal (Rejected (TypeError "Cannot read properties of undefined (reading 'subtle')")), w)
  /\ browserGenerateHash key ivv w =
    (Normal (Rejected (TypeError "Cannot read properties of undefined (reading 'subtle')")), w)
  /\ browserDecryptText key ivv text emit w =
    (Normal (Rejected (TypeError "Cannot read properties of undefined (reading 'subtle')")), w).
Proof.
  intros H. unfold_module. rewrite H. cbn. repeat split.
Qed.

(** ** The capability checks *)

(** Each operation of the native module names one property of the
    provider in its check; when that property is missing the operation
    fails with the corresponding [Error] and nothing else happens. *)
Lemma native_checks (c : NativeCrypto) (key ivv text : JSString) (w : World) :
  nativeCrypto w = Some c ->
  (randomBytes c = None ->
     nativeGenerateIvv w =
       (Throw (Error "nativeCrypto.randomBytes is not supported"), w)
     /\ nativeGenerateKey key ivv w =
       (Normal (Rejected (Error "nativeCrypto.randomBytes is not supported")), w))
  /\ (createCipheriv c = None ->
     nativeEncryptText key ivv text emit w =
       (Normal (Rejected (Error "nativeCrypto.createCipheriv is not supported")), w)
     /\ nativeDecryptText key ivv text emit w =
       (Normal (Rejected (Error "nativeCrypto.createCipheriv is not supported")), w)).
Proof.
  intros H. split; intros E; unfold_module; rewrite H; cbn; rewrite E;
    split; reflexivity.
Qed.

Lemma browser_checks (c : Crypto) (key ivv text : JSString) (w : World) :
  browserCrypto w = Some c ->
  optional_member (subtle c) importKey = None ->
  browserGenerateKey key ivv w =
    (Normal (Rejected (Error "browserCrypto.subtle.importKey is not supported")), w)
  /\ browserDecryptText key ivv text emit w =
    (Normal (Rejected (Error "browserCrypto.subtle.importKey is not supported")), w).
Proof.
  intros H E. unfold_module. rewrite H. cbn. unfold optional_member in E.
  rewrite E. split; reflexivity.
Qed.

(** ** Key derivation and fingerprint *)

Lemma async_normal {A} (body : M A) (w : World) :
  exists p w', async body w = (Normal p, w').
Proof.
  unfold async. destruct (body w) as [[a|e] w']; eauto.
Qed.

(** An [async] function awaited inside another: on fulfilment the value
    goes on, on rejection the outer promise is rejected alike. *)
Lemma async_then {A} (m : M (Promise A)) (k : A -> M (Promise A)) (w : World) :
  (exists p w', m w = (Normal p, w')) ->
  (forall a w', exists p w'', k a w' = (Normal p, w'')) ->
  async (p <- m ;; a <- await p ;; p' <- k a ;; await p') w =
    (let (r, w1) := m w in
     match r with
     | Normal (Fulfilled a) => k a w1
     | _ => (r, w1)
     end).
Proof.
  intros (p & w1 & E) Hk. unfold async, bind, await. rewrite E.
  destruct p as [a|e]; cbn; [|reflexivity].
  destruct (Hk a w1) as (p' & w2 & E'). rewrite E'.
  destruct p' as [b|e]; reflexivity.
Qed.

(** C3. The fingerprint is the key derivation applied twice: first to the
    password, then to the base64 text of the key so derived, with the same
    salt both times; a failure of the first derivation is the failure of
    the fingerprint. This holds in the native and in the browser module. *)
Theorem fingerprint_is_derive_of_derive (password salt : JSString) (w : World) :
  nativeGenerateHash password salt w =
    (let (r, w1) := nativeGenerateKey password salt w in
     match r with
     | Normal (Fulfilled key) => nativeGenerateKey key salt w1
     | _ => (r, w1)
     end)
  /\
  browserGenerateHash password salt w =
    (let (r, w1) := browserGenerateKey password salt w in
     match r with
     | Normal (Fulfilled key) => browserGenerateKey key salt w1
     | _ => (r, w1)
     end).
Proof.
  split.
  - unfold nativeGenerateHash. apply async_then.
    + apply async_normal.
    + intros a w'. apply async_normal.
  - unfold browserGenerateHash. apply async_then.
    + apply async_normal.
    + intros a w'. apply async_normal.
Qed.

(** ** The sink *)

(** The steps of a successful native encryption or decryption. *)
Lemma native_cipher_steps
      (create : option (string -> Buffer -> Buffer -> Completion CipherObject))
      (name : string) (text : JSString) (key iv : Buffer) (inEnc outEnc : Encoding)
      (w w' : World) :
  (f <- ret create ;;
   cipher <- invoke name f (fun g => g "aes-256-cbc" key iv) ;;
   r <- method "cipher.update"
          (cipher_update cipher (cipher_start cipher) text inEnc outEnc) ;;
   emit (fst r) ;;;
   s <- method "cipher.final" (cipher_final cipher (snd r) outEnc) ;;
   emit s ;;;
   ret tt) w = (Normal tt, w') ->
  exists mk cipher out st fin,
    create = Some mk /\
    mk "aes-256-cbc" key iv = Normal cipher /\
    cipher_update cipher (cipher_start cipher) text inEnc outEnc = Normal (out, st) /\
    cipher_final cipher st outEnc = Normal fin /\
    w' = add_events w [Call name; Call "cipher.update"; Emit out;
                       Call "cipher.final"; Emit fin].
Proof.
  unfold invoke, method, emit, log; unfold bind, ret, lift, throw. intros H.
  destruct create as [mk|]; [|discriminate].
  cbv beta iota in H.
  destruct (mk "aes-256-cbc" key iv) as [cipher|e] eqn:E1; [|discriminate].
  cbv beta iota in H.
  destruct (cipher_update cipher (cipher_start cipher) text inEnc outEnc)
    as [[out st]|e] eqn:E2; [|discriminate].
  cbn [fst snd] in H.
  destruct (cipher_final cipher st outEnc) as [fin|e] eqn:E3; [|discriminate].
  injection H as <-.
  exists mk, cipher, out, st, fin. rewrite !add_events_app. cbn [app].
  repeat split; assumption || reflexivity.
Qed.

Lemma nativeEncryptText_steps (key ivv text : JSString) (w w' : World) :
  nativeEncryptText key ivv text emit w = (Normal (Fulfilled tt), w') ->
  exists c out fin,
    nativeCrypto w = Some c /\
    cipher_outputs (createCipheriv c) (Buffer_from key base64)
                   (Buffer_from ivv base64) text utf8 base64 out fin /\
    w' = add_events w [Call "nativeCrypto.createCipheriv"; Call "cipher.update";
                       Emit out; Call "cipher.final"; Emit fin].
Proof.
  unfold nativeEncryptText, async. intros H.
  match type of H with
  | (let (_, _) := ?body w in _) = _ => destruct (body w) as [[[]|e] w1] eqn:E
  end; [|discriminate]. injection H as <-.
  unfold nativeCrypto_member, member in E. unfold bind at 1 in E.
  destruct (nativeCrypto w) as [c|] eqn:Hc; [|discriminate].
  unfold ret at 1 in E.
  destruct (createCipheriv c) as [mk|] eqn:Hmk; [|discriminate].
  cbn [falsy] in E. unfold bind at 1 in E. rewrite Hc in E.
  change (ret (createCipheriv c) w) with (Normal (createCipheriv c), w) in E.
  cbv beta iota in E.
  pose proof (native_cipher_steps (createCipheriv c)
                "nativeCrypto.createCipheriv" text (Buffer_from key base64)
                (Buffer_from ivv base64) utf8 base64 w w1) as Hst.
  unfold bind at 1 in Hst. unfold ret at 1 in Hst. cbv beta iota in Hst.
  destruct (Hst E) as (mk' & cipher & out & st & fin & E1 & E2 & E3 & E4 & E5).
  exists c, out, fin. repeat split; try assumption.
  exists mk', cipher, st. repeat split; assumption.
Qed.

Lemma nativeDecryptText_steps (key ivv text : JSString) (w w' : World) :
  nativeDecryptText key ivv text emit w = (Normal (Fulfilled tt), w') ->
  exists c out fin,
    nativeCrypto w = Some c /\
    cipher_outputs (createDecipheriv c) (Buffer_from key base64)
                   (Buffer_from ivv base64) text base64 utf8 out fin /\
    w' = add_events w [Call "nativeCrypto.createDecipheriv"; Call "cipher.update";
                       Emit out; Call "cipher.final"; Emit fin].
Proof.
  unfold nativeDecryptText, async. intros H.
  match type of H with
  | (let (_, _) := ?body w in _) = _ => destruct (body w) as [[[]|e] w1] eqn:E
  end; [|discriminate]. injection H as <-.
  unfold nativeCrypto_member, member in E. unfold bind at 1 in E.
  destruct (nativeCrypto w) as [c|] eqn:Hc; [|discriminate].
  unfold ret at 1 in E.
  destruct (createCipheriv c) as [mk|] eqn:Hmk; [|discriminate].
  cbn [falsy] in E. unfold bind at 1 in E. rewrite Hc in E.
  change (ret (createDecipheriv c) w) with (Normal (createDecipheriv c), w) in E.
  cbv beta iota in E.
  pose proof (native_cipher_steps (createDecipheriv c)
                "nativeCrypto.createDecipheriv" text (Buffer_from key base64)
                (Buffer_from ivv base64) base64 utf8 w w1) as Hst.
  unfold bind at 1 in Hst. unfold ret at 1 in Hst. cbv beta iota in Hst.
  destruct (Hst E) as (mk' & cipher & out & st & fin & E1 & E2 & E3 & E4 & E5).
  exists c, out, fin. repeat split; try assumption.
  exists mk', cipher, st. repeat split; assumption.
Qed.

Lemma browserDecryptText_steps (key ivv text : JSString) (w w' : World) :
  browserDecryptText key ivv text emit w = (Normal (Fulfilled tt), w') ->
  exists c plain,
    browserCrypto w = Some c /\
    subtle_decrypts c (Buffer_from key base64) (Buffer_from ivv base64)
                    (Buffer_from text base64) plain /\
    w' = add_events w [Call "browserCrypto.subtle.importKey";
                       Call "browserCrypto.subtle.decrypt";
                       Emit (TextDecoder_decode plain)].
Proof.
  unfold_module. intros H.
  destruct (browserCrypto w) as [c|] eqn:Hc; [|reduce_in H; discriminate].
  reduce_in H.
  destruct (subtle c) as [s|] eqn:Hs; [|reduce_in H; discriminate].
  destruct (importKey s) as [ik|] eqn:Hik; [|reduce_in H; discriminate].
  reduce_in H.
  destruct (ik "raw" (Buffer_from key base64) (Alg "AES-CBC") false ["decrypt"])
    as [k|e] eqn:Ek; [|reduce_in H; discriminate].
  reduce_in H.
  destruct (decrypt s) as [dk|] eqn:Hdk; [|reduce_in H; discriminate].
  reduce_in H.
  destruct (dk (AlgAesCbc "AES-CBC" (Buffer_from ivv base64)) k
               (Buffer_from text base64)) as [plain|e] eqn:Ep; [|reduce_in H; discriminate].
  reduce_in H. injection H as <-.
  exists c, plain. rewrite !add_events_app. cbn [app].
  repeat split; try assumption.
  exists s, ik, dk, k. repeat split; assumption.
Qed.

(** ** What a call does, from what the provider returns *)

(** Rewrite the goal of a run with the equations at hand. *)
Ltac reduce_goal :=
  repeat (cbv beta iota; simpl_world;
          try match goal with
              | E : _ = _ |- _ => rewrite E
              end).

Lemma nativeEncryptText_run (c : NativeCrypto) (key ivv text out fin : JSString)
      (w : World) :
  nativeCrypto w = Some c ->
  cipher_outputs (createCipheriv c) (Buffer_from key base64)
                 (Buffer_from ivv base64) text utf8 base64 out fin ->
  nativeEncryptText key ivv text emit w =
    (Normal (Fulfilled tt),
     add_events w [Call "nativeCrypto.createCipheriv"; Call "cipher.update";
                   Emit out; Call "cipher.final"; Emit fin]).
Proof.
  intros Hc (mk & cipher & st & E1 & E2 & E3 & E4).
  unfold_module. reduce_goal. rewrite !add_events_app. reflexivity.
Qed.

Lemma nativeDecryptText_run (c : NativeCrypto) (key ivv text out fin : JSString)
      (w : World) :
  nativeCrypto w = Some c ->
  createCipheriv c <> None ->
  cipher_outputs (createDecipheriv c) (Buffer_from key base64)
                 (Buffer_from ivv base64) text base64 utf8 out fin ->
  nativeDecryptText key ivv text emit w =
    (Normal (Fulfilled tt),
     add_events w [Call "nativeCrypto.createDecipheriv"; Call "cipher.update";
                   Emit out; Call "cipher.final"; Emit fin]).
Proof.
  intros Hc Hmk (mk & cipher & st & E1 & E2 & E3 & E4).
  destruct (createCipheriv c) as [mk'|] eqn:E0; [clear Hmk|contradiction].
  unfold_module. reduce_goal. rewrite !add_events_app. reflexivity.
Qed.

(** A decryption whose [final] throws: the sink has had the output of
    [update], the error of [final] rejects the call. *)
Lemma nativeDecryptText_final_throws (c : NativeCrypto)
      (mk : string -> Buffer -> Buffer -> Completion CipherObject)
      (cipher : CipherObject) (st : cipher_state cipher)
      (key ivv text out : JSString) (e : Exn) (w : World) :
  nativeCrypto w = Some c ->
  createCipheriv c <> None ->
  createDecipheriv c = Some mk ->
  mk "aes-256-cbc" (Buffer_from key base64) (Buffer_from ivv base64)
    = Normal cipher ->
  cipher_update cipher (cipher_start cipher) text base64 utf8 = Normal (out, st) ->
  cipher_final cipher st utf8 = Throw e ->
  nativeDecryptText key ivv text emit w =
    (Normal (Rejected e),
     add_events w [Call "nativeCrypto.createDecipheriv"; Call "cipher.update";
                   Emit out; Call "cipher.final"]).
Proof.
  intros Hc Hmk E1 E2 E3 E4.
  destruct (createCipheriv c) as [mk'|] eqn:E0; [clear Hmk|contradiction].
  unfold_module. reduce_goal. rewrite !add_events_app. reflexivity.
Qed.

(** A cipher object that could not be made: the error of the provider
    rejects the call, after the one call of the provider. *)
Lemma native_create_throws (c : NativeCrypto)
      (mk : string -> Buffer -> Buffer -> Completion CipherObject)
      (key ivv text : JSString) (e : Exn) (w : World) :
  nativeCrypto w = Some c ->
  mk "aes-256-cbc" (Buffer_from key base64) (Buffer_from ivv base64) = Throw e ->
  (createCipheriv c = Some mk ->
   nativeEncryptText key ivv text emit w =
     (Normal (Rejected e), add_events w [Call "nativeCrypto.createCipheriv"]))
  /\
  (createCipheriv c <> None -> createDecipheriv c = Some mk ->
   nativeDecryptText key ivv text emit w =
     (Normal (Rejected e), add_events w [Call "nativeCrypto.createDecipheriv"])).
Proof.
  intros Hc E. split.
  - intros E1. unfold_module. reduce_goal. reflexivity.
  - intros Hmk E1.
    destruct (createCipheriv c) as [mk'|] eqn:E0; [clear Hmk|contradiction].
    unfold_module. reduce_goal. reflexivity.
Qed.

Lemma browserDecryptText_run (c : Crypto) (key ivv text : JSString)
      (plain : Buffer) (w : World) :
  browserCrypto w = Some c ->
  subtle_decrypts c (Buffer_from key base64) (Buffer_from ivv base64)
                  (Buffer_from text base64) plain ->
  browserDecryptText key ivv text emit w =
    (Normal (Fulfilled tt),
     add_events w [Call "browserCrypto.subtle.importKey";
                   Call "browserCrypto.subtle.decrypt";
                   Emit (TextDecoder_decode plain)]).
Proof.
  intros Hc (s & ik & dk & k & E1 & E2 & E3 & E4 & E5).
  unfold_module. reduce_goal. rewrite !add_events_app. reflexivity.
Qed.

(** A browser decryption whose [importKey] or [decrypt] promise is
    rejected: the call is rejected alike and the sink is not invoked. *)
Lemma browserDecryptText_rejected (c : Crypto) (s : SubtleCrypto)
      (ik : string -> Buffer -> Algorithm -> bool -> list string -> Promise CryptoKey)
      (key ivv text : JSString) (e : Exn) (w : World) :
  browserCrypto w = Some c -> subtle c = Some s -> importKey s = Some ik ->
  (ik "raw" (Buffer_from key base64) (Alg "AES-CBC") false ["decrypt"]
     = Rejected e ->
   browserDecryptText key ivv text emit w =
     (Normal (Rejected e),
      add_events w [Call "browserCrypto.subtle.importKey"]))
  /\
  (forall dk k,
     ik "raw" (Buffer_from key base64) (Alg "AES-CBC") false ["decrypt"]
       = Fulfilled k ->
     decrypt s = Some dk ->
     dk (AlgAesCbc "AES-CBC" (Buffer_from ivv base64)) k
        (Buffer_from text base64) = Rejected e ->
     browserDecryptText key ivv text emit w =
       (Normal (Rejected e),
        add_events w [Call "browserCrypto.subtle.importKey";
                      Call "browserCrypto.subtle.decrypt"])).
Proof.
  intros Hc Hs Hik. split.
  - intros E. unfold_module. reduce_goal. reflexivity.
  - intros dk k E1 E2 E3. unfold_module. reduce_goal.
    rewrite !add_events_app. reflexivity.
Qed.

(** ** The sink, whichever it is *)

(** The calls of a native encryption whose provider calls succeed, for
    any sink. *)
Lemma nativeEncryptText_calls (c : NativeCrypto) (key ivv text out fin : JSString)
      (event : JSString -> M unit) (w : World) :
  nativeCrypto w = Some c ->
  cipher_outputs (createCipheriv c) (Buffer_from key base64)
                 (Buffer_from ivv base64) text utf8 base64 out fin ->
  nativeEncryptText key ivv text event w =
    async (event out ;;; log (Call "cipher.final") ;;; event fin ;;; ret tt)
          (add_events w [Call "nativeCrypto.createCipheriv";
                         Call "cipher.update"]).
Proof.
  intros Hc (mk & cipher & st & E1 & E2 & E3 & E4).
  unfold_module. reduce_goal. rewrite !add_events_app. cbn [app].
  destruct (event out _) as [[[]|e] w1]; [|reflexivity].
  reduce_goal. reflexivity.
Qed.

Lemma nativeDecryptText_calls (c : NativeCrypto) (key ivv text out fin : JSString)
      (event : JSString -> M unit) (w : World) :
  nativeCrypto w = Some c ->
  createCipheriv c <> None ->
  cipher_outputs (createDecipheriv c) (Buffer_from key base64)
                 (Buffer_from ivv base64) text base64 utf8 out fin ->
  nativeDecryptText key ivv text event w =
    async (event out ;;; log (Call "cipher.final") ;;; event fin ;;; ret tt)
          (add_events w [Call "nativeCrypto.createDecipheriv";
                         Call "cipher.update"]).
Proof.
  intros Hc Hmk (mk & cipher & st & E1 & E2 & E3 & E4).
  destruct (createCipheriv c) as [mk'|] eqn:E0; [clear Hmk|contradiction].
  unfold_module. reduce_goal. rewrite !add_events_app. cbn [app].
  destruct (event out _) as [[[]|e] w1]; [|reflexivity].
  reduce_goal. reflexivity.
Qed.

Lemma browserDecryptText_calls (c : Crypto) (key ivv text : JSString)
      (plain : Buffer) (event : JSString -> M unit) (w : World) :
  browserCrypto w = Some c ->
  subtle_decrypts c (Buffer_from key base64) (Buffer_from ivv base64)
                  (Buffer_from text base64) plain ->
  browserDecryptText key ivv text event w =
    async (event (TextDecoder_decode plain) ;;; ret tt)
          (add_events w [Call "browserCrypto.subtle.importKey";
                         Call "browserCrypto.subtle.decrypt"]).
Proof.
  intros Hc (s & ik & dk & k & E1 & E2 & E3 & E4 & E5).
  unfold_module. reduce_goal. rewrite !add_events_app. reflexivity.
Qed.

(** X18. The sink is called by the module itself, in this order and not
    otherwise, whichever callback it is. A native encryption or
    decryption whose provider calls succeed calls it with what [update]
    returned for the whole input, then calls [final], then calls it
    with what [final] returned, and is fulfilled when both calls
    return. A browser decryption whose provider calls succeed calls it
    once, with the text that [TextDecoder] makes of the decrypted bytes.
    Conversely, a fulfilled call with the sink that records its chunks
    has recorded exactly these chunks, between the calls of the
    provider. *)
Theorem sink_invocations (key ivv text : JSString)
        (event : JSString -> M unit) (w : World) :
  (forall c out fin,
     nativeCrypto w = Some c ->
     cipher_outputs (createCipheriv c) (Buffer_from key base64)
                    (Buffer_from ivv base64) text utf8 base64 out fin ->
     nativeEncryptText key ivv text event w =
       async (event out ;;; log (Call "cipher.final") ;;; event fin ;;; ret tt)
             (add_events w [Call "nativeCrypto.createCipheriv";
                            Call "cipher.update"]))
  /\
  (forall c out fin,
     nativeCrypto w = Some c -> createCipheriv c <> None ->
     cipher_outputs (createDecipheriv c) (Buffer_from key base64)
                    (Buffer_from ivv base64) text base64 utf8 out fin ->
     nativeDecryptText key ivv text event w =
       async (event out ;;; log (Call "cipher.final") ;;; event fin ;;; ret tt)
             (add_events w [Call "nativeCrypto.createDecipheriv";
                            Call "cipher.update"]))
  /\
  (forall c plain,
     browserCrypto w = Some c ->
     subtle_decrypts c (Buffer_from key base64) (Buffer_from ivv base64)
                     (Buffer_from text base64) plain ->
     browserDecryptText key ivv text event w =
       async (event (TextDecoder_decode plain) ;;; ret tt)
             (add_events w [Call "browserCrypto.subtle.importKey";
                            Call "browserCrypto.subtle.decrypt"]))
  /\
  (forall w',
   nativeEncryptText key ivv text emit w = (Normal (Fulfilled tt), w') ->
   exists c out fin,
     nativeCrypto w = Some c /\
     cipher_outputs (createCipheriv c) (Buffer_from key base64)
                    (Buffer_from ivv base64) text utf8 base64 out fin /\
     events_of (nativeEncryptText key ivv text emit) w =
       [Call "nativeCrypto.createCipheriv"; Call "cipher.update"; Emit out;
        Call "cipher.final"; Emit fin])
  /\
  (forall w',
   nativeDecryptText key ivv text emit w = (Normal (Fulfilled tt), w') ->
   exists c out fin,
     nativeCrypto w = Some c /\
     cipher_outputs (createDecipheriv c) (Buffer_from key base64)
                    (Buffer_from ivv base64) text base64 utf8 out fin /\
     events_of (nativeDecryptText key ivv text emit) w =
       [Call "nativeCrypto.createDecipheriv"; Call "cipher.update"; Emit out;
        Call "cipher.final"; Emit fin])
  /\
  (forall w',
   browserDecryptText key ivv text emit w = (Normal (Fulfilled tt), w') ->
   exists c plain,
     browserCrypto w = Some c /\
     subtle_decrypts c (Buffer_from key base64) (Buffer_from ivv base64)
                     (Buffer_from text base64) plain /\
     events_of (browserDecryptText key ivv text emit) w =
       [Call "browserCrypto.subtle.importKey";
        Call "browserCrypto.subtle.decrypt"; Emit (TextDecoder_decode plain)]).
Proof.
  split; [|split; [|split; [|split; [|split]]]].
  - intros c out fin. apply nativeEncryptText_calls.
  - intros c out fin. apply nativeDecryptText_calls.
  - intros c plain. apply browserDecryptText_calls.
  - intros w' H.
    destruct (nativeEncryptText_steps _ _ _ _ _ H) as (c & out & fin & H1 & H2 & ->).
    exists c, out, fin. repeat split; try assumption.
    exact (events_of_add _ _ _ _ H).
  - intros w' H.
    destruct (nativeDecryptText_steps _ _ _ _ _ H) as (c & out & fin & H1 & H2 & ->).
    exists c, out, fin. repeat split; try assumption.
    exact (events_of_add _ _ _ _ H).
  - intros w' H.
    destruct (browserDecryptText_steps _ _ _ _ _ H) as (c & plain & H1 & H2 & ->).
    exists c, plain. repeat split; try assumption.
    exact (events_of_add _ _ _ _ H).
Qed.

(** * The cipher objects of Node *)

Section CipherObjects.

Variable block_encrypt block_decrypt : Buffer -> Buffer -> Buffer.

Lemma node_create_ok (make : Buffer -> Buffer -> CipherObject) (key iv : Buffer) :
  List.length key = 32%nat -> List.length iv = 16%nat ->
  node_create make "aes-256-cbc" key iv = Normal (make key iv).
Proof.
  intros Hk Hi. unfold node_create. rewrite Hk, Hi. reflexivity.
Qed.

(** A key that is not 32 bytes or an IV that is not 16 bytes is refused
    when the cipher object is made. *)
Lemma node_create_refuses (make : Buffer -> Buffer -> CipherObject)
      (key iv : Buffer) :
  List.length key <> 32%nat \/ List.length iv <> 16%nat ->
  exists msg, node_create make "aes-256-cbc" key iv = Throw (ProviderError msg).
Proof.
  intros H. unfold node_create. cbn [String.eqb Ascii.eqb Bool.eqb negb].
  destruct (Nat.eqb_spec (List.length iv) 16);
    cbn [negb]; [|eauto].
  destruct (Nat.eqb_spec (List.length key) 32);
    cbn [negb]; [|eauto].
  destruct H; contradiction.
Qed.

(** [update] over the whole text and [final] of a cipher object return,
    together, the base64 text of the ciphertext. *)
Lemma node_cipher_outputs (key iv : Buffer) (text : JSString) :
  exists out st fin,
    cipher_update (node_cipher block_encrypt key iv)
                  (cipher_start (node_cipher block_encrypt key iv))
                  text utf8 base64 = Normal (out, st) /\
    cipher_final (node_cipher block_encrypt key iv) st base64 = Normal fin /\
    out ++ fin =
      base64_encode (cbc_pkcs7_encrypt block_encrypt key iv (utf8_encode text)).
Proof.
  cbn [node_cipher cipher_update cipher_start cipher_final cipher_state].
  unfold node_update, node_final.
  cbn [ncs_evp ncs_decoder getDecoder decode_input].
  unfold evp_encrypt_update, evp_encrypt_final, cbc_pkcs7_encrypt.
  cbn [evp_init evp_key evp_chain evp_buf app].
  rewrite cbc_encrypt_app.
  destruct (cbc_encrypt block_encrypt key iv (full_blocks (utf8_encode text)))
    as [cs chain].
  cbn [cbc_encrypt fst].
  pose proof (base64_stream (List.concat cs)
                (block_encrypt key
                   (xor_block (pkcs7_pad (leftover (utf8_encode text))) chain)))
    as Hst.
  destruct (decoder_write (newStringDecoder base64) (List.concat cs))
    as [t1 d] eqn:Ed.
  assert (Hd : exists p, d = Base64Decoder p).
  { cbn [newStringDecoder decoder_write] in Ed. injection Ed as _ <-. eauto. }
  destruct Hd as [p ->].
  eexists _, _, _. split; [reflexivity|].
  cbn [ncs_evp ncs_decoder getDecoder decoder_encoding evp_key evp_chain evp_buf].
  split; [reflexivity|].
  rewrite Hst, concat_app. cbn [List.concat]. now rewrite app_nil_r.
Qed.

End CipherObjects.

Lemma concat_blocks_length (bs : list Buffer) :
  Forall (fun b => List.length b = block_size) bs ->
  List.length (List.concat bs) = (block_size * List.length bs)%nat.
Proof.
  induction 1 as [|b bs Hb _ IH]; cbn [List.concat List.length].
  - lia.
  - rewrite length_app, IH, Hb. lia.
Qed.

Section Decipher.

Variable block_encrypt block_decrypt : Buffer -> Buffer -> Buffer.

Hypothesis encrypt_length : forall key b,
  List.length key = 32%nat -> List.length b = block_size ->
  List.length (block_encrypt key b) = block_size.

Hypothesis decrypt_encrypt : forall key b,
  List.length key = 32%nat -> List.length b = block_size ->
  block_decrypt key (block_encrypt key b) = b.

(** What the concatenated plaintext blocks of a ciphertext split into. *)
Lemma padded_plaintext_split (data : Buffer) :
  let plain := List.concat (full_blocks data ++ [pkcs7_pad (leftover data)]) in
  firstn (List.length plain - block_size) plain = List.concat (full_blocks data)
  /\ skipn (List.length plain - block_size) plain = pkcs7_pad (leftover data).
Proof.
  destruct (full_blocks_spec data) as (Hfb & Hlo & _).
  cbn zeta. rewrite concat_app. cbn [List.concat]. rewrite app_nil_r.
  rewrite length_app, pkcs7_pad_length by exact Hlo.
  replace (List.length (List.concat (full_blocks data)) + block_size - block_size)%nat
    with (List.length (List.concat (full_blocks data))) by lia.
  rewrite firstn_app, firstn_all, Nat.sub_diag, firstn_O, app_nil_r.
  rewrite skipn_app, skipn_all, Nat.sub_diag. now split.
Qed.

(** [EVP_DecryptUpdate] over a whole ciphertext puts out the complete
    blocks of the plaintext and holds the padded rest back. *)
Lemma evp_decrypt_ciphertext (key iv data : Buffer) :
  List.length key = 32%nat -> List.length iv = 16%nat ->
  exists st,
    evp_decrypt_update block_decrypt (evp_init key iv)
      (cbc_pkcs7_encrypt block_encrypt key iv data)
    = (List.concat (full_blocks data), st) /\
    evp_buf st = [] /\ evp_held st = pkcs7_pad (leftover data).
Proof.
  intros Hk Hi.
  destruct (ciphertext_blocks block_encrypt block_decrypt key
              (fun b => encrypt_length key b Hk) (fun b => decrypt_encrypt key b Hk) iv data Hi)
    as (E1 & E2 & E3 & E4 & E5).
  rewrite E1. unfold evp_decrypt_update.
  set (cs := fst (cbc_encrypt block_encrypt key iv
                    (full_blocks data ++ [pkcs7_pad (leftover data)]))) in *.
  destruct (List.concat cs) as [|x l] eqn:Ec; [contradiction|].
  rewrite <- Ec in E2, E3 |- *.
  cbn [evp_init evp_buf evp_key evp_chain evp_held app].
  rewrite E2, E3.
  destruct (cbc_decrypt block_decrypt key iv cs) as [ps chain].
  cbn [fst] in E4. subst ps.
  destruct (padded_plaintext_split data) as [S1 S2].
  rewrite S1, S2. eexists. split; [reflexivity|]. now split.
Qed.

Lemma pkcs7_pad_cons (buf : Buffer) :
  (List.length buf < block_size)%nat ->
  exists x l, pkcs7_pad buf = x :: l.
Proof.
  intros H. pose proof (pkcs7_pad_length buf H) as L.
  destruct (pkcs7_pad buf) as [|x l]; [discriminate|eauto].
Qed.

(** [update] over the base64 text of a ciphertext and [final] of a
    decipher object return, together, the text of the plaintext. *)
Lemma node_decipher_outputs (key iv data : Buffer) (text : JSString) :
  List.length key = 32%nat -> List.length iv = 16%nat ->
  base64_decode text = cbc_pkcs7_encrypt block_encrypt key iv data ->
  exists out st fin,
    cipher_update (node_decipher block_decrypt key iv)
                  (cipher_start (node_decipher block_decrypt key iv))
                  text base64 utf8 = Normal (out, st) /\
    cipher_final (node_decipher block_decrypt key iv) st utf8 = Normal fin /\
    out ++ fin = utf8_decode data.
Proof.
  intros Hk Hi Ht.
  destruct (evp_decrypt_ciphertext key iv data Hk Hi) as (st & E & Eb & Eh).
  destruct (full_blocks_spec data) as (_ & Hlo & Hd).
  cbn [node_decipher cipher_update cipher_start cipher_final cipher_state].
  unfold node_update, node_final.
  cbn [ncs_evp ncs_decoder getDecoder decode_input]. rewrite Ht, E.
  pose proof (utf8_stream (List.concat (full_blocks data)) (leftover data)) as Hst.
  destruct (utf8_write_first (List.concat (full_blocks data)))
    as [_ (bf & ms & Hd')].
  destruct (decoder_write (newStringDecoder utf8) (List.concat (full_blocks data)))
    as [t1 d]. cbn [snd] in Hd'. subst d.
  eexists _, _, _. split; [reflexivity|].
  cbn [ncs_evp ncs_decoder getDecoder decoder_encoding].
  unfold evp_decrypt_final. rewrite Eb, Eh.
  destruct (pkcs7_pad_cons _ Hlo) as (x & l & Ep). rewrite Ep, <- Ep.
  rewrite pkcs7_unpad_pad by exact Hlo.
  split; [reflexivity|]. now rewrite Hst, Hd.
Qed.

(** The Web Cryptography API decrypts a ciphertext to its plaintext. *)
Lemma cbc_decrypt_unpad_ciphertext (key iv data : Buffer) :
  List.length key = 32%nat -> List.length iv = 16%nat ->
  cbc_decrypt_unpad block_decrypt key iv
    (cbc_pkcs7_encrypt block_encrypt key iv data) = Some data.
Proof.
  intros Hk Hi.
  destruct (ciphertext_blocks block_encrypt block_decrypt key
              (fun b => encrypt_length key b Hk) (fun b => decrypt_encrypt key b Hk) iv data Hi)
    as (E1 & E2 & E3 & E4 & E5).
  destruct (full_blocks_spec data) as (Hfb & Hlo & Hd).
  rewrite E1. unfold cbc_decrypt_unpad.
  set (cs := fst (cbc_encrypt block_encrypt key iv
                    (full_blocks data ++ [pkcs7_pad (leftover data)]))) in *.
  assert (Hcs : Forall (fun b => List.length b = block_size) cs).
  { rewrite <- E2. apply full_blocks_spec. }
  rewrite (concat_blocks_length cs Hcs).
  assert (Hn : List.length cs <> 0%nat).
  { intros Z. apply E5. destruct cs; [reflexivity|discriminate]. }
  destruct (Nat.eqb_spec (block_size * List.length cs) 0);
    [unfold block_size in *; lia|].
  rewrite Nat.mul_comm, Nat.Div0.mod_mul. cbn [Nat.eqb negb orb].
  rewrite E2, E4.
  destruct (padded_plaintext_split data) as [S1 S2]. cbn zeta in S1, S2.
  rewrite S1, S2, pkcs7_unpad_pad by exact Hlo.
  now rewrite Hd.
Qed.

End Decipher.

(** * A ciphertext whose padding is invalid *)

Lemma aligned_blocks (data : Buffer) :
  (List.length data mod block_size = 0)%nat ->
  leftover data = [] /\ List.concat (full_blocks data) = data.
Proof.
  intros H. destruct (full_blocks_spec data) as (Hfb & Hlo & Hd).
  assert (L : List.length (leftover data) = 0%nat).
  { apply (f_equal (@List.length byte)) in Hd.
    rewrite length_app, (concat_blocks_length _ Hfb) in Hd.
    rewrite <- Hd, Nat.add_comm, Nat.mul_comm, Nat.Div0.mod_add in H.
    rewrite Nat.mod_small in H by exact Hlo. exact H. }
  destruct (leftover data); [|discriminate].
  split; [reflexivity|]. now rewrite app_nil_r in Hd.
Qed.

Lemma concat_removelast_last (bs : list Buffer) :
  bs <> [] ->
  List.concat bs = List.concat (removelast bs) ++ last bs [].
Proof.
  intros H. rewrite (app_removelast_last [] H) at 1.
  rewrite concat_app. cbn [List.concat]. now rewrite app_nil_r.
Qed.

Section Padding.

Variable block_decrypt : Buffer -> Buffer -> Buffer.
Variable key : Buffer.

Hypothesis decrypt_length : forall b,
  List.length b = block_size ->
  List.length (block_decrypt key b) = block_size.

Lemma cbc_decrypt_length (chain : Buffer) (cs : list Buffer) :
  List.length chain = block_size ->
  Forall (fun b => List.length b = block_size) cs ->
  Forall (fun b => List.length b = block_size)
         (fst (cbc_decrypt block_decrypt key chain cs))
  /\ List.length (fst (cbc_decrypt block_decrypt key chain cs)) = List.length cs.
Proof.
  intros Hc H. revert chain Hc.
  induction H as [|c cs Hb _ IH]; intros chain Hc; cbn [cbc_decrypt].
  - split; [constructor|reflexivity].
  - specialize (IH c Hb).
    destruct (cbc_decrypt block_decrypt key c cs) as [ps chain'].
    cbn [fst List.length] in *. destruct IH as [IH1 IH2].
    split; [|now rewrite IH2].
    constructor; [|exact IH1].
    rewrite xor_block_length; rewrite decrypt_length; congruence.
Qed.

(** The plaintext blocks of block-aligned data: there is a last one, of
    16 bytes, and the bytes before it are those of the other blocks. *)
Lemma plain_blocks_split (iv data : Buffer) :
  List.length iv = 16%nat -> data <> [] ->
  (List.length data mod block_size = 0)%nat ->
  let ps := cbc_plain_blocks block_decrypt key iv data in
  let plain := List.concat ps in
  List.length (last ps []) = block_size /\
  firstn (List.length plain - block_size) plain = List.concat (removelast ps) /\
  skipn (List.length plain - block_size) plain = last ps [].
Proof.
  intros Hi Hne Hal ps plain.
  destruct (full_blocks_spec data) as (Hfb & _ & _).
  destruct (aligned_blocks data Hal) as [_ Hcat].
  destruct (cbc_decrypt_length iv (full_blocks data) Hi Hfb) as [Hps Hlen].
  fold (cbc_plain_blocks block_decrypt key iv data) in Hps, Hlen. fold ps in Hps, Hlen.
  assert (Hps' : ps <> []).
  { intros E. rewrite E in Hlen. cbn [List.length] in Hlen.
    symmetry in Hlen. apply length_zero_iff_nil in Hlen.
    apply Hne. now rewrite <- Hcat, Hlen. }
  assert (Hlast : List.length (last ps []) = block_size).
  { rewrite Forall_forall in Hps. apply Hps.
    rewrite (app_removelast_last [] Hps') at 2.
    apply in_or_app. right. now left. }
  split; [exact Hlast|]. subst plain.
  rewrite (concat_removelast_last ps Hps').
  rewrite length_app, Hlast.
  replace (List.length (List.concat (removelast ps)) + block_size - block_size)%nat
    with (List.length (List.concat (removelast ps))) by lia.
  rewrite firstn_app, firstn_all, Nat.sub_diag, firstn_O, app_nil_r.
  rewrite skipn_app, skipn_all, Nat.sub_diag. now split.
Qed.

(** [EVP_DecryptUpdate] over block-aligned data puts out all plaintext
    blocks but the last, which it holds back for [EVP_DecryptFinal_ex]. *)
Lemma evp_decrypt_aligned (iv data : Buffer) :
  List.length iv = 16%nat -> data <> [] ->
  (List.length data mod block_size = 0)%nat ->
  exists st,
    evp_decrypt_update block_decrypt (evp_init key iv) data
    = (List.concat (removelast (cbc_plain_blocks block_decrypt key iv data)), st)
    /\ evp_buf st = []
    /\ evp_held st = last (cbc_plain_blocks block_decrypt key iv data) []
    /\ List.length (evp_held st) = block_size.
Proof.
  intros Hi Hne Hal.
  destruct (plain_blocks_split iv data Hi Hne Hal) as (L & S1 & S2).
  destruct (aligned_blocks data Hal) as [Hlo _].
  unfold evp_decrypt_update.
  destruct data as [|x l] eqn:Ed; [contradiction|]. rewrite <- Ed in *.
  cbn [evp_init evp_buf evp_key evp_chain evp_held app].
  rewrite Hlo. unfold cbc_plain_blocks in *.
  destruct (cbc_decrypt block_decrypt key iv (full_blocks data)) as [ps chain].
  cbn [fst] in *. rewrite S1, S2.
  eexists. split; [reflexivity|]. cbn [evp_buf evp_held]. auto.
Qed.

Lemma evp_decrypt_final_invalid (st : EvpState) :
  evp_buf st = [] -> List.length (evp_held st) = block_size ->
  pkcs7_unpad (evp_held st) = None ->
  evp_decrypt_final st = Throw (ProviderError "bad decrypt").
Proof.
  destruct st as [k c b h]. cbn [evp_buf evp_held]. intros -> L H.
  unfold evp_decrypt_final. cbn [evp_buf evp_held].
  destruct h as [|x l]; [discriminate L|]. now rewrite H.
Qed.

(** The Web Cryptography API refuses data whose padding is invalid. *)
Lemma cbc_decrypt_unpad_invalid (iv data : Buffer) :
  List.length iv = 16%nat ->
  padding_invalid block_decrypt key iv data ->
  cbc_decrypt_unpad block_decrypt key iv data = None.
Proof.
  intros Hi (Hne & Hal & Hpad).
  destruct (plain_blocks_split iv data Hi Hne Hal) as (L & S1 & S2).
  unfold cbc_decrypt_unpad. rewrite Hal.
  destruct (Nat.eqb_spec (List.length data) 0) as [Z|_].
  - destruct data; [contradiction|discriminate].
  - cbn [Nat.eqb negb orb]. unfold cbc_plain_blocks in *.
    now rewrite S2, Hpad.
Qed.

End Padding.

(** * The module over Node's [crypto] and the Web Cryptography API *)

(** Run the goal through the two providers. *)
Ltac run_providers :=
  repeat (progress
            (reduce_goal; try unfold nodeCrypto; try unfold webCrypto;
             cbn [subtle_importKey subtle_deriveBits node_pbkdf2Sync
                  subset forallb existsb
                  String.eqb Ascii.eqb Bool.eqb negb orb andb
                  key_algorithm key_data key_usages key_extractable
                  N.eqb N.mul Pos.mul])).

Section Providers.

Variable block_encrypt block_decrypt : Buffer -> Buffer -> Buffer.
Variable pbkdf2_sha256 : Buffer -> Buffer -> N -> N -> Buffer.
Variable random_source : N -> byte.

Local Abbreviation node' :=
  (nodeCrypto block_encrypt block_decrypt pbkdf2_sha256 random_source).
Local Abbreviation web' := (webCrypto block_decrypt pbkdf2_sha256).

(** The key both modules derive. *)
Local Abbreviation derived_key password salt :=
  (base64_encode
     (pbkdf2_sha256 (utf8_encode password) (base64_decode salt) 100000 32)).

Lemma nativeGenerateKey_node (password salt : JSString) (w : World) :
  nativeCrypto w = Some node' ->
  nativeGenerateKey password salt w =
    (Normal (Fulfilled (derived_key password salt)),
     add_events w [Call "nativeCrypto.pbkdf2Sync"]).
Proof.
  intros H. unfold_module. run_providers. reflexivity.
Qed.

Lemma browserGenerateKey_web (password salt : JSString) (w : World) :
  browserCrypto w = Some web' ->
  browserGenerateKey password salt w =
    (Normal (Fulfilled (derived_key password salt)),
     add_events w [Call "browserCrypto.subtle.importKey";
                   Call "browserCrypto.subtle.deriveBits"]).
Proof.
  intros H. unfold_module. run_providers.
  rewrite !add_events_app. reflexivity.
Qed.

(** C4. In both modules the derived key is the base64 text of PBKDF2 with
    HMAC-SHA-256 over the UTF-8 bytes of the password and the decoded
    bytes of the salt, with 100000 iterations and 32 bytes of output: a
    function of the password and of the salt alone, whatever the state of
    the world. *)
Theorem key_derivation_is_pbkdf2 (password salt : JSString) (w : World) :
  nativeCrypto w = Some node' -> browserCrypto w = Some web' ->
  fst (nativeGenerateKey password salt w) =
    Normal (Fulfilled
      (base64_encode
         (pbkdf2_sha256 (utf8_encode password) (base64_decode salt)
                      100000 32)))
  /\
  fst (browserGenerateKey password salt w) =
    Normal (Fulfilled
      (base64_encode
         (pbkdf2_sha256 (utf8_encode password) (base64_decode salt)
                      100000 32))).
Proof.
  intros Hn Hb.
  rewrite nativeGenerateKey_node, browserGenerateKey_web by assumption.
  split; reflexivity.
Qed.

(** ** Encryption and decryption *)

Lemma node_encrypts (K IV P : JSString) :
  List.length (base64_decode K) = 32%nat ->
  List.length (base64_decode IV) = 16%nat ->
  exists out fin,
    cipher_outputs (createCipheriv node') (Buffer_from K base64)
                   (Buffer_from IV base64) P utf8 base64 out fin /\
    out ++ fin =
      base64_encode (cbc_pkcs7_encrypt block_encrypt (base64_decode K)
                                       (base64_decode IV) (utf8_encode P)).
Proof.
  intros Hk Hs.
  destruct (node_cipher_outputs block_encrypt (base64_decode K)
              (base64_decode IV) P) as (out & st & fin & E1 & E2 & E3).
  exists out, fin. split; [|exact E3].
  eexists _, _, st. split; [reflexivity|].
  cbn [Buffer_from decode_input].
  rewrite node_create_ok by assumption. auto.
Qed.

(** Over Node, an encryption with a 32-byte key and a 16-byte IV hands
    the sink the base64 text of the ciphertext. *)
Lemma nativeEncryptText_node (K IV P : JSString) (w : World) :
  nativeCrypto w = Some node' ->
  List.length (base64_decode K) = 32%nat ->
  List.length (base64_decode IV) = 16%nat ->
  sink_output (nativeEncryptText K IV P) w =
    Some (base64_encode
            (cbc_pkcs7_encrypt block_encrypt (base64_decode K)
                               (base64_decode IV) (utf8_encode P))).
Proof.
  intros Hw Hk Hs.
  destruct (node_encrypts K IV P Hk Hs) as (out & fin & Ho & E).
  rewrite (sink_output_add _ _ _ (nativeEncryptText_run _ _ _ _ _ _ _ Hw Ho)).
  cbn [emitted List.concat]. now rewrite app_nil_r, E.
Qed.

Hypothesis encrypt_length : forall key b,
  List.length key = 32%nat -> List.length b = block_size ->
  List.length (block_encrypt key b) = block_size.

Hypothesis decrypt_encrypt : forall key b,
  List.length key = 32%nat -> List.length b = block_size ->
  block_decrypt key (block_encrypt key b) = b.

(** Over Node, the decryption of the base64 text of a ciphertext hands
    the sink the text of the plaintext. *)
Lemma nativeDecryptText_node (K IV C : JSString) (data : Buffer) (w : World) :
  nativeCrypto w = Some node' ->
  List.length (base64_decode K) = 32%nat ->
  List.length (base64_decode IV) = 16%nat ->
  base64_decode C =
    cbc_pkcs7_encrypt block_encrypt (base64_decode K) (base64_decode IV) data ->
  sink_output (nativeDecryptText K IV C) w = Some (utf8_decode data).
Proof.
  intros Hw Hk Hs Hc.
  destruct (node_decipher_outputs block_encrypt block_decrypt encrypt_length
              decrypt_encrypt (base64_decode K) (base64_decode IV) data C
              Hk Hs Hc) as (out & st & fin & E1 & E2 & E3).
  assert (Ho : cipher_outputs (createDecipheriv node') (Buffer_from K base64)
                 (Buffer_from IV base64) C base64 utf8 out fin).
  { eexists _, _, st. split; [reflexivity|].
    cbn [Buffer_from decode_input].
    rewrite node_create_ok by assumption. auto. }
  assert (Hmk : createCipheriv node' <> None) by discriminate.
  rewrite (sink_output_add _ _ _
             (nativeDecryptText_run _ _ _ _ _ _ _ Hw Hmk Ho)).
  cbn [emitted List.concat]. now rewrite app_nil_r, E3.
Qed.

(** In the browser, it hands the sink what [TextDecoder] makes of the
    plaintext. *)
Lemma browserDecryptText_web (K IV C : JSString) (data : Buffer) (w : World) :
  browserCrypto w = Some web' ->
  List.length (base64_decode K) = 32%nat ->
  List.length (base64_decode IV) = 16%nat ->
  base64_decode C =
    cbc_pkcs7_encrypt block_encrypt (base64_decode K) (base64_decode IV) data ->
  sink_output (browserDecryptText K IV C) w = Some (TextDecoder_decode data).
Proof.
  intros Hw Hk Hs Hc.
  assert (Ho : subtle_decrypts web' (Buffer_from K base64) (Buffer_from IV base64)
                 (Buffer_from C base64) data).
  { eexists _, _, _, _. split; [reflexivity|].
    split; [reflexivity|]. split; [reflexivity|].
    cbn [Buffer_from decode_input]. unfold subtle_importKey, subtle_decrypt.
    rewrite Hk, Hs, Hc.
    cbn [String.eqb Ascii.eqb Bool.eqb negb orb andb subset forallb existsb
         Nat.eqb key_algorithm key_usages key_data].
    split; [reflexivity|].
    cbn [String.eqb Ascii.eqb Bool.eqb negb orb andb subset forallb existsb
         Nat.eqb key_algorithm key_usages key_data].
    now rewrite (cbc_decrypt_unpad_ciphertext block_encrypt block_decrypt
                   encrypt_length decrypt_encrypt). }
  rewrite (sink_output_add _ _ _ (browserDecryptText_run _ _ _ _ _ _ Hw Ho)).
  cbn [emitted List.concat]. now rewrite app_nil_r.
Qed.

(** The sink of a native decryption receives the plaintext of a native
    encryption with its unpaired surrogates replaced by U+FFFD. *)
Lemma native_roundtrip_toWellFormed (K IV P : JSString) (w1 w2 : World) :
  nativeCrypto w1 = Some node' -> nativeCrypto w2 = Some node' ->
  List.length (base64_decode K) = 32%nat ->
  List.length (base64_decode IV) = 16%nat ->
  is_string P ->
  exists C,
    sink_output (nativeEncryptText K IV P) w1 = Some C /\
    sink_output (nativeDecryptText K IV C) w2 = Some (toWellFormed P).
Proof.
  intros H1 H2 Hk Hs HP. eexists. split.
  - now apply nativeEncryptText_node.
  - rewrite (nativeDecryptText_node _ _ _ (utf8_encode P)); try assumption.
    + now rewrite utf8_decode_encode.
    + apply base64_decode_encode.
Qed.

(** C1 (amended). For a key that decodes to 32 bytes, a salt that decodes
    to 16 bytes and a plaintext that is a well-formed string (no unpaired
    surrogate), native encryption is fulfilled, and native decryption of
    the chunks it emitted, concatenated, is fulfilled and emits chunks
    whose concatenation is the plaintext. *)
Theorem native_roundtrip (K IV P : JSString) (w1 w2 : World) :
  nativeCrypto w1 = Some node' -> nativeCrypto w2 = Some node' ->
  List.length (base64_decode K) = 32%nat ->
  List.length (base64_decode IV) = 16%nat ->
  is_string P -> well_formed P = true ->
  exists C,
    sink_output (nativeEncryptText K IV P) w1 = Some C /\
    sink_output (nativeDecryptText K IV C) w2 = Some P.
Proof.
  intros H1 H2 Hk Hs HP Hwf.
  destruct (native_roundtrip_toWellFormed K IV P w1 w2) as (C & E1 & E2);
    try assumption.
  exists C. split; [exact E1|]. now rewrite E2, toWellFormed_id.
Qed.

Lemma TextDecoder_decode_encode (P : JSString) :
  is_string P -> well_formed P = true -> starts_with_bom P = false ->
  TextDecoder_decode (utf8_encode P) = P.
Proof.
  intros HP Hwf Hb. unfold TextDecoder_decode.
  rewrite utf8_decode_encode, toWellFormed_id by assumption.
  now rewrite Hb.
Qed.

Hypothesis pbkdf2_length : forall password salt iterations keylen,
  List.length (pbkdf2_sha256 password salt iterations keylen)
  = N.to_nat keylen.

(** X19. Where the two modules agree. For every password and salt the
    browser module and the native module derive the same key; and when
    the salt
    decodes to 16 bytes and the plaintext is a well-formed string that
    does not begin with U+FEFF, the chunks emitted by a native encryption
    under that key and salt, concatenated, are decrypted by the browser
    module, under the same key text and salt text, to the plaintext. *)
Theorem cross_environment (password salt P : JSString) (w : World) :
  nativeCrypto w = Some node' -> browserCrypto w = Some web' ->
  exists K,
    fst (nativeGenerateKey password salt w) = Normal (Fulfilled K) /\
    fst (browserGenerateKey password salt w) = Normal (Fulfilled K) /\
    (List.length (base64_decode salt) = 16%nat ->
     is_string P -> well_formed P = true -> starts_with_bom P = false ->
     exists C,
       sink_output (nativeEncryptText K salt P) w = Some C /\
       sink_output (browserDecryptText K salt C) w = Some P).
Proof.
  intros Hn Hb. eexists. split; [|split].
  - now rewrite nativeGenerateKey_node.
  - now rewrite browserGenerateKey_web.
  - intros Hs HP Hwf Hbom. cbn [fst].
    assert (Hk : List.length (base64_decode (derived_key password salt)) = 32%nat).
    { rewrite base64_decode_encode. apply pbkdf2_length. }
    eexists. split.
    + now apply nativeEncryptText_node.
    + rewrite (browserDecryptText_web _ _ _ (utf8_encode P)); try assumption.
      * now rewrite TextDecoder_decode_encode.
      * apply base64_decode_encode.
Qed.

(** ** Invalid padding *)

Hypothesis decrypt_length : forall key b,
  List.length key = 32%nat -> List.length b = block_size ->
  List.length (block_decrypt key b) = block_size.

(** C5 (amended). When the last block of the ciphertext fails the padding
    check under the key and the salt, decryption fails with the error of
    the provider (Node's "bad decrypt", the browser's OperationError). In
    the browser module the sink is not invoked. In the native module the
    sink has by then been invoked once, with the text of the plaintext
    blocks before the last, less the bytes of a character that those
    blocks cut off at their end: the stream decoder keeps these for
    [final], which throws, so that they are never emitted. The sink is
    not invoked again. *)
Theorem invalid_padding_rejected (K IV C : JSString) (w : World) :
  nativeCrypto w = Some node' -> browserCrypto w = Some web' ->
  List.length (base64_decode K) = 32%nat ->
  List.length (base64_decode IV) = 16%nat ->
  padding_invalid block_decrypt (base64_decode K) (base64_decode IV)
                  (base64_decode C) ->
  nativeDecryptText K IV C emit w =
    (Normal (Rejected (ProviderError "bad decrypt")),
     add_events w
       [Call "nativeCrypto.createDecipheriv"; Call "cipher.update";
        Emit (let plain :=
                List.concat
                  (removelast
                     (cbc_plain_blocks block_decrypt (base64_decode K)
                        (base64_decode IV) (base64_decode C))) in
              utf8_decode
                (firstn (List.length plain - fst (utf8_incomplete plain))
                        plain));
        Call "cipher.final"])
  /\
  browserDecryptText K IV C emit w =
    (Normal (Rejected (ProviderError "OperationError")),
     add_events w [Call "browserCrypto.subtle.importKey";
                   Call "browserCrypto.subtle.decrypt"]).
Proof.
  intros Hn Hb Hk Hs Hpad. split.
  - destruct Hpad as (Hne & Hal & Hun).
    destruct (evp_decrypt_aligned block_decrypt (base64_decode K)
                (fun b => decrypt_length _ b Hk) (base64_decode IV)
                (base64_decode C) Hs Hne Hal) as (st & E & Eb & Eh & El).
    set (plain := List.concat
                    (removelast
                       (cbc_plain_blocks block_decrypt (base64_decode K)
                          (base64_decode IV) (base64_decode C)))) in *.
    eapply (nativeDecryptText_final_throws node'
              (node_create (node_decipher block_decrypt))
              (node_decipher block_decrypt (base64_decode K) (base64_decode IV))
              {| ncs_evp := st;
                 ncs_decoder :=
                   Some (snd (decoder_write (newStringDecoder utf8) plain)) |}).
    + exact Hn.
    + discriminate.
    + reflexivity.
    + cbn [Buffer_from decode_input]. now apply node_create_ok.
    + cbn [node_decipher cipher_update cipher_start cipher_state].
      unfold node_update.
      cbn [ncs_evp ncs_decoder getDecoder decode_input].
      rewrite E, utf8_write_fresh. reflexivity.
    + cbn [node_decipher cipher_final]. unfold node_final.
      cbn [ncs_evp ncs_decoder].
      rewrite evp_decrypt_final_invalid; [reflexivity|assumption..|].
      now rewrite Eh.
  - pose proof (cbc_decrypt_unpad_invalid block_decrypt (base64_decode K)
                  (fun b => decrypt_length _ b Hk) (base64_decode IV)
                  (base64_decode C) Hs Hpad) as E.
    eapply (proj2 (browserDecryptText_rejected web' _ subtle_importKey K IV C _ w
                     Hb eq_refl eq_refl)).
    + cbn [Buffer_from decode_input]. unfold subtle_importKey. rewrite Hk.
      reflexivity.
    + reflexivity.
    + cbn [Buffer_from decode_input]. unfold subtle_decrypt.
      cbn [String.eqb Ascii.eqb Bool.eqb negb orb andb existsb
           key_algorithm key_usages key_data].
      now rewrite Hs, E.
Qed.

(** ** Keys and salts of the wrong length *)

(** C8 (amended). The module makes no check of its own on the decoded key
    and salt: it hands them to the provider. Over Node, a key that is not
    32 bytes or a salt that is not 16 bytes is refused by [createCipheriv]
    or [createDecipheriv], the one primitive invoked, and the call is
    rejected with that error. In the browser, a key that is not 16, 24 or
    32 bytes is refused by [importKey], and a salt that is not 16 bytes by
    [decrypt] after [importKey] accepted the key. In each case the sink is
    not invoked. *)
Theorem wrong_length_refused_by_provider (K IV text : JSString) (w : World) :
  nativeCrypto w = Some node' -> browserCrypto w = Some web' ->
  (List.length (base64_decode K) <> 32%nat \/
   List.length (base64_decode IV) <> 16%nat ->
   exists msg,
     nativeEncryptText K IV text emit w =
       (Normal (Rejected (ProviderError msg)),
        add_events w [Call "nativeCrypto.createCipheriv"]) /\
     nativeDecryptText K IV text emit w =
       (Normal (Rejected (ProviderError msg)),
        add_events w [Call "nativeCrypto.createDecipheriv"]))
  /\
  (List.length (base64_decode K) <> 16%nat ->
   List.length (base64_decode K) <> 24%nat ->
   List.length (base64_decode K) <> 32%nat ->
   browserDecryptText K IV text emit w =
     (Normal (Rejected (ProviderError "DataError")),
      add_events w [Call "browserCrypto.subtle.importKey"]))
  /\
  (List.length (base64_decode K) = 16%nat \/
   List.length (base64_decode K) = 24%nat \/
   List.length (base64_decode K) = 32%nat ->
   List.length (base64_decode IV) <> 16%nat ->
   browserDecryptText K IV text emit w =
     (Normal (Rejected (ProviderError "OperationError")),
      add_events w [Call "browserCrypto.subtle.importKey";
                    Call "browserCrypto.subtle.decrypt"])).
Proof.
  intros Hn Hb. split; [|split].
  - intros H.
    assert (E : exists msg, forall make,
               node_create make "aes-256-cbc" (Buffer_from K base64)
                           (Buffer_from IV base64) = Throw (ProviderError msg)).
    { cbn [Buffer_from decode_input]. unfold node_create.
      cbn [String.eqb Ascii.eqb Bool.eqb negb].
      destruct (Nat.eqb_spec (List.length (base64_decode IV)) 16);
        cbn [negb]; [|eauto].
      destruct (Nat.eqb_spec (List.length (base64_decode K)) 32);
        cbn [negb]; [|eauto].
      destruct H; contradiction. }
    destruct E as [msg E]. exists msg. split.
    + apply (proj1 (native_create_throws node' _ K IV text _ w Hn
                      (E (node_cipher block_encrypt)))).
      reflexivity.
    + apply (proj2 (native_create_throws node' _ K IV text _ w Hn
                      (E (node_decipher block_decrypt))));
        [discriminate|reflexivity].
  - intros H16 H24 H32.
    apply (proj1 (browserDecryptText_rejected web' _ subtle_importKey K IV text _ w
                    Hb eq_refl eq_refl)).
    cbn [Buffer_from decode_input]. unfold subtle_importKey.
    cbn [String.eqb Ascii.eqb Bool.eqb negb orb andb subset forallb existsb].
    destruct (Nat.eqb_spec (List.length (base64_decode K)) 16); [contradiction|].
    destruct (Nat.eqb_spec (List.length (base64_decode K)) 24); [contradiction|].
    destruct (Nat.eqb_spec (List.length (base64_decode K)) 32); [contradiction|].
    reflexivity.
  - intros Hk Hs.
    eapply (proj2 (browserDecryptText_rejected web' _ subtle_importKey K IV text _ w
                     Hb eq_refl eq_refl)).
    + cbn [Buffer_from decode_input]. unfold subtle_importKey.
      cbn [String.eqb Ascii.eqb Bool.eqb negb orb andb subset forallb existsb].
      replace ((List.length (base64_decode K) =? 16)%nat
               || (List.length (base64_decode K) =? 24)%nat
               || (List.length (base64_decode K) =? 32)%nat)%bool with true.
      * reflexivity.
      * destruct Hk as [-> | [-> | ->]]; reflexivity.
    + reflexivity.
    + cbn [Buffer_from decode_input]. unfold subtle_decrypt.
      cbn [String.eqb Ascii.eqb Bool.eqb negb orb andb existsb
           key_algorithm key_usages key_data].
      destruct (Nat.eqb_spec (List.length (base64_decode IV)) 16);
        [contradiction|reflexivity].
Qed.

End Providers.

(** * The theorems at concrete inputs, over AES and PBKDF2-HMAC-SHA-256 *)

(** Evaluate both sides of the goal. *)
Ltac run := vm_compute; reflexivity.

Lemma is_string_js (s : string) : is_string (js s).
Proof.
  unfold is_string, js. apply Forall_forall. intros c Hc.
  apply in_map_iff in Hc. destruct Hc as (a & <- & _).
  pose proof (N_ascii_bounded a). lia.
Qed.

Lemma init_sets_provider (n : NativeCrypto) (b : Crypto) (w : World) :
  nativeCrypto (snd (nativeInit n w)) = Some n /\
  browserCrypto (snd (browserInit b w)) = Some b /\
  nativeCrypto initialised = Some node /\
  browserCrypto initialised = Some web.
Proof. repeat split. Qed.

Lemma native_roundtrip_witness :
  exists C,
    sink_output (nativeEncryptText key32 salt16 (js "hello world")) initialised
      = Some C /\
    sink_output (nativeDecryptText key32 salt16 C) initialised
      = Some (js "hello world").
Proof.
  apply (native_roundtrip aes_encrypt_block aes_decrypt_block
           pbkdf2_hmac_sha256 counter_source aes_encrypt_length
           aes_decrypt_encrypt key32 salt16 (js "hello world")
           initialised initialised).
  - reflexivity.
  - reflexivity.
  - vm_compute. reflexivity.
  - vm_compute. reflexivity.
  - apply is_string_js.
  - vm_compute. reflexivity.
Defined.

(** The empty payload, a payload of exactly one block and one of several
    blocks, run through the model; the ciphertexts are those of OpenSSL
    for the key 00 01 .. 1f and the IV of zeros. *)
Example roundtrip_empty :
  sink_output (nativeEncryptText key32 salt16 []) initialised
    = Some (js "nzt1BJJvi9NuMRjpA6TNSg==") /\
  sink_output (nativeDecryptText key32 salt16 (js "nzt1BJJvi9NuMRjpA6TNSg=="))
              initialised = Some [] /\
  sink_output (browserDecryptText key32 salt16 (js "nzt1BJJvi9NuMRjpA6TNSg=="))
              initialised = Some [].
Proof. split; [run|]. split; run. Qed.

Example roundtrip_one_block :
  sink_output (nativeEncryptText key32 salt16 (js "0123456789abcdef"))
              initialised
    = Some (js "2MlXWOM1PlMPpSvRDnO5hk9rowIiB0xNR3w/KU8SqC8=") /\
  sink_output (nativeDecryptText key32 salt16
                 (js "2MlXWOM1PlMPpSvRDnO5hk9rowIiB0xNR3w/KU8SqC8="))
              initialised = Some (js "0123456789abcdef") /\
  sink_output (browserDecryptText key32 salt16
                 (js "2MlXWOM1PlMPpSvRDnO5hk9rowIiB0xNR3w/KU8SqC8="))
              initialised = Some (js "0123456789abcdef").
Proof. split; [run|]. split; run. Qed.

Example roundtrip_several_blocks :
  let P := js "The quick brown fox jumps over the lazy dog, twice over." in
  let C := js "vORkaeL3q2t+p2e9MlJSmoQ7ok6JDlZ+9gDEpuEFH/z7UHj9KCvepaiLb+t5PIoplogCHkT2yNfjVFUHIuLwGA==" in
  emitted (events_of (nativeEncryptText key32 salt16 P emit) initialised)
    = [js "vORkaeL3q2t+p2e9MlJSmoQ7ok6JDlZ+9gDEpuEFH/z7UHj9KCvepaiLb+t5PIop";
       js "logCHkT2yNfjVFUHIuLwGA=="] /\
  sink_output (nativeEncryptText key32 salt16 P) initialised = Some C /\
  sink_output (nativeDecryptText key32 salt16 C) initialised = Some P /\
  sink_output (browserDecryptText key32 salt16 C) initialised = Some P.
Proof. cbv zeta. split; [run|]. split; [run|]. split; run. Qed.

Lemma cross_environment_witness :
  exists K,
    fst (nativeGenerateKey (js "correct-horse") salt16 initialised)
      = Normal (Fulfilled K) /\
    fst (browserGenerateKey (js "correct-horse") salt16 initialised)
      = Normal (Fulfilled K) /\
    exists C,
      sink_output (nativeEncryptText K salt16 (js "hello world")) initialised
        = Some C /\
      sink_output (browserDecryptText K salt16 C) initialised
        = Some (js "hello world").
Proof.
  destruct (cross_environment aes_encrypt_block aes_decrypt_block
              pbkdf2_hmac_sha256 counter_source aes_encrypt_length
              aes_decrypt_encrypt pbkdf2_hmac_sha256_length
              (js "correct-horse") salt16 (js "hello world") initialised
              eq_refl eq_refl)
    as (K & H1 & H2 & H3).
  exists K. split; [exact H1|]. split; [exact H2|].
  apply H3.
  - vm_compute. reflexivity.
  - apply is_string_js.
  - vm_compute. reflexivity.
  - vm_compute. reflexivity.
Defined.

Lemma key_derivation_is_pbkdf2_witness :
  fst (nativeGenerateKey (js "correct-horse") salt16 initialised) =
    Normal (Fulfilled
      (base64_encode
         (pbkdf2_hmac_sha256 (utf8_encode (js "correct-horse"))
                             (base64_decode salt16) 100000 32)))
  /\
  fst (browserGenerateKey (js "correct-horse") salt16 initialised) =
    Normal (Fulfilled
      (base64_encode
         (pbkdf2_hmac_sha256 (utf8_encode (js "correct-horse"))
                             (base64_decode salt16) 100000 32))).
Proof.
  exact (key_derivation_is_pbkdf2 aes_encrypt_block aes_decrypt_block
           pbkdf2_hmac_sha256 counter_source (js "correct-horse") salt16
           initialised eq_refl eq_refl).
Defined.

Lemma invalid_padding_rejected_witness :
  nativeDecryptText other_key32 salt16
    (js "zCLOOJQenf4F+m77z9YKc620Y0OZMx6gQCXlfsIII6c=") emit initialised =
    (Normal (Rejected (ProviderError "bad decrypt")),
     add_events initialised
       [Call "nativeCrypto.createDecipheriv"; Call "cipher.update";
        Emit (let plain :=
                List.concat
                  (removelast
                     (cbc_plain_blocks aes_decrypt_block
                        (base64_decode other_key32) (base64_decode salt16)
                        (base64_decode
                           (js "zCLOOJQenf4F+m77z9YKc620Y0OZMx6gQCXlfsIII6c=")))) in
              utf8_decode
                (firstn (List.length plain - fst (utf8_incomplete plain))
                        plain));
        Call "cipher.final"])
  /\
  browserDecryptText other_key32 salt16
    (js "zCLOOJQenf4F+m77z9YKc620Y0OZMx6gQCXlfsIII6c=") emit initialised =
    (Normal (Rejected (ProviderError "OperationError")),
     add_events initialised [Call "browserCrypto.subtle.importKey";
                             Call "browserCrypto.subtle.decrypt"]).
Proof.
  apply (invalid_padding_rejected aes_encrypt_block aes_decrypt_block
           pbkdf2_hmac_sha256 counter_source aes_decrypt_length other_key32
           salt16 (js "zCLOOJQenf4F+m77z9YKc620Y0OZMx6gQCXlfsIII6c=")
           initialised).
  - reflexivity.
  - reflexivity.
  - vm_compute. reflexivity.
  - vm_compute. reflexivity.
  - split; [vm_compute; discriminate|].
    split; vm_compute; reflexivity.
Defined.

Lemma wrong_length_refused_by_provider_witness :
  (exists msg,
     nativeEncryptText key16 salt16 (js "hello world") emit initialised =
       (Normal (Rejected (ProviderError msg)),
        add_events initialised [Call "nativeCrypto.createCipheriv"]) /\
     nativeDecryptText key16 salt16 (js "hello world") emit initialised =
       (Normal (Rejected (ProviderError msg)),
        add_events initialised [Call "nativeCrypto.createDecipheriv"]))
  /\
  browserDecryptText key3 salt16 (js "hello world") emit initialised =
    (Normal (Rejected (ProviderError "DataError")),
     add_events initialised [Call "browserCrypto.subtle.importKey"])
  /\
  browserDecryptText key16 key3 (js "hello world") emit initialised =
    (Normal (Rejected (ProviderError "OperationError")),
     add_events initialised [Call "browserCrypto.subtle.importKey";
                             Call "browserCrypto.subtle.decrypt"]).
Proof.
  split; [|split].
  - apply (wrong_length_refused_by_provider aes_encrypt_block
             aes_decrypt_block pbkdf2_hmac_sha256 counter_source key16 salt16
             (js "hello world") initialised eq_refl eq_refl).
    left. vm_compute. discriminate.
  - apply (wrong_length_refused_by_provider aes_encrypt_block
             aes_decrypt_block pbkdf2_hmac_sha256 counter_source key3 salt16
             (js "hello world") initialised eq_refl eq_refl);
      vm_compute; discriminate.
  - apply (wrong_length_refused_by_provider aes_encrypt_block
             aes_decrypt_block pbkdf2_hmac_sha256 counter_source key16 key3
             (js "hello world") initialised eq_refl eq_refl).
    + left. vm_compute. reflexivity.
    + vm_compute. discriminate.
Defined.

Lemma run_fulfilled {A} (m : M (Promise A)) (w : World) (a : A) :
  fst (m w) = Normal (Fulfilled a) -> m w = (Normal (Fulfilled a), snd (m w)).
Proof. intros H. rewrite <- H. apply surjective_pairing. Qed.

Lemma sink_invocations_witness :
  nativeEncryptText key32 salt16 (js "transfer 100 to bob!") emit initialised =
    async (emit (js "zCLOOJQenf4F+m77z9YK") ;;; log (Call "cipher.final") ;;;
           emit (js "c620Y0OZMx6gQCXlfsIII6c=") ;;; ret tt)
          (add_events initialised [Call "nativeCrypto.createCipheriv";
                                   Call "cipher.update"])
  /\
  nativeDecryptText key32 salt16
    (js "zCLOOJQenf4F+m77z9YKc620Y0OZMx6gQCXlfsIII6c=") emit initialised =
    async (emit (js "transfer 100 to ") ;;; log (Call "cipher.final") ;;;
           emit (js "bob!") ;;; ret tt)
          (add_events initialised [Call "nativeCrypto.createDecipheriv";
                                   Call "cipher.update"])
  /\
  browserDecryptText key32 salt16
    (js "zCLOOJQenf4F+m77z9YKc620Y0OZMx6gQCXlfsIII6c=") emit initialised =
    async (emit (TextDecoder_decode (utf8_encode (js "transfer 100 to bob!")))
           ;;; ret tt)
          (add_events initialised [Call "browserCrypto.subtle.importKey";
                                   Call "browserCrypto.subtle.decrypt"])
  /\
  (exists c out fin,
     nativeCrypto initialised = Some c /\
     cipher_outputs (createCipheriv c) (Buffer_from key32 base64)
                    (Buffer_from salt16 base64) (js "transfer 100 to bob!")
                    utf8 base64 out fin /\
     events_of (nativeEncryptText key32 salt16 (js "transfer 100 to bob!") emit)
               initialised =
       [Call "nativeCrypto.createCipheriv"; Call "cipher.update"; Emit out;
        Call "cipher.final"; Emit fin])
  /\
  (exists c out fin,
     nativeCrypto initialised = Some c /\
     cipher_outputs (createDecipheriv c) (Buffer_from key32 base64)
                    (Buffer_from salt16 base64)
                    (js "zCLOOJQenf4F+m77z9YKc620Y0OZMx6gQCXlfsIII6c=")
                    base64 utf8 out fin /\
     events_of (nativeDecryptText key32 salt16
                  (js "zCLOOJQenf4F+m77z9YKc620Y0OZMx6gQCXlfsIII6c=") emit)
               initialised =
       [Call "nativeCrypto.createDecipheriv"; Call "cipher.update"; Emit out;
        Call "cipher.final"; Emit fin])
  /\
  (exists c plain,
     browserCrypto initialised = Some c /\
     subtle_decrypts c (Buffer_from key32 base64) (Buffer_from salt16 base64)
                     (Buffer_from
                        (js "zCLOOJQenf4F+m77z9YKc620Y0OZMx6gQCXlfsIII6c=")
                        base64) plain /\
     events_of (browserDecryptText key32 salt16
                  (js "zCLOOJQenf4F+m77z9YKc620Y0OZMx6gQCXlfsIII6c=") emit)
               initialised =
       [Call "browserCrypto.subtle.importKey";
        Call "browserCrypto.subtle.decrypt"; Emit (TextDecoder_decode plain)]).
Proof.
  split; [|split; [|split; [|split; [|split]]]].
  - eapply (proj1 (sink_invocations key32 salt16 (js "transfer 100 to bob!")
                     emit initialised) node).
    + reflexivity.
    + eexists _, _, _. split; [reflexivity|].
      split; [cbn [Buffer_from decode_input];
              apply node_create_ok; vm_compute; reflexivity|].
      split; [vm_compute; reflexivity|]. vm_compute. reflexivity.
  - eapply (proj1 (proj2 (sink_invocations key32 salt16
                            (js "zCLOOJQenf4F+m77z9YKc620Y0OZMx6gQCXlfsIII6c=")
                            emit initialised)) node).
    + reflexivity.
    + discriminate.
    + eexists _, _, _. split; [reflexivity|].
      split; [cbn [Buffer_from decode_input];
              apply node_create_ok; vm_compute; reflexivity|].
      split; [vm_compute; reflexivity|]. vm_compute. reflexivity.
  - eapply (proj1 (proj2 (proj2 (sink_invocations key32 salt16
                            (js "zCLOOJQenf4F+m77z9YKc620Y0OZMx6gQCXlfsIII6c=")
                            emit initialised))) web).
    + reflexivity.
    + eexists _, _, _, _. split; [reflexivity|]. split; [reflexivity|].
      split; [reflexivity|].
      split; [vm_compute; reflexivity|]. vm_compute. reflexivity.
  - eapply (proj1 (proj2 (proj2 (proj2
              (sink_invocations key32 salt16 (js "transfer 100 to bob!")
                                emit initialised))))).
    apply run_fulfilled. vm_compute. reflexivity.
  - eapply (proj1 (proj2 (proj2 (proj2 (proj2
              (sink_invocations key32 salt16
                 (js "zCLOOJQenf4F+m77z9YKc620Y0OZMx6gQCXlfsIII6c=")
                 emit initialised)))))).
    apply run_fulfilled. vm_compute. reflexivity.
  - eapply (proj2 (proj2 (proj2 (proj2 (proj2
              (sink_invocations key32 salt16
                 (js "zCLOOJQenf4F+m77z9YKc620Y0OZMx6gQCXlfsIII6c=")
                 emit initialised)))))).
    apply run_fulfilled. vm_compute. reflexivity.
Defined.

(** * Where the module departs from the claims *)

(** C1, as stated, fails: the one-character string holding the unpaired
    surrogate U+D800 is encrypted as U+FFFD is, and comes back as
    U+FFFD. *)
Lemma native_roundtrip_unpaired_surrogate :
  is_string [0xD800] /\
  List.length (base64_decode key32) = 32%nat /\
  List.length (base64_decode salt16) = 16%nat /\
  sink_output (nativeEncryptText key32 salt16 [0xD800]) initialised
    = Some (js "78+WREmf3o1dA3P/IOC2Fg==") /\
  sink_output (nativeEncryptText key32 salt16 [0xFFFD]) initialised
    = Some (js "78+WREmf3o1dA3P/IOC2Fg==") /\
  sink_output (nativeDecryptText key32 salt16 (js "78+WREmf3o1dA3P/IOC2Fg=="))
              initialised = Some [0xFFFD] /\
  [0xFFFD] <> [0xD800].
Proof.
  split; [repeat constructor|].
  split; [run|]. split; [run|]. split; [run|]. split; [run|]. split; [run|].
  discriminate.
Qed.

Lemma sink_output_rejected
      (call : (JSString -> M unit) -> M (Promise unit)) (w w' : World) (e : Exn) :
  call emit w = (Normal (Rejected e), w') -> sink_output call w = None.
Proof. intros H. unfold sink_output. now rewrite H. Qed.

(** C2. The browser module does not return what the native module
    encrypted. For the key that both modules derive from the password
    "correct-horse" and the salt of 16 zero bytes, the ciphertext of
    U+FEFF followed by "hello world" is decrypted by the browser module
    to "hello world": [TextDecoder] drops the leading U+FEFF, which the
    native decryption of the same ciphertext keeps. Besides, an unpaired
    surrogate comes back as U+FFFD, as it does in the native module; and
    with a salt that decodes to 3 bytes both modules derive the same key
    but the native encryption is rejected. *)
Lemma cross_environment_departures :
  (exists K,
     fst (nativeGenerateKey (js "correct-horse") salt16 initialised)
       = Normal (Fulfilled K) /\
     fst (browserGenerateKey (js "correct-horse") salt16 initialised)
       = Normal (Fulfilled K) /\
     (exists C,
        sink_output (nativeEncryptText K salt16 (0xFEFF :: js "hello world"))
                    initialised = Some C /\
        sink_output (browserDecryptText K salt16 C) initialised
          = Some (js "hello world") /\
        sink_output (nativeDecryptText K salt16 C) initialised
          = Some (0xFEFF :: js "hello world")) /\
     (exists C,
        sink_output (nativeEncryptText K salt16 [0xD800]) initialised = Some C /\
        sink_output (browserDecryptText K salt16 C) initialised = Some [0xFFFD]))
  /\
  (exists K,
     fst (nativeGenerateKey (js "correct-horse") key3 initialised)
       = Normal (Fulfilled K) /\
     fst (browserGenerateKey (js "correct-horse") key3 initialised)
       = Normal (Fulfilled K) /\
     sink_output (nativeEncryptText K key3 (js "hello world")) initialised
       = None).
Proof.
  assert (Hn : nativeCrypto initialised = Some node) by reflexivity.
  assert (Hb : browserCrypto initialised = Some web) by reflexivity.
  assert (Hs : List.length (base64_decode salt16) = 16%nat) by run.
  split.
  - eexists. split; [|split; [|split]].
    + unfold node in Hn.
      rewrite (nativeGenerateKey_node _ _ _ _ _ _ _ Hn). cbn [fst]. reflexivity.
    + unfold web in Hb.
      rewrite (browserGenerateKey_web _ _ _ _ _ Hb). cbn [fst]. reflexivity.
    + set (K := base64_encode _).
      assert (Hk : List.length (base64_decode K) = 32%nat).
      { subst K. rewrite base64_decode_encode.
        apply pbkdf2_hmac_sha256_length. }
      eexists. split; [|split].
      * apply (nativeEncryptText_node aes_encrypt_block aes_decrypt_block
                 pbkdf2_hmac_sha256 counter_source _ _ _ _ Hn Hk Hs).
      * rewrite (browserDecryptText_web aes_encrypt_block aes_decrypt_block
                   pbkdf2_hmac_sha256 aes_encrypt_length aes_decrypt_encrypt
                   K salt16 _ (utf8_encode (0xFEFF :: js "hello world")) _
                   Hb Hk Hs (base64_decode_encode _)).
        run.
      * rewrite (nativeDecryptText_node aes_encrypt_block aes_decrypt_block
                   pbkdf2_hmac_sha256 counter_source aes_encrypt_length
                   aes_decrypt_encrypt K salt16 _
                   (utf8_encode (0xFEFF :: js "hello world")) _
                   Hn Hk Hs (base64_decode_encode _)).
        run.
    + set (K := base64_encode _).
      assert (Hk : List.length (base64_decode K) = 32%nat).
      { subst K. rewrite base64_decode_encode.
        apply pbkdf2_hmac_sha256_length. }
      eexists. split.
      * apply (nativeEncryptText_node aes_encrypt_block aes_decrypt_block
                 pbkdf2_hmac_sha256 counter_source _ _ _ _ Hn Hk Hs).
      * rewrite (browserDecryptText_web aes_encrypt_block aes_decrypt_block
                   pbkdf2_hmac_sha256 aes_encrypt_length aes_decrypt_encrypt
                   K salt16 _ (utf8_encode [0xD800]) _
                   Hb Hk Hs (base64_decode_encode _)).
        run.
  - eexists. split; [|split].
    + unfold node in Hn.
      rewrite (nativeGenerateKey_node _ _ _ _ _ _ _ Hn). cbn [fst]. reflexivity.
    + unfold web in Hb.
      rewrite (browserGenerateKey_web _ _ _ _ _ Hb). cbn [fst]. reflexivity.
    + set (K := base64_encode _).
      assert (E : node_create (node_cipher aes_encrypt_block) "aes-256-cbc"
                    (Buffer_from K base64) (Buffer_from key3 base64)
                  = Throw (ProviderError "Invalid initialization vector")).
      { cbn [Buffer_from decode_input]. unfold node_create.
        subst K. rewrite base64_decode_encode, pbkdf2_hmac_sha256_length.
        reflexivity. }
      eapply sink_output_rejected.
      exact (proj1 (native_create_throws node _ K key3 (js "hello world") _
                      initialised Hn E) eq_refl).
Qed.

(** C5, as stated, fails for the native module: decrypting the two-block
    ciphertext of "transfer 100 to bob!" with another key fails the
    padding check, but only after the sink was handed the first block as
    decrypted under that key. *)
Lemma native_decrypt_emits_before_padding_check :
  let C := js "zCLOOJQenf4F+m77z9YKc620Y0OZMx6gQCXlfsIII6c=" in
  sink_output (nativeEncryptText key32 salt16 (js "transfer 100 to bob!"))
              initialised = Some C /\
  padding_invalid aes_decrypt_block (base64_decode other_key32)
                  (base64_decode salt16) (base64_decode C) /\
  fst (nativeDecryptText other_key32 salt16 C emit initialised)
    = Normal (Rejected (ProviderError "bad decrypt")) /\
  emitted (events_of (nativeDecryptText other_key32 salt16 C emit) initialised)
    = [[93; 67; 0xFFFD; 0xFFFD; 0xFFFD; 1981; 32; 71; 0xFFFD; 101; 107;
        0xFFFD; 87; 97; 88]].
Proof.
  cbv zeta. split; [run|]. split; [|split; run].
  split; [vm_compute; discriminate|]. split; run.
Qed.

(** C8, as stated, fails: with a key that decodes to 16 bytes the native
    encryption is rejected by [createCipheriv], that is after a primitive
    of the provider was invoked, with the error of the provider; and the
    browser decryption of an AES-128 ciphertext is not rejected at all. *)
Lemma short_key_reaches_provider :
  List.length (base64_decode key16) = 16%nat /\
  fst (nativeEncryptText key16 salt16 (js "hello world") emit initialised)
    = Normal (Rejected (ProviderError "Invalid key length")) /\
  calls (events_of (nativeEncryptText key16 salt16 (js "hello world") emit)
                   initialised) = ["nativeCrypto.createCipheriv"] /\
  sink_output (browserDecryptText key16 salt16 (js "knb984TzhRj6bIMQ8ZFnjQ=="))
              initialised = Some (js "hello world").
Proof. split; [run|]. split; [run|]. split; run. Qed.

(** * Capability checks that name the wrong primitive *)

(** C6. With a provider that has [randomBytes] but no [pbkdf2Sync], the
    native key derivation passes its check, which is on [randomBytes],
    and fails with the engine's TypeError at the call of [pbkdf2Sync],
    not with the not-supported error. With a [subtle] that has
    [importKey] but no [deriveBits], the browser key derivation passes
    its check, imports the key and fails alike at [deriveBits]. *)
Theorem key_derivation_without_pbkdf2 :
  pbkdf2Sync random_only = None /\
  nativeGenerateKey (js "correct-horse") salt16 (world_with_native random_only) =
    (Normal (Rejected (TypeError "nativeCrypto.pbkdf2Sync is not a function")),
     world_with_native random_only)
  /\
  optional_member (subtle import_only) deriveBits = None /\
  browserGenerateKey (js "correct-horse") salt16
                     (world_with_browser import_only) =
    (Normal (Rejected
               (TypeError "browserCrypto.subtle.deriveBits is not a function")),
     add_events (world_with_browser import_only)
                [Call "browserCrypto.subtle.importKey"]).
Proof. repeat split. Qed.

(** C7. With a provider that has [createCipheriv] but no
    [createDecipheriv], the native decryption passes its check, which is
    on [createCipheriv], and fails with the engine's TypeError at the call
    of [createDecipheriv], not with the not-supported error; the sink is
    not invoked. *)
Theorem decrypt_without_createDecipheriv :
  createDecipheriv encrypt_only = None /\
  nativeDecryptText key32 salt16
    (js "zCLOOJQenf4F+m77z9YKc620Y0OZMx6gQCXlfsIII6c=") emit
    (world_with_native encrypt_only) =
    (Normal (Rejected
               (TypeError "nativeCrypto.createDecipheriv is not a function")),
     world_with_native encrypt_only).
Proof. repeat split. Qed.

(** C9. With a provider that supplies the primitive the operation needs
    but not the one its check names, the check fails all the same: key
    derivation with [pbkdf2Sync] and without [randomBytes], decryption
    with [createDecipheriv] and without [createCipheriv]. *)
Theorem check_fails_although_primitive_supplied :
  pbkdf2Sync pbkdf2_only <> None /\
  nativeGenerateKey (js "correct-horse") salt16 (world_with_native pbkdf2_only) =
    (Normal (Rejected (Error "nativeCrypto.randomBytes is not supported")),
     world_with_native pbkdf2_only)
  /\
  createDecipheriv decrypt_only <> None /\
  nativeDecryptText key32 salt16
    (js "zCLOOJQenf4F+m77z9YKc620Y0OZMx6gQCXlfsIII6c=") emit
    (world_with_native decrypt_only) =
    (Normal (Rejected (Error "nativeCrypto.createCipheriv is not supported")),
     world_with_native decrypt_only).
Proof. repeat split; discriminate. Qed.

(** * The text that the browser sink receives *)

(** C10. The native part of the claim holds, the browser part does not.
    For the ciphertext of U+FEFF followed by "hello world", and whichever
    callback is the sink: the native decryption calls it twice, with the
    output of [update] (here empty) and, after [final], with that of
    [final], which together are the whole plaintext; the browser
    decryption calls it once, but with "hello world", which is not the
    entire decrypted plaintext. *)
Theorem browser_sink_misses_byte_order_mark (event : JSString -> M unit) :
  let P := 0xFEFF :: js "hello world" in
  let C := js "F8z54K8sx6FrzjE1MZHhOA==" in
  sink_output (nativeEncryptText key32 salt16 P) initialised = Some C /\
  nativeDecryptText key32 salt16 C event initialised =
    async (event [] ;;; log (Call "cipher.final") ;;; event P ;;; ret tt)
          (add_events initialised [Call "nativeCrypto.createDecipheriv";
                                   Call "cipher.update"]) /\
  browserDecryptText key32 salt16 C event initialised =
    async (event (js "hello world") ;;; ret tt)
          (add_events initialised [Call "browserCrypto.subtle.importKey";
                                   Call "browserCrypto.subtle.decrypt"]) /\
  events_of (nativeDecryptText key32 salt16 C emit) initialised =
    [Call "nativeCrypto.createDecipheriv"; Call "cipher.update"; Emit [];
     Call "cipher.final"; Emit P] /\
  fst (nativeDecryptText key32 salt16 C emit initialised)
    = Normal (Fulfilled tt) /\
  events_of (browserDecryptText key32 salt16 C emit) initialised =
    [Call "browserCrypto.subtle.importKey";
     Call "browserCrypto.subtle.decrypt"; Emit (js "hello world")] /\
  fst (browserDecryptText key32 salt16 C emit initialised)
    = Normal (Fulfilled tt) /\
  js "hello world" <> P.
Proof.
  intros P C.
  split; [run|]. split; [|split].
  - apply (nativeDecryptText_calls node); [reflexivity|discriminate|].
    eexists _, _, _. split; [reflexivity|].
    split; [cbn [Buffer_from decode_input];
            apply node_create_ok; vm_compute; reflexivity|].
    split; [vm_compute; reflexivity|]. vm_compute. reflexivity.
  - rewrite (browserDecryptText_calls web key32 salt16 C (utf8_encode P)
               event initialised eq_refl).
    + replace (TextDecoder_decode (utf8_encode P)) with (js "hello world")
        by (vm_compute; reflexivity).
      reflexivity.
    + eexists _, _, _, _. split; [reflexivity|]. split; [reflexivity|].
      split; [reflexivity|].
      split; [vm_compute; reflexivity|]. vm_compute. reflexivity.
  - split; [run|]. split; [run|]. split; [run|]. split; [run|discriminate].
Qed.

(** * The providers at the edges of their inputs *)

(** [Buffer.from(text, 'base64')] reads the low byte of each code unit:
    U+0141 counts as "A", so that a key text of U+0141 followed by the
    text of 32 bytes decodes to 33 bytes and is refused. *)
Example base64_reads_low_bytes :
  base64_decode (0x141 :: js "AAA") = base64_decode (js "AAAA") /\
  List.length (base64_decode (0x141 :: key32)) = 33%nat /\
  List.length (base64_decode (0x141 :: salt16)) = 17%nat /\
  fst (nativeEncryptText (0x141 :: key32) salt16 (js "hello world") emit
                         initialised)
    = Normal (Rejected (ProviderError "Invalid key length")) /\
  base64_decode (js "AAAA" ++ [0x13D] ++ js "AAAA") = base64_decode (js "AAAA").
Proof.
  split; [run|]. split; [run|]. split; [run|]. split; run.
Qed.

(** [createCipheriv] looks at the IV before the key. *)
Example iv_checked_before_key :
  fst (nativeEncryptText key16 key3 (js "hello world") emit initialised)
    = Normal (Rejected (ProviderError "Invalid initialization vector")).
Proof. run. Qed.

(** A ciphertext of two blocks whose first block decrypts to
    "0123456789abcd" followed by the bytes e0 80 and whose second block
    has no valid padding: the stream decoder keeps e0 80, the beginning
    of a character, and [final] throws, so that the sink receives 14
    characters and no more. The same holds for the first 21 bytes of
    that ciphertext. The browser module hands its sink nothing. *)
Example cut_off_character_is_not_emitted :
  let C := js "tUSRsLGtsuMpQjQgBOokuaNZ1DjVb6G3h5FTlMjrzJQ=" in
  let C21 := js "tUSRsLGtsuMpQjQgBOokuaNZ1DjV" in
  List.concat (removelast (cbc_plain_blocks aes_decrypt_block
                             (base64_decode key32) (base64_decode salt16)
                             (base64_decode C)))
    = utf8_encode (js "0123456789abcd") ++ [xe0; x80] /\
  fst (nativeDecryptText key32 salt16 C emit initialised)
    = Normal (Rejected (ProviderError "bad decrypt")) /\
  events_of (nativeDecryptText key32 salt16 C emit) initialised =
    [Call "nativeCrypto.createDecipheriv"; Call "cipher.update";
     Emit (js "0123456789abcd"); Call "cipher.final"] /\
  fst (nativeDecryptText key32 salt16 C21 emit initialised)
    = Normal (Rejected (ProviderError "wrong final block length")) /\
  events_of (nativeDecryptText key32 salt16 C21 emit) initialised =
    [Call "nativeCrypto.createDecipheriv"; Call "cipher.update";
     Emit (js "0123456789abcd"); Call "cipher.final"] /\
  events_of (browserDecryptText key32 salt16 C emit) initialised =
    [Call "browserCrypto.subtle.importKey";
     Call "browserCrypto.subtle.decrypt"].
Proof.
  cbv zeta. split; [run|]. split; [run|]. split; [run|]. split; [run|].
  split; run.
Qed.

(** * Further properties of the two modules *)

(** ** Calls before the init function, whatever the sink *)

(** X1. While [nativeInit] has not run, every operation of the native
    module fails on reading a property of the undefined [nativeCrypto]:
    [nativeGenerateIvv], which is not an [async] function, throws the
    TypeError synchronously; the four [async] operations return a promise
    rejected with it. No primitive is invoked and the sink, whichever it
    is, is not called: the world is unchanged. *)
Theorem native_module_before_init
        (password ivv key text : JSString) (event : JSString -> M unit)
        (w : World) :
  nativeCrypto w = None ->
  nativeGenerateIvv w =
    (Throw (TypeError
              "Cannot read properties of undefined (reading 'randomBytes')"), w)
  /\ nativeGenerateKey password ivv w =
    (Normal (Rejected (TypeError
              "Cannot read properties of undefined (reading 'randomBytes')")), w)
  /\ nativeGenerateHash password ivv w =
    (Normal (Rejected (TypeError
              "Cannot read properties of undefined (reading 'randomBytes')")), w)
  /\ nativeEncryptText key ivv text event w =
    (Normal (Rejected (TypeError
              "Cannot read properties of undefined (reading 'createCipheriv')")), w)
  /\ nativeDecryptText key ivv text event w =
    (Normal (Rejected (TypeError
              "Cannot read properties of undefined (reading 'createCipheriv')")), w).
Proof.
  intros H. unfold_module. rewrite H. cbn. repeat split.
Qed.

(** X2. While [browserInit] has not run, the three operations of the
    browser module return a promise rejected with the TypeError of
    reading [subtle] of the undefined [browserCrypto]; the optional
    chaining of the check guards [subtle], not [browserCrypto]. The world
    is unchanged. *)
Theorem browser_module_before_init
        (password ivv key text : JSString) (event : JSString -> M unit)
        (w : World) :
  browserCrypto w = None ->
  browserGenerateKey password ivv w =
    (Normal (Rejected (TypeError
              "Cannot read properties of undefined (reading 'subtle')")), w)
  /\ browserGenerateHash password ivv w =
    (Normal (Rejected (TypeError
              "Cannot read properties of undefined (reading 'subtle')")), w)
  /\ browserDecryptText key ivv text event w =
    (Normal (Rejected (TypeError
              "Cannot read properties of undefined (reading 'subtle')")), w).
Proof.
  intros H. unfold_module. rewrite H. cbn. repeat split.
Qed.

(** ** The capability checks that name the primitive they guard *)

(** X3. With a provider that has no [randomBytes], [nativeGenerateIvv]
    throws the not-supported [Error] synchronously; with one that has no
    [createCipheriv], [nativeEncryptText] returns a promise rejected with
    the not-supported [Error]. In both cases no primitive is invoked and
    the sink is not called. *)
Theorem native_checks_guard (c : NativeCrypto) (key ivv text : JSString)
        (event : JSString -> M unit) (w : World) :
  nativeCrypto w = Some c ->
  (randomBytes c = None ->
   nativeGenerateIvv w =
     (Throw (Error "nativeCrypto.randomBytes is not supported"), w))
  /\
  (createCipheriv c = None ->
   nativeEncryptText key ivv text event w =
     (Normal (Rejected (Error "nativeCrypto.createCipheriv is not supported")),
      w)).
Proof.
  intros H. split; intros E; unfold_module; rewrite H; cbn; rewrite E;
    reflexivity.
Qed.

(** X4. With a provider that has no [subtle], or whose [subtle] has no
    [importKey], the three operations of the browser module return a
    promise rejected with the not-supported [Error]: the optional
    chaining [subtle?.importKey] covers both. No primitive is invoked and
    the sink is not called. *)
Theorem browser_checks_guard (c : Crypto) (password ivv key text : JSString)
        (event : JSString -> M unit) (w : World) :
  browserCrypto w = Some c ->
  subtle c = None \/ (exists s, subtle c = Some s /\ importKey s = None) ->
  browserGenerateKey password ivv w =
    (Normal (Rejected (Error "browserCrypto.subtle.importKey is not supported")),
     w)
  /\ browserGenerateHash password ivv w =
    (Normal (Rejected (Error "browserCrypto.subtle.importKey is not supported")),
     w)
  /\ browserDecryptText key ivv text event w =
    (Normal (Rejected (Error "browserCrypto.subtle.importKey is not supported")),
     w).
Proof.
  intros H [E | (s & E & Ei)]; unfold_module; rewrite H; cbn; rewrite E;
    try rewrite Ei; repeat split.
Qed.

(** ** A sink that throws *)

(** X5. An exception thrown by the sink at its first call rejects the
    promise with that exception, and nothing happens after it: the world
    is the one the sink left. For the native module this is after
    [update]: [final] is not called and the sink is not called again. *)
Theorem sink_exception_rejects
        (key ivv text : JSString) (event : JSString -> M unit)
        (e : Exn) (w w' : World) :
  (forall (c : NativeCrypto)
          (mk : string -> Buffer -> Buffer -> Completion CipherObject)
          (cipher : CipherObject) (out : JSString) (st : cipher_state cipher),
     nativeCrypto w = Some c -> createCipheriv c = Some mk ->
     mk "aes-256-cbc" (Buffer_from key base64) (Buffer_from ivv base64)
       = Normal cipher ->
     cipher_update cipher (cipher_start cipher) text utf8 base64
       = Normal (out, st) ->
     event out (add_events w [Call "nativeCrypto.createCipheriv";
                              Call "cipher.update"]) = (Throw e, w') ->
     nativeEncryptText key ivv text event w = (Normal (Rejected e), w'))
  /\
  (forall (c : NativeCrypto)
          (mk : string -> Buffer -> Buffer -> Completion CipherObject)
          (cipher : CipherObject) (out : JSString) (st : cipher_state cipher),
     nativeCrypto w = Some c -> createCipheriv c <> None ->
     createDecipheriv c = Some mk ->
     mk "aes-256-cbc" (Buffer_from key base64) (Buffer_from ivv base64)
       = Normal cipher ->
     cipher_update cipher (cipher_start cipher) text base64 utf8
       = Normal (out, st) ->
     event out (add_events w [Call "nativeCrypto.createDecipheriv";
                              Call "cipher.update"]) = (Throw e, w') ->
     nativeDecryptText key ivv text event w = (Normal (Rejected e), w'))
  /\
  (forall (c : Crypto) (plain : Buffer),
     browserCrypto w = Some c ->
     subtle_decrypts c (Buffer_from key base64) (Buffer_from ivv base64)
                     (Buffer_from text base64) plain ->
     event (TextDecoder_decode plain)
           (add_events w [Call "browserCrypto.subtle.importKey";
                          Call "browserCrypto.subtle.decrypt"]) = (Throw e, w') ->
     browserDecryptText key ivv text event w = (Normal (Rejected e), w')).
Proof.
  split; [|split].
  - intros c mk cipher out st Hc E1 E2 E3 E4.
    unfold_module. reduce_goal. rewrite !add_events_app. cbn [app].
    rewrite E4. reflexivity.
  - intros c mk cipher out st Hc Hmk E1 E2 E3 E4.
    destruct (createCipheriv c) as [mk'|] eqn:E0; [clear Hmk|contradiction].
    unfold_module. reduce_goal. rewrite !add_events_app. cbn [app].
    rewrite E4. reflexivity.
  - intros c plain Hc (s & ik & dk & k & E1 & E2 & E3 & E4 & E5) E6.
    unfold_module. reduce_goal. rewrite !add_events_app. cbn [app].
    rewrite E6. reflexivity.
Qed.

(** ** Lengths *)

Lemma base64_encode_length (bs : Buffer) :
  List.length (base64_encode bs) = (4 * ((List.length bs + 2) / 3))%nat.
Proof.
  induction bs as [| a | a b | a b c rest IH] using list_ind3;
    try reflexivity.
  cbn [base64_encode List.length]. rewrite IH.
  replace (S (S (S (List.length rest))) + 2)%nat
    with (1 * 3 + (List.length rest + 2))%nat by lia.
  rewrite Nat.div_add_l by lia. lia.
Qed.

Lemma blocks_length (n : nat) (d : Buffer) : List.length (blocks n d) = n.
Proof.
  revert d. induction n as [|n IH]; intros d; cbn [blocks List.length];
    [reflexivity|now rewrite IH].
Qed.

Lemma full_blocks_length (d : Buffer) :
  List.length (full_blocks d) = (List.length d / block_size)%nat.
Proof. apply blocks_length. Qed.

Lemma leftover_length (d : Buffer) :
  List.length (leftover d) = (List.length d mod block_size)%nat.
Proof.
  unfold leftover. rewrite length_skipn.
  pose proof (Nat.div_mod_eq (List.length d) block_size). lia.
Qed.

Lemma cbc_encrypt_count (E : Buffer -> Buffer -> Buffer) (key chain : Buffer)
      (bs : list Buffer) :
  List.length (fst (cbc_encrypt E key chain bs)) = List.length bs.
Proof.
  revert chain. induction bs as [|b bs IH]; intros chain; cbn [cbc_encrypt];
    [reflexivity|].
  specialize (IH (E key (xor_block b chain))).
  destruct (cbc_encrypt E key _ bs) as [cs ch]. cbn [fst List.length] in *.
  now rewrite IH.
Qed.

(** ** The salt made by [nativeGenerateIvv] *)

Section Workflow.

Variable block_encrypt block_decrypt : Buffer -> Buffer -> Buffer.
Variable pbkdf2_sha256 : Buffer -> Buffer -> N -> N -> Buffer.
Variable random_source : N -> byte.

Local Abbreviation node' :=
  (nodeCrypto block_encrypt block_decrypt pbkdf2_sha256 random_source).
Local Abbreviation web' := (webCrypto block_decrypt pbkdf2_sha256).

Lemma nativeGenerateIvv_node (w : World) :
  nativeCrypto w = Some node' ->
  nativeGenerateIvv w =
    (Normal (Fulfilled
               (base64_encode
                  (map (fun i => random_source (entropy w + N.of_nat i))
                       (seq 0 16)))),
     {| nativeCrypto := nativeCrypto w; browserCrypto := browserCrypto w;
        entropy := entropy w + 16;
        trace := trace w ++ [Call "nativeCrypto.randomBytes"] |}).
Proof.
  intros H. destruct w as [n b e t]. cbn [nativeCrypto] in H. subst n.
  reflexivity.
Qed.

(** X6. Over Node, [nativeGenerateIvv] returns a fulfilled promise: the
    base64 text of the 16 bytes it drew from the random source, which it
    advanced by 16. The text is 24 characters long and decodes to those
    16 bytes, the length [createCipheriv] asks of an IV. [randomBytes] is
    the one primitive invoked. *)
Theorem nativeGenerateIvv_makes_16_byte_salt (w : World) :
  nativeCrypto w = Some node' ->
  exists ivv w',
    nativeGenerateIvv w = (Normal (Fulfilled ivv), w') /\
    base64_decode ivv =
      map (fun i => random_source (entropy w + N.of_nat i)) (seq 0 16) /\
    List.length (base64_decode ivv) = 16%nat /\
    List.length ivv = 24%nat /\
    entropy w' = entropy w + 16 /\
    nativeCrypto w' = nativeCrypto w /\
    events_of nativeGenerateIvv w = [Call "nativeCrypto.randomBytes"].
Proof.
  intros H. eexists _, _. split; [apply (nativeGenerateIvv_node w H)|].
  split; [apply base64_decode_encode|].
  split; [rewrite base64_decode_encode; reflexivity|].
  split; [rewrite base64_encode_length; reflexivity|].
  split; [reflexivity|]. split; [reflexivity|].
  unfold events_of. rewrite (nativeGenerateIvv_node w H). cbn [snd trace].
  now rewrite skipn_app, skipn_all, Nat.sub_diag.
Qed.

(** ** The fingerprint *)

(** X7. Over Node and over the Web Cryptography API the two modules
    compute the same fingerprint for a password and a salt: the base64
    text of PBKDF2 over the UTF-8 bytes of the base64 text of the derived
    key, with the same salt. The native module invokes [pbkdf2Sync]
    twice and nothing else, the browser module [importKey] and
    [deriveBits] twice each; neither draws from the random source. *)
Theorem fingerprints_agree (password salt : JSString) (w : World) :
  nativeCrypto w = Some node' -> browserCrypto w = Some web' ->
  let key :=
    base64_encode
      (pbkdf2_sha256 (utf8_encode password) (base64_decode salt) 100000 32) in
  let fingerprint :=
    base64_encode
      (pbkdf2_sha256 (utf8_encode key) (base64_decode salt) 100000 32) in
  nativeGenerateHash password salt w =
    (Normal (Fulfilled fingerprint),
     add_events w [Call "nativeCrypto.pbkdf2Sync";
                   Call "nativeCrypto.pbkdf2Sync"])
  /\
  browserGenerateHash password salt w =
    (Normal (Fulfilled fingerprint),
     add_events w [Call "browserCrypto.subtle.importKey";
                   Call "browserCrypto.subtle.deriveBits";
                   Call "browserCrypto.subtle.importKey";
                   Call "browserCrypto.subtle.deriveBits"]).
Proof.
  intros Hn Hb key fingerprint. split.
  - unfold nativeGenerateHash.
    rewrite async_then;
      [|apply async_normal|intros a w'; apply async_normal].
    rewrite (nativeGenerateKey_node _ _ _ _ _ _ _ Hn).
    rewrite (nativeGenerateKey_node block_encrypt block_decrypt pbkdf2_sha256
               random_source) by exact Hn.
    now rewrite add_events_app.
  - unfold browserGenerateHash.
    rewrite async_then;
      [|apply async_normal|intros a w'; apply async_normal].
    rewrite (browserGenerateKey_web _ _ _ _ _ Hb).
    rewrite (browserGenerateKey_web block_decrypt pbkdf2_sha256) by exact Hb.
    now rewrite add_events_app.
Qed.

(** ** From the salt to the plaintext *)

Hypothesis encrypt_length : forall key b,
  List.length key = 32%nat -> List.length b = block_size ->
  List.length (block_encrypt key b) = block_size.

Hypothesis decrypt_encrypt : forall key b,
  List.length key = 32%nat -> List.length b = block_size ->
  block_decrypt key (block_encrypt key b) = b.

Hypothesis pbkdf2_length : forall password salt iterations keylen,
  List.length (pbkdf2_sha256 password salt iterations keylen)
  = N.to_nat keylen.

(** X8. The operations of the native module fit together. After
    [nativeInit] with Node's provider, the salt that [nativeGenerateIvv]
    returns and the key that [nativeGenerateKey] derives with it from any
    password are accepted by [nativeEncryptText] for any well-formed
    plaintext, and [nativeDecryptText] with the same key and salt hands
    the sink that plaintext. *)
Theorem generated_salt_and_key_roundtrip
        (password P : JSString) (w : World) :
  is_string P -> well_formed P = true ->
  exists ivv key C w1 w2,
    nativeGenerateIvv (snd (nativeInit node' w))
      = (Normal (Fulfilled ivv), w1) /\
    nativeGenerateKey password ivv w1 = (Normal (Fulfilled key), w2) /\
    sink_output (nativeEncryptText key ivv P) w2 = Some C /\
    sink_output (nativeDecryptText key ivv C) w2 = Some P.
Proof.
  intros HP Hwf.
  set (w0 := snd (nativeInit node' w)).
  assert (H0 : nativeCrypto w0 = Some node') by reflexivity.
  pose (ivv := base64_encode
                 (map (fun i => random_source (entropy w0 + N.of_nat i))
                      (seq 0 16))).
  pose (key := base64_encode
                 (pbkdf2_sha256 (utf8_encode password) (base64_decode ivv)
                                100000 32)).
  assert (Hs : List.length (base64_decode ivv) = 16%nat).
  { subst ivv. rewrite base64_decode_encode. reflexivity. }
  assert (Hk : List.length (base64_decode key) = 32%nat).
  { subst key. rewrite base64_decode_encode. apply pbkdf2_length. }
  exists ivv, key. eexists _, _, _.
  split; [apply (nativeGenerateIvv_node w0 H0)|].
  split; [apply (nativeGenerateKey_node block_encrypt block_decrypt
                   pbkdf2_sha256 random_source); exact H0|].
  set (w2 := add_events _ _).
  assert (H2 : nativeCrypto w2 = Some node') by reflexivity.
  split.
  - apply (nativeEncryptText_node block_encrypt block_decrypt pbkdf2_sha256
             random_source _ _ _ _ H2 Hk Hs).
  - rewrite (nativeDecryptText_node block_encrypt block_decrypt pbkdf2_sha256
               random_source encrypt_length decrypt_encrypt key ivv _
               (utf8_encode P) _ H2 Hk Hs (base64_decode_encode _)).
    now rewrite utf8_decode_encode, toWellFormed_id.
Qed.

(** ** The size of a ciphertext *)

Lemma cbc_pkcs7_encrypt_length (key iv data : Buffer) :
  List.length key = 32%nat -> List.length iv = 16%nat ->
  List.length (cbc_pkcs7_encrypt block_encrypt key iv data)
  = (16 * (List.length data / 16 + 1))%nat.
Proof.
  intros Hk Hiv. unfold cbc_pkcs7_encrypt.
  destruct (full_blocks_spec data) as (Hfb & Hlo & _).
  assert (Hps : Forall (fun b => List.length b = block_size)
                       (full_blocks data ++ [pkcs7_pad (leftover data)])).
  { apply Forall_app. split; [exact Hfb|].
    constructor; [now apply pkcs7_pad_length|constructor]. }
  destruct (cbc_encrypt_length block_encrypt key
              (fun b => encrypt_length key b Hk) iv _ Hiv Hps) as [Hcs _].
  rewrite (concat_blocks_length _ Hcs), cbc_encrypt_count, length_app,
    full_blocks_length.
  reflexivity.
Qed.

(** X9. Over Node, with a key of 32 bytes and a salt of 16, the chunks
    that [nativeEncryptText] hands the sink are, concatenated, the base64
    text of a ciphertext of [16 * (n / 16 + 1)] bytes, [n] being the
    length of the UTF-8 encoding of the plaintext: always at least one
    block, and one whole block more when [n] is a multiple of 16. *)
Theorem ciphertext_size (K IV P : JSString) (w : World) :
  nativeCrypto w = Some node' ->
  List.length (base64_decode K) = 32%nat ->
  List.length (base64_decode IV) = 16%nat ->
  exists C,
    sink_output (nativeEncryptText K IV P) w = Some C /\
    List.length (base64_decode C)
    = (16 * (List.length (utf8_encode P) / 16 + 1))%nat /\
    List.length C
    = (4 * ((16 * (List.length (utf8_encode P) / 16 + 1) + 2) / 3))%nat.
Proof.
  intros Hn Hk Hs. eexists. split.
  - apply (nativeEncryptText_node block_encrypt block_decrypt pbkdf2_sha256
             random_source _ _ _ _ Hn Hk Hs).
  - rewrite base64_encode_length, base64_decode_encode,
      cbc_pkcs7_encrypt_length by assumption.
    split; reflexivity.
Qed.

(** ** Plaintexts that are not well formed *)

Lemma utf8_encode_toWellFormed (s : JSString) :
  utf8_encode (toWellFormed s) = utf8_encode s.
Proof.
  induction s as [s IH] using list_length_ind.
  destruct s as [|c s']; [reflexivity|].
  cbn [toWellFormed utf8_encode].
  destruct (is_high_surrogate c) eqn:Hh.
  - destruct s' as [|d s'']; [reflexivity|].
    destruct (is_low_surrogate d) eqn:Hl.
    + cbn [utf8_encode]. rewrite Hh, Hl, IH by (cbn [List.length]; lia).
      reflexivity.
    + change (utf8_encode (replacement_character :: toWellFormed (d :: s'')))
        with (utf8_bytes replacement_character
                ++ utf8_encode (toWellFormed (d :: s''))).
      rewrite IH by (cbn [List.length]; lia). reflexivity.
  - destruct (is_low_surrogate c) eqn:Hl.
    + change (utf8_encode (replacement_character :: toWellFormed s'))
        with (utf8_bytes replacement_character
                ++ utf8_encode (toWellFormed s')).
      rewrite IH by (cbn [List.length]; lia). reflexivity.
    + cbn [utf8_encode]. rewrite Hh, Hl, IH by (cbn [List.length]; lia).
      reflexivity.
Qed.

(** X10. Over Node, an encryption sees its plaintext only through the
    UTF-8 encoding: a string and the string with each of its unpaired
    surrogates replaced by U+FFFD are encrypted alike, whatever the key,
    the salt and the sink. *)
Theorem encryption_replaces_unpaired_surrogates
        (K IV P : JSString) (event : JSString -> M unit) (w : World) :
  nativeCrypto w = Some node' ->
  nativeEncryptText K IV (toWellFormed P) event w
  = nativeEncryptText K IV P event w.
Proof.
  intros Hn. unfold_module. run_providers. unfold node_create.
  destruct (negb (String.eqb "aes-256-cbc" "aes-256-cbc")); [reflexivity|].
  destruct (negb (List.length (Buffer_from IV base64) =? 16)%nat);
    [reflexivity|].
  destruct (negb (List.length (Buffer_from K base64) =? 32)%nat);
    [reflexivity|].
  cbn [node_cipher cipher_update cipher_start cipher_final cipher_state].
  unfold node_update. cbn [decode_input].
  now rewrite utf8_encode_toWellFormed.
Qed.

(** ** Decryption of any ciphertext *)

Hypothesis decrypt_length : forall key b,
  List.length key = 32%nat -> List.length b = block_size ->
  List.length (block_decrypt key b) = block_size.

Lemma node_decipher_valid (key iv rest : Buffer) (text : JSString) :
  List.length key = 32%nat -> List.length iv = 16%nat ->
  base64_decode text <> [] ->
  (List.length (base64_decode text) mod block_size = 0)%nat ->
  pkcs7_unpad (last (cbc_plain_blocks block_decrypt key iv
                                      (base64_decode text)) []) = Some rest ->
  exists out st fin,
    cipher_update (node_decipher block_decrypt key iv)
                  (cipher_start (node_decipher block_decrypt key iv))
                  text base64 utf8 = Normal (out, st) /\
    cipher_final (node_decipher block_decrypt key iv) st utf8 = Normal fin /\
    out ++ fin =
      utf8_decode
        (List.concat (removelast (cbc_plain_blocks block_decrypt key iv
                                                   (base64_decode text)))
           ++ rest).
Proof.
  intros Hk Hi Hne Hal Hpad.
  destruct (evp_decrypt_aligned block_decrypt key
              (fun b => decrypt_length key b Hk) iv _ Hi Hne Hal)
    as (st & E & Eb & Eh & El).
  set (plain := List.concat
                  (removelast (cbc_plain_blocks block_decrypt key iv
                                                (base64_decode text)))) in *.
  cbn [node_decipher cipher_update cipher_start cipher_final cipher_state].
  unfold node_update, node_final.
  cbn [ncs_evp ncs_decoder getDecoder decode_input]. rewrite E.
  pose proof (utf8_stream plain rest) as Hst.
  destruct (utf8_write_first plain) as [_ (bf & ms & Hd')].
  destruct (decoder_write (newStringDecoder utf8) plain) as [t1 d].
  cbn [snd] in Hd'. subst d.
  eexists _, _, _. split; [reflexivity|].
  cbn [ncs_evp ncs_decoder getDecoder decoder_encoding].
  unfold evp_decrypt_final. rewrite Eb.
  destruct (evp_held st) as [|x l] eqn:Ex; [discriminate El|].
  rewrite Eh, Hpad. split; [reflexivity|exact Hst].
Qed.

Lemma cbc_decrypt_unpad_valid (key iv data rest : Buffer) :
  List.length key = 32%nat -> List.length iv = 16%nat ->
  data <> [] -> (List.length data mod block_size = 0)%nat ->
  pkcs7_unpad (last (cbc_plain_blocks block_decrypt key iv data) [])
    = Some rest ->
  cbc_decrypt_unpad block_decrypt key iv data =
    Some (List.concat (removelast (cbc_plain_blocks block_decrypt key iv data))
            ++ rest).
Proof.
  intros Hk Hi Hne Hal Hpad.
  destruct (plain_blocks_split block_decrypt key
              (fun b => decrypt_length key b Hk) iv data Hi Hne Hal)
    as (L & S1 & S2).
  unfold cbc_decrypt_unpad. rewrite Hal.
  destruct (Nat.eqb_spec (List.length data) 0) as [Z|_].
  - destruct data; [contradiction|discriminate].
  - cbn [Nat.eqb negb orb]. unfold cbc_plain_blocks in *.
    now rewrite S1, S2, Hpad.
Qed.

(** What the two modules hand the sink for a text whose last block has
    valid padding. *)
Lemma valid_padding_decrypts
        (K IV C : JSString) (rest : Buffer) (w : World) :
  nativeCrypto w = Some node' -> browserCrypto w = Some web' ->
  List.length (base64_decode K) = 32%nat ->
  List.length (base64_decode IV) = 16%nat ->
  base64_decode C <> [] ->
  (List.length (base64_decode C) mod block_size = 0)%nat ->
  pkcs7_unpad
    (last (cbc_plain_blocks block_decrypt (base64_decode K) (base64_decode IV)
                            (base64_decode C)) []) = Some rest ->
  sink_output (nativeDecryptText K IV C) w =
    Some (utf8_decode
            (List.concat
               (removelast
                  (cbc_plain_blocks block_decrypt (base64_decode K)
                                    (base64_decode IV) (base64_decode C)))
               ++ rest))
  /\
  sink_output (browserDecryptText K IV C) w =
    Some (TextDecoder_decode
            (List.concat
               (removelast
                  (cbc_plain_blocks block_decrypt (base64_decode K)
                                    (base64_decode IV) (base64_decode C)))
               ++ rest)).
Proof.
  intros Hn Hb Hk Hs Hne Hal Hpad. split.
  - destruct (node_decipher_valid (base64_decode K) (base64_decode IV) rest C
                Hk Hs Hne Hal Hpad) as (out & st & fin & E1 & E2 & E3).
    assert (Ho : cipher_outputs (createDecipheriv node') (Buffer_from K base64)
                   (Buffer_from IV base64) C base64 utf8 out fin).
    { eexists _, _, st. split; [reflexivity|].
      cbn [Buffer_from decode_input].
      rewrite node_create_ok by assumption. auto. }
    assert (Hmk : createCipheriv node' <> None) by discriminate.
    rewrite (sink_output_add _ _ _
               (nativeDecryptText_run _ _ _ _ _ _ _ Hn Hmk Ho)).
    cbn [emitted List.concat]. now rewrite app_nil_r, E3.
  - assert (Ho : subtle_decrypts web' (Buffer_from K base64)
                   (Buffer_from IV base64) (Buffer_from C base64)
                   (List.concat
                      (removelast
                         (cbc_plain_blocks block_decrypt (base64_decode K)
                            (base64_decode IV) (base64_decode C))) ++ rest)).
    { eexists _, _, _, _. split; [reflexivity|].
      split; [reflexivity|]. split; [reflexivity|].
      cbn [Buffer_from decode_input]. unfold subtle_importKey, subtle_decrypt.
      rewrite Hk, Hs.
      cbn [String.eqb Ascii.eqb Bool.eqb negb orb andb subset forallb existsb
           Nat.eqb key_algorithm key_usages key_data].
      split; [reflexivity|].
      cbn [String.eqb Ascii.eqb Bool.eqb negb orb andb subset forallb existsb
           Nat.eqb key_algorithm key_usages key_data].
      now rewrite (cbc_decrypt_unpad_valid _ _ _ rest Hk Hs Hne Hal Hpad). }
    rewrite (sink_output_add _ _ _ (browserDecryptText_run _ _ _ _ _ _ Hb Ho)).
    cbn [emitted List.concat]. now rewrite app_nil_r.
Qed.

(** X11. Decryption checks the padding and nothing else. Over Node and
    over the Web Cryptography API, whenever the text decodes to one or
    more whole blocks and the last of them decrypts, under the key and
    the salt, to a block with valid padding, the call is fulfilled,
    whether or not the text was made by an encryption with that key and
    salt. Both modules decode the same bytes, the plaintext blocks before
    the last and the last without its padding: the native module as
    UTF-8, the browser module as [TextDecoder] does. *)
Theorem decryption_accepts_valid_padding
        (K IV C : JSString) (rest : Buffer) (w : World) :
  nativeCrypto w = Some node' -> browserCrypto w = Some web' ->
  List.length (base64_decode K) = 32%nat ->
  List.length (base64_decode IV) = 16%nat ->
  base64_decode C <> [] ->
  (List.length (base64_decode C) mod block_size = 0)%nat ->
  pkcs7_unpad
    (last (cbc_plain_blocks block_decrypt (base64_decode K) (base64_decode IV)
                            (base64_decode C)) []) = Some rest ->
  sink_output (nativeDecryptText K IV C) w =
    Some (utf8_decode
            (List.concat
               (removelast
                  (cbc_plain_blocks block_decrypt (base64_decode K)
                                    (base64_decode IV) (base64_decode C)))
               ++ rest))
  /\
  sink_output (browserDecryptText K IV C) w =
    Some (TextDecoder_decode
            (List.concat
               (removelast
                  (cbc_plain_blocks block_decrypt (base64_decode K)
                                    (base64_decode IV) (base64_decode C)))
               ++ rest)).
Proof.
  intros Hn Hb Hk Hs Hne Hal Hpad.
  exact (valid_padding_decrypts K IV C rest w Hn Hb Hk Hs Hne Hal Hpad).
Qed.

Lemma evp_decrypt_misaligned (key iv data : Buffer) :
  data = [] \/ (List.length data mod block_size <> 0)%nat ->
  exists st,
    evp_decrypt_update block_decrypt (evp_init key iv) data
    = (List.concat (cbc_plain_blocks block_decrypt key iv data), st) /\
    (evp_buf st <> [] \/ evp_held st = []).
Proof.
  intros [-> | H].
  - exists (evp_init key iv). split; [reflexivity|]. right. reflexivity.
  - unfold evp_decrypt_update, cbc_plain_blocks.
    destruct data as [|x l] eqn:Ed; [contradiction H; reflexivity|].
    rewrite <- Ed in *.
    cbn [evp_init evp_buf evp_key evp_chain evp_held app].
    destruct (cbc_decrypt block_decrypt key iv (full_blocks data)) as [ps ch].
    pose proof (leftover_length data) as L.
    destruct (leftover data) as [|y r] eqn:El.
    + cbn [List.length] in L. congruence.
    + eexists. split; [reflexivity|]. left. cbn [evp_buf]. discriminate.
Qed.

Lemma evp_decrypt_final_misaligned (st : EvpState) :
  evp_buf st <> [] \/ evp_held st = [] ->
  evp_decrypt_final st = Throw (ProviderError "wrong final block length").
Proof.
  unfold evp_decrypt_final. intros [H | H].
  - destruct (evp_buf st); [contradiction|reflexivity].
  - rewrite H. now destruct (evp_buf st).
Qed.

(** X12. A text that decodes to no byte at all, or to a number of bytes
    that is not a multiple of 16, is not a ciphertext. Over Node the
    native decryption finds out in [final]: the sink has by then been
    called once, with the text of the whole blocks that were decrypted
    (the empty string when there is none), less the bytes of a character
    that they cut off at their end, which the stream decoder keeps, and
    the call is rejected with "wrong final block length". In the browser [subtle.decrypt] is
    rejected with an OperationError and the sink is not called. *)
Theorem truncated_ciphertext_rejected (K IV C : JSString) (w : World) :
  nativeCrypto w = Some node' -> browserCrypto w = Some web' ->
  List.length (base64_decode K) = 32%nat ->
  List.length (base64_decode IV) = 16%nat ->
  base64_decode C = [] \/
  (List.length (base64_decode C) mod block_size <> 0)%nat ->
  nativeDecryptText K IV C emit w =
    (Normal (Rejected (ProviderError "wrong final block length")),
     add_events w
       [Call "nativeCrypto.createDecipheriv"; Call "cipher.update";
        Emit (let plain :=
                List.concat
                  (cbc_plain_blocks block_decrypt (base64_decode K)
                     (base64_decode IV) (base64_decode C)) in
              utf8_decode
                (firstn (List.length plain - fst (utf8_incomplete plain))
                        plain));
        Call "cipher.final"])
  /\
  browserDecryptText K IV C emit w =
    (Normal (Rejected (ProviderError "OperationError")),
     add_events w [Call "browserCrypto.subtle.importKey";
                   Call "browserCrypto.subtle.decrypt"]).
Proof.
  intros Hn Hb Hk Hs Hbad. split.
  - destruct (evp_decrypt_misaligned (base64_decode K) (base64_decode IV)
                (base64_decode C) Hbad) as (st & E & Est).
    set (plain := List.concat
                    (cbc_plain_blocks block_decrypt (base64_decode K)
                       (base64_decode IV) (base64_decode C))) in *.
    eapply (nativeDecryptText_final_throws node'
              (node_create (node_decipher block_decrypt))
              (node_decipher block_decrypt (base64_decode K) (base64_decode IV))
              {| ncs_evp := st;
                 ncs_decoder :=
                   Some (snd (decoder_write (newStringDecoder utf8) plain)) |}).
    + exact Hn.
    + discriminate.
    + reflexivity.
    + cbn [Buffer_from decode_input]. now apply node_create_ok.
    + cbn [node_decipher cipher_update cipher_start cipher_state].
      unfold node_update.
      cbn [ncs_evp ncs_decoder getDecoder decode_input].
      rewrite E, utf8_write_fresh. reflexivity.
    + cbn [node_decipher cipher_final]. unfold node_final.
      cbn [ncs_evp ncs_decoder].
      now rewrite evp_decrypt_final_misaligned.
  - assert (E : cbc_decrypt_unpad block_decrypt (base64_decode K)
                  (base64_decode IV) (base64_decode C) = None).
    { unfold cbc_decrypt_unpad. destruct Hbad as [-> | H]; [reflexivity|].
      destruct (Nat.eqb_spec (List.length (base64_decode C) mod block_size) 0);
        [contradiction|].
      cbn [negb]. now rewrite orb_true_r. }
    eapply (proj2 (browserDecryptText_rejected web' _ subtle_importKey K IV C _ w
                     Hb eq_refl eq_refl)).
    + cbn [Buffer_from decode_input]. unfold subtle_importKey. rewrite Hk.
      reflexivity.
    + reflexivity.
    + cbn [Buffer_from decode_input]. unfold subtle_decrypt.
      cbn [String.eqb Ascii.eqb Bool.eqb negb orb andb existsb
           key_algorithm key_usages key_data].
      now rewrite Hs, E.
Qed.

(** ** A plaintext shorter than a block *)

Lemma cbc_pkcs7_encrypt_short (key iv data : Buffer) :
  (List.length data < block_size)%nat ->
  cbc_pkcs7_encrypt block_encrypt key iv data
  = block_encrypt key (xor_block (pkcs7_pad data) iv).
Proof.
  intros H. destruct (full_blocks_short data H) as [E1 E2].
  unfold cbc_pkcs7_encrypt. rewrite E1, E2.
  cbn [app cbc_encrypt fst List.concat]. apply app_nil_r.
Qed.

Lemma node_cipher_short (key iv : Buffer) (text : JSString) :
  (List.length (utf8_encode text) < block_size)%nat ->
  exists st,
    cipher_update (node_cipher block_encrypt key iv)
                  (cipher_start (node_cipher block_encrypt key iv))
                  text utf8 base64 = Normal ([], st) /\
    cipher_final (node_cipher block_encrypt key iv) st base64 =
      Normal (base64_encode
                (cbc_pkcs7_encrypt block_encrypt key iv (utf8_encode text))).
Proof.
  intros H. rewrite (cbc_pkcs7_encrypt_short key iv _ H).
  destruct (full_blocks_short _ H) as [E1 E2].
  cbn [node_cipher cipher_update cipher_start cipher_final cipher_state].
  unfold node_update, node_final.
  cbn [ncs_evp ncs_decoder getDecoder decode_input].
  unfold evp_encrypt_update, evp_encrypt_final.
  cbn [evp_init evp_key evp_chain evp_buf app]. rewrite E1, E2.
  cbn [cbc_encrypt List.concat newStringDecoder decoder_write app List.length
       Nat.modulo Nat.divmod Nat.sub fst snd firstn skipn base64_encode].
  eexists. split; [reflexivity|].
  cbn [ncs_evp ncs_decoder getDecoder decoder_encoding evp_key evp_chain
       evp_buf].
  f_equal.
  exact (base64_stream [] (block_encrypt key (xor_block (pkcs7_pad (utf8_encode text)) iv))).
Qed.

Lemma node_decipher_short (key iv data : Buffer) (text : JSString) :
  List.length key = 32%nat -> List.length iv = 16%nat ->
  (List.length data < block_size)%nat ->
  base64_decode text = cbc_pkcs7_encrypt block_encrypt key iv data ->
  exists st,
    cipher_update (node_decipher block_decrypt key iv)
                  (cipher_start (node_decipher block_decrypt key iv))
                  text base64 utf8 = Normal ([], st) /\
    cipher_final (node_decipher block_decrypt key iv) st utf8 =
      Normal (utf8_decode data).
Proof.
  intros Hk Hi H Ht.
  destruct (evp_decrypt_ciphertext block_encrypt block_decrypt encrypt_length
              decrypt_encrypt key iv data Hk Hi) as (st & E & Eb & Eh).
  destruct (full_blocks_short _ H) as [E1 E2]. rewrite E1, E2 in *.
  cbn [node_decipher cipher_update cipher_start cipher_final cipher_state].
  unfold node_update, node_final.
  cbn [ncs_evp ncs_decoder getDecoder decode_input]. rewrite Ht, E.
  cbn [List.concat]. change (decoder_write (newStringDecoder utf8) [])
    with (@nil N, newStringDecoder utf8).
  eexists. split; [reflexivity|].
  cbn [ncs_evp ncs_decoder getDecoder decoder_encoding newStringDecoder].
  unfold evp_decrypt_final. rewrite Eb, Eh.
  destruct (pkcs7_pad_cons _ H) as (x & l & Ep). rewrite Ep, <- Ep.
  rewrite pkcs7_unpad_pad by exact H.
  f_equal. exact (utf8_stream [] data).
Qed.

(** X13. Over Node, when the UTF-8 encoding of the plaintext is shorter
    than 16 bytes (the empty plaintext included), [update] has no whole
    block to put out: the sink is first called with the empty string and
    then, after [final], with the whole ciphertext, 24 characters. The
    decryption of that ciphertext likewise calls the sink with the empty
    string first and with the whole text after [final]. *)
Theorem short_plaintext_chunks (K IV P : JSString) (w : World) :
  nativeCrypto w = Some node' ->
  List.length (base64_decode K) = 32%nat ->
  List.length (base64_decode IV) = 16%nat ->
  (List.length (utf8_encode P) < 16)%nat ->
  exists C,
    List.length C = 24%nat /\
    nativeEncryptText K IV P emit w =
      (Normal (Fulfilled tt),
       add_events w [Call "nativeCrypto.createCipheriv"; Call "cipher.update";
                     Emit []; Call "cipher.final"; Emit C]) /\
    nativeDecryptText K IV C emit w =
      (Normal (Fulfilled tt),
       add_events w [Call "nativeCrypto.createDecipheriv"; Call "cipher.update";
                     Emit []; Call "cipher.final";
                     Emit (utf8_decode (utf8_encode P))]).
Proof.
  intros Hn Hk Hs Hlen.
  exists (base64_encode
            (cbc_pkcs7_encrypt block_encrypt (base64_decode K)
                               (base64_decode IV) (utf8_encode P))).
  split; [|split].
  - rewrite base64_encode_length, cbc_pkcs7_encrypt_length by assumption.
    rewrite (Nat.div_small (List.length (utf8_encode P)) 16) by exact Hlen.
    reflexivity.
  - destruct (node_cipher_short (base64_decode K) (base64_decode IV) P Hlen)
      as (st & E1 & E2).
    apply (nativeEncryptText_run node' _ _ _ _ _ _ Hn).
    eexists _, _, st. split; [reflexivity|].
    cbn [Buffer_from decode_input].
    rewrite node_create_ok by assumption. auto.
  - destruct (node_decipher_short (base64_decode K) (base64_decode IV)
                (utf8_encode P) _ Hk Hs Hlen (base64_decode_encode _))
      as (st & E1 & E2).
    apply (nativeDecryptText_run node' _ _ _ _ _ _ Hn); [discriminate|].
    eexists _, _, st. split; [reflexivity|].
    cbn [Buffer_from decode_input].
    rewrite node_create_ok by assumption. auto.
Qed.

(** ** Decryption with another salt *)

Lemma cbc_plain_blocks_other_iv (key iv iv' data : Buffer) :
  List.length key = 32%nat -> List.length iv = 16%nat ->
  (block_size <= List.length data)%nat ->
  let cs := fst (cbc_encrypt block_encrypt key iv
                   (full_blocks data ++ [pkcs7_pad (leftover data)])) in
  fst (cbc_decrypt block_decrypt key iv' cs)
  = (xor_block (xor_block (firstn block_size data) iv) iv'
       :: tl (full_blocks data)) ++ [pkcs7_pad (leftover data)].
Proof.
  intros Hk Hi Hlen cs.
  destruct (ciphertext_blocks block_encrypt block_decrypt key
              (fun b => encrypt_length key b Hk)
              (fun b => decrypt_encrypt key b Hk) iv data Hi)
    as (_ & _ & _ & E4 & _).
  fold cs in E4. subst cs.
  destruct (full_blocks_spec data) as (Hfb & _ & Hd).
  pose proof (full_blocks_length data) as L.
  assert (Hdiv : (1 <= List.length data / block_size)%nat).
  { apply Nat.div_le_lower_bound; unfold block_size in *; lia. }
  assert (Hb1 : firstn block_size data = hd [] (full_blocks data)).
  { destruct (full_blocks data) as [|b1 fbs]; [cbn [List.length] in L; lia|].
    pose proof (Forall_inv Hfb) as H1. cbn beta in H1. rewrite <- Hd at 1.
    cbn [List.concat hd]. rewrite <- app_assoc, firstn_app, H1, Nat.sub_diag.
    rewrite firstn_O, app_nil_r. rewrite <- H1. apply firstn_all. }
  destruct (full_blocks data) as [|b1 fbs]; [cbn [List.length] in L; lia|].
  cbn [hd] in Hb1. rewrite Hb1. cbn [tl app cbc_encrypt] in *.
  pose proof (Forall_inv Hfb) as H1. cbn beta in H1.
  destruct (cbc_encrypt block_encrypt key
              (block_encrypt key (xor_block b1 iv))
              (fbs ++ [pkcs7_pad (leftover data)])) as [cs' ch].
  cbn [fst cbc_decrypt] in *.
  destruct (cbc_decrypt block_decrypt key
              (block_encrypt key (xor_block b1 iv)) cs') as [bs ch'].
  cbn [fst] in *. injection E4 as _ E4. subst bs.
  assert (Hx : List.length (xor_block b1 iv) = block_size).
  { rewrite xor_block_length; [exact H1|]. rewrite H1, Hi. reflexivity. }
  rewrite (decrypt_encrypt key _ Hk Hx). reflexivity.
Qed.

(** X14. The salt is the IV of the cipher and is not checked by it. Over
    Node and over the Web Cryptography API, a ciphertext of a plaintext
    of 16 UTF-8 bytes or more is decrypted without error under the same
    key and any other 16-byte salt: the bytes that are decoded for the
    sink are those of the plaintext, the first 16 of them combined by
    exclusive or with the salt of the encryption and with the salt of the
    decryption. *)
Theorem decryption_with_another_salt (K IV IV' P : JSString) (w : World) :
  nativeCrypto w = Some node' -> browserCrypto w = Some web' ->
  List.length (base64_decode K) = 32%nat ->
  List.length (base64_decode IV) = 16%nat ->
  List.length (base64_decode IV') = 16%nat ->
  (16 <= List.length (utf8_encode P))%nat ->
  exists C,
    sink_output (nativeEncryptText K IV P) w = Some C /\
    sink_output (nativeDecryptText K IV' C) w =
      Some (utf8_decode
              (xor_block (xor_block (firstn 16 (utf8_encode P))
                                    (base64_decode IV))
                         (base64_decode IV')
                 ++ skipn 16 (utf8_encode P))) /\
    sink_output (browserDecryptText K IV' C) w =
      Some (TextDecoder_decode
              (xor_block (xor_block (firstn 16 (utf8_encode P))
                                    (base64_decode IV))
                         (base64_decode IV')
                 ++ skipn 16 (utf8_encode P))).
Proof.
  intros Hn Hb Hk Hs Hs' Hlen.
  set (key := base64_decode K) in *. set (iv := base64_decode IV) in *.
  set (iv' := base64_decode IV') in *. set (data := utf8_encode P) in *.
  exists (base64_encode (cbc_pkcs7_encrypt block_encrypt key iv data)).
  split.
  { apply (nativeEncryptText_node block_encrypt block_decrypt pbkdf2_sha256
             random_source _ _ _ _ Hn Hk Hs). }
  destruct (ciphertext_blocks block_encrypt block_decrypt key
              (fun b => encrypt_length key b Hk)
              (fun b => decrypt_encrypt key b Hk) iv data Hs)
    as (E1 & E2 & _ & _ & E5).
  pose proof (cbc_plain_blocks_other_iv key iv iv' data Hk Hs Hlen) as Hps.
  cbv zeta in Hps.
  set (cs := fst (cbc_encrypt block_encrypt key iv
                    (full_blocks data ++ [pkcs7_pad (leftover data)]))) in *.
  destruct (full_blocks_spec data) as (Hfb & Hlo & Hd).
  set (first := xor_block (xor_block (firstn block_size data) iv) iv') in *.
  assert (Hblocks : cbc_plain_blocks block_decrypt key iv'
                      (base64_decode
                         (base64_encode
                            (cbc_pkcs7_encrypt block_encrypt key iv data)))
                    = (first :: tl (full_blocks data))
                        ++ [pkcs7_pad (leftover data)]).
  { rewrite base64_decode_encode, E1. unfold cbc_plain_blocks.
    now rewrite E2. }
  assert (Hplain : List.concat (first :: tl (full_blocks data)) ++ leftover data
                   = first ++ skipn 16 data).
  { cbn [List.concat]. rewrite <- app_assoc. f_equal.
    pose proof (full_blocks_length data) as L.
    assert (Hdiv : (1 <= List.length data / block_size)%nat).
    { apply Nat.div_le_lower_bound; unfold block_size in *; lia. }
    destruct (full_blocks data) as [|b1 fbs]; [cbn [List.length] in L; lia|].
    pose proof (Forall_inv Hfb) as H1. cbn beta in H1. cbn [tl].
    rewrite <- Hd at 2. cbn [List.concat]. rewrite <- app_assoc.
    change 16%nat with block_size. rewrite <- H1.
    now rewrite skipn_app, skipn_all, Nat.sub_diag. }
  assert (Hne : base64_decode
                  (base64_encode (cbc_pkcs7_encrypt block_encrypt key iv data))
                <> []).
  { rewrite base64_decode_encode, E1. exact E5. }
  assert (Hal : (List.length
                   (base64_decode
                      (base64_encode
                         (cbc_pkcs7_encrypt block_encrypt key iv data)))
                 mod block_size = 0)%nat).
  { rewrite base64_decode_encode, cbc_pkcs7_encrypt_length by assumption.
    unfold block_size. now rewrite Nat.mul_comm, Nat.Div0.mod_mul. }
  assert (Hpad : pkcs7_unpad
                   (last (cbc_plain_blocks block_decrypt key iv'
                            (base64_decode
                               (base64_encode
                                  (cbc_pkcs7_encrypt block_encrypt key iv
                                                     data)))) [])
                 = Some (leftover data)).
  { rewrite Hblocks, last_last. now apply pkcs7_unpad_pad. }
  pose proof (valid_padding_decrypts K IV' _ (leftover data) w Hn Hb Hk Hs'
                Hne Hal Hpad) as [R1 R2].
  fold key iv' in R1, R2.
  rewrite Hblocks, removelast_last, Hplain in R1, R2.
  split; assumption.
Qed.

(** ** Two plaintexts under one key and one salt *)

Lemma full_blocks_app (bs : list Buffer) (rest : Buffer) :
  Forall (fun b => List.length b = block_size) bs ->
  full_blocks (List.concat bs ++ rest) = bs ++ full_blocks rest /\
  leftover (List.concat bs ++ rest) = leftover rest.
Proof.
  induction 1 as [|b bs Hb _ [IH1 IH2]]; [now split|].
  cbn [List.concat app]. rewrite <- app_assoc.
  rewrite (full_blocks_cons _ _ Hb), (leftover_cons _ _ Hb), IH1, IH2.
  now split.
Qed.

Lemma cbc_pkcs7_encrypt_prefix (key iv a b : Buffer) :
  List.length key = 32%nat -> List.length iv = 16%nat ->
  (List.length a mod block_size = 0)%nat ->
  firstn (List.length a) (cbc_pkcs7_encrypt block_encrypt key iv (a ++ b))
  = List.concat (fst (cbc_encrypt block_encrypt key iv (full_blocks a))).
Proof.
  intros Hk Hi Hal.
  destruct (full_blocks_spec a) as (Hfa & _ & _).
  destruct (aligned_blocks a Hal) as [_ Hcat].
  destruct (full_blocks_app (full_blocks a) b Hfa) as [F1 F2].
  rewrite Hcat in F1, F2.
  unfold cbc_pkcs7_encrypt. rewrite F1, F2, <- app_assoc, cbc_encrypt_app.
  destruct (cbc_encrypt_length block_encrypt key
              (fun x => encrypt_length key x Hk) iv _ Hi Hfa) as [Hcs _].
  pose proof (cbc_encrypt_count block_encrypt key iv (full_blocks a)) as Hn.
  destruct (cbc_encrypt block_encrypt key iv (full_blocks a)) as [cs1 ch].
  destruct (cbc_encrypt block_encrypt key ch _) as [cs2 ch'].
  cbn [fst] in *. rewrite concat_app.
  assert (L : List.length (List.concat cs1) = List.length a).
  { rewrite (concat_blocks_length _ Hcs), Hn, <- (concat_blocks_length _ Hfa).
    now rewrite Hcat. }
  rewrite <- L, firstn_app, firstn_all, Nat.sub_diag, firstn_O.
  apply app_nil_r.
Qed.

(** X15. The salt is the only IV: under one key and one salt, two
    plaintexts whose UTF-8 encodings begin with the same whole blocks
    have ciphertexts that begin with the same bytes, as many as the
    blocks they share. *)
Theorem shared_prefix_shows_in_ciphertext
        (K IV P1 P2 : JSString) (a b1 b2 : Buffer) (w : World) :
  nativeCrypto w = Some node' ->
  List.length (base64_decode K) = 32%nat ->
  List.length (base64_decode IV) = 16%nat ->
  utf8_encode P1 = a ++ b1 -> utf8_encode P2 = a ++ b2 ->
  (List.length a mod 16 = 0)%nat ->
  exists C1 C2,
    sink_output (nativeEncryptText K IV P1) w = Some C1 /\
    sink_output (nativeEncryptText K IV P2) w = Some C2 /\
    firstn (List.length a) (base64_decode C1)
    = firstn (List.length a) (base64_decode C2).
Proof.
  intros Hn Hk Hs E1 E2 Hal. eexists _, _.
  split; [apply (nativeEncryptText_node block_encrypt block_decrypt
                   pbkdf2_sha256 random_source _ _ _ _ Hn Hk Hs)|].
  split; [apply (nativeEncryptText_node block_encrypt block_decrypt
                   pbkdf2_sha256 random_source _ _ _ _ Hn Hk Hs)|].
  rewrite !base64_decode_encode, E1, E2.
  now rewrite !cbc_pkcs7_encrypt_prefix by assumption.
Qed.

(** ** A plaintext that begins with a byte order mark *)

(** X16. Of one ciphertext of a well-formed plaintext the two modules
    give the sink the same text, except that the [TextDecoder] of the
    browser module drops one leading U+FEFF: the native decryption
    returns the plaintext, the browser decryption the plaintext without
    its first character when that is U+FEFF. *)
Theorem browser_decryption_drops_byte_order_mark
        (K IV P : JSString) (w : World) :
  nativeCrypto w = Some node' -> browserCrypto w = Some web' ->
  List.length (base64_decode K) = 32%nat ->
  List.length (base64_decode IV) = 16%nat ->
  is_string P -> well_formed P = true ->
  exists C,
    sink_output (nativeEncryptText K IV P) w = Some C /\
    sink_output (nativeDecryptText K IV C) w = Some P /\
    sink_output (browserDecryptText K IV C) w =
      Some (if starts_with_bom P then tl P else P).
Proof.
  intros Hn Hb Hk Hs HP Hwf. eexists. split; [|split].
  - apply (nativeEncryptText_node block_encrypt block_decrypt pbkdf2_sha256
             random_source _ _ _ _ Hn Hk Hs).
  - rewrite (nativeDecryptText_node block_encrypt block_decrypt pbkdf2_sha256
               random_source encrypt_length decrypt_encrypt K IV _
               (utf8_encode P) _ Hn Hk Hs (base64_decode_encode _)).
    now rewrite utf8_decode_encode, toWellFormed_id.
  - rewrite (browserDecryptText_web block_encrypt block_decrypt pbkdf2_sha256
               encrypt_length decrypt_encrypt K IV _ (utf8_encode P) _
               Hb Hk Hs (base64_decode_encode _)).
    unfold TextDecoder_decode.
    now rewrite utf8_decode_encode, toWellFormed_id.
Qed.

(** ** The two chunks of an encryption *)

Lemma decoder_end_base64 (a b : Buffer) :
  decoder_end (snd (decoder_write (newStringDecoder base64) a)) b
  = base64_encode
      (skipn (List.length a - List.length a mod 3) a ++ b).
Proof.
  pose proof (base64_stream a b) as H.
  cbn [newStringDecoder decoder_write app snd] in *.
  set (m := (List.length a - List.length a mod 3)%nat) in *.
  assert (Hm : (List.length (firstn m a) mod 3 = 0)%nat).
  { pose proof (Nat.Div0.mod_le (List.length a) 3).
    rewrite length_firstn, Nat.min_l by (subst m; lia). subst m.
    pose proof (Nat.div_mod_eq (List.length a) 3).
    replace (List.length a - List.length a mod 3)%nat
      with ((List.length a / 3) * 3)%nat by lia.
    apply Nat.Div0.mod_mul. }
  assert (E : a ++ b = firstn m a ++ (skipn m a ++ b))
    by now rewrite app_assoc, firstn_skipn.
  rewrite E, (base64_encode_app _ _ Hm) in H.
  exact (app_inv_head _ _ _ H).
Qed.

Lemma node_cipher_chunks (key iv : Buffer) (text : JSString) :
  List.length key = 32%nat -> List.length iv = 16%nat ->
  let ct := cbc_pkcs7_encrypt block_encrypt key iv (utf8_encode text) in
  let whole := (16 * (List.length (utf8_encode text) / 16))%nat in
  let m := (whole - whole mod 3)%nat in
  exists st,
    cipher_update (node_cipher block_encrypt key iv)
                  (cipher_start (node_cipher block_encrypt key iv))
                  text utf8 base64 = Normal (base64_encode (firstn m ct), st) /\
    cipher_final (node_cipher block_encrypt key iv) st base64 =
      Normal (base64_encode (skipn m ct)).
Proof.
  intros Hk Hi ct whole m.
  destruct (full_blocks_spec (utf8_encode text)) as (Hfb & _ & _).
  destruct (cbc_encrypt_length block_encrypt key
              (fun x => encrypt_length key x Hk) iv _ Hi Hfb) as [Hcs _].
  pose proof (cbc_encrypt_count block_encrypt key iv
                (full_blocks (utf8_encode text))) as Hn.
  rewrite full_blocks_length in Hn.
  subst ct. unfold cbc_pkcs7_encrypt. rewrite cbc_encrypt_app.
  cbn [node_cipher cipher_update cipher_start cipher_final cipher_state].
  unfold node_update, node_final.
  cbn [ncs_evp ncs_decoder getDecoder decode_input].
  unfold evp_encrypt_update, evp_encrypt_final.
  cbn [evp_init evp_key evp_chain evp_buf app].
  destruct (cbc_encrypt block_encrypt key iv (full_blocks (utf8_encode text)))
    as [cs chain].
  cbn [cbc_encrypt fst] in *.
  rewrite concat_app. cbn [List.concat]. rewrite app_nil_r.
  assert (L : List.length (List.concat cs) = whole).
  { rewrite (concat_blocks_length _ Hcs), Hn. reflexivity. }
  assert (Hm : (m <= List.length (List.concat cs))%nat) by (subst m; lia).
  pose proof (decoder_end_base64 (List.concat cs)
                (block_encrypt key
                   (xor_block (pkcs7_pad (leftover (utf8_encode text))) chain)))
    as Hend.
  rewrite L in Hend. fold m in Hend.
  destruct (decoder_write (newStringDecoder base64) (List.concat cs))
    as [t1 d] eqn:Ed.
  assert (Hd : t1 = base64_encode (firstn m (List.concat cs))
               /\ exists p, d = Base64Decoder p).
  { cbn [newStringDecoder decoder_write app] in Ed. rewrite L in Ed.
    fold m in Ed. injection Ed as <- <-. eauto. }
  destruct Hd as [-> [p ->]]. cbn [snd] in Hend.
  eexists. split.
  - rewrite firstn_app.
    replace (m - List.length (List.concat cs))%nat with 0%nat by lia.
    rewrite firstn_O, app_nil_r. reflexivity.
  - cbn [ncs_evp ncs_decoder getDecoder decoder_encoding evp_key evp_chain
         evp_buf].
    rewrite Hend, skipn_app.
    replace (m - List.length (List.concat cs))%nat with 0%nat by lia.
    reflexivity.
Qed.

(** X17. Over Node, the two chunks that an encryption hands the sink
    split the ciphertext at a multiple of 3 bytes, the largest that is
    not above the bytes [update] can put out (the whole blocks of the
    input): the first chunk is the base64 text of the bytes before the
    split, the second that of the bytes after it. The first chunk thus
    carries no padding character and the chunks, put together, are the
    base64 text of the ciphertext. *)
Theorem encryption_chunks (K IV P : JSString) (w : World) :
  nativeCrypto w = Some node' ->
  List.length (base64_decode K) = 32%nat ->
  List.length (base64_decode IV) = 16%nat ->
  let ct := cbc_pkcs7_encrypt block_encrypt (base64_decode K)
                              (base64_decode IV) (utf8_encode P) in
  let whole := (16 * (List.length (utf8_encode P) / 16))%nat in
  let m := (whole - whole mod 3)%nat in
  nativeEncryptText K IV P emit w =
    (Normal (Fulfilled tt),
     add_events w [Call "nativeCrypto.createCipheriv"; Call "cipher.update";
                   Emit (base64_encode (firstn m ct)); Call "cipher.final";
                   Emit (base64_encode (skipn m ct))])
  /\ (List.length (firstn m ct) mod 3 = 0)%nat
  /\ base64_encode (firstn m ct) ++ base64_encode (skipn m ct)
     = base64_encode ct.
Proof.
  intros Hn Hk Hs ct whole m.
  assert (Hlen : (m <= List.length ct)%nat).
  { subst ct m whole. rewrite cbc_pkcs7_encrypt_length by assumption. lia. }
  assert (Hm : (List.length (firstn m ct) mod 3 = 0)%nat).
  { rewrite length_firstn, Nat.min_l by exact Hlen. subst m.
    pose proof (Nat.div_mod_eq whole 3).
    replace (whole - whole mod 3)%nat with ((whole / 3) * 3)%nat by lia.
    apply Nat.Div0.mod_mul. }
  split; [|split].
  - destruct (node_cipher_chunks (base64_decode K) (base64_decode IV) P Hk Hs)
      as (st & E1 & E2).
    apply (nativeEncryptText_run node' _ _ _ _ _ _ Hn).
    eexists _, _, st. split; [reflexivity|].
    cbn [Buffer_from decode_input].
    rewrite node_create_ok by assumption. auto.
  - exact Hm.
  - now rewrite <- (base64_encode_app _ _ Hm), firstn_skipn.
Qed.

End Workflow.

(** * The further properties at concrete inputs *)

Lemma native_module_before_init_witness :
  nativeGenerateIvv new_world =
    (Throw (TypeError
              "Cannot read properties of undefined (reading 'randomBytes')"),
     new_world)
  /\ nativeGenerateKey (js "correct-horse") salt16 new_world =
    (Normal (Rejected (TypeError
              "Cannot read properties of undefined (reading 'randomBytes')")),
     new_world)
  /\ nativeGenerateHash (js "correct-horse") salt16 new_world =
    (Normal (Rejected (TypeError
              "Cannot read properties of undefined (reading 'randomBytes')")),
     new_world)
  /\ nativeEncryptText key32 salt16 (js "hello world") emit new_world =
    (Normal (Rejected (TypeError
              "Cannot read properties of undefined (reading 'createCipheriv')")),
     new_world)
  /\ nativeDecryptText key32 salt16 (js "hello world") emit new_world =
    (Normal (Rejected (TypeError
              "Cannot read properties of undefined (reading 'createCipheriv')")),
     new_world).
Proof.
  apply (native_module_before_init (js "correct-horse") salt16 key32
           (js "hello world") emit new_world).
  reflexivity.
Defined.

Lemma browser_module_before_init_witness :
  browserGenerateKey (js "correct-horse") salt16 (world_with_native node) =
    (Normal (Rejected (TypeError
              "Cannot read properties of undefined (reading 'subtle')")),
     world_with_native node)
  /\ browserGenerateHash (js "correct-horse") salt16 (world_with_native node) =
    (Normal (Rejected (TypeError
              "Cannot read properties of undefined (reading 'subtle')")),
     world_with_native node)
  /\ browserDecryptText key32 salt16 (js "hello world") emit
       (world_with_native node) =
    (Normal (Rejected (TypeError
              "Cannot read properties of undefined (reading 'subtle')")),
     world_with_native node).
Proof.
  apply (browser_module_before_init (js "correct-horse") salt16 key32
           (js "hello world") emit (world_with_native node)).
  reflexivity.
Defined.

Lemma native_checks_guard_witness :
  nativeGenerateIvv (world_with_native pbkdf2_only) =
    (Throw (Error "nativeCrypto.randomBytes is not supported"),
     world_with_native pbkdf2_only)
  /\
  nativeEncryptText key32 salt16 (js "hello world") emit
    (world_with_native decrypt_only) =
    (Normal (Rejected (Error "nativeCrypto.createCipheriv is not supported")),
     world_with_native decrypt_only).
Proof.
  split.
  - apply (proj1 (native_checks_guard pbkdf2_only key32 salt16
                    (js "hello world") emit (world_with_native pbkdf2_only)
                    eq_refl)).
    reflexivity.
  - apply (proj2 (native_checks_guard decrypt_only key32 salt16
                    (js "hello world") emit (world_with_native decrypt_only)
                    eq_refl)).
    reflexivity.
Defined.

Lemma browser_checks_guard_witness :
  (browserGenerateKey (js "correct-horse") salt16
     (world_with_browser {| subtle := None |}) =
     (Normal (Rejected
                (Error "browserCrypto.subtle.importKey is not supported")),
      world_with_browser {| subtle := None |})
   /\ browserGenerateHash (js "correct-horse") salt16
        (world_with_browser {| subtle := None |}) =
     (Normal (Rejected
                (Error "browserCrypto.subtle.importKey is not supported")),
      world_with_browser {| subtle := None |})
   /\ browserDecryptText key32 salt16 (js "hello world") emit
        (world_with_browser {| subtle := None |}) =
     (Normal (Rejected
                (Error "browserCrypto.subtle.importKey is not supported")),
      world_with_browser {| subtle := None |}))
  /\
  browserDecryptText key32 salt16 (js "hello world") emit
    (world_with_browser
       {| subtle := Some {| importKey := None; deriveBits := None;
                            decrypt := None |} |}) =
    (Normal (Rejected
               (Error "browserCrypto.subtle.importKey is not supported")),
     world_with_browser
       {| subtle := Some {| importKey := None; deriveBits := None;
                            decrypt := None |} |}).
Proof.
  split.
  - apply (browser_checks_guard {| subtle := None |} (js "correct-horse")
             salt16 key32 (js "hello world") emit
             (world_with_browser {| subtle := None |}) eq_refl).
    left. reflexivity.
  - apply (browser_checks_guard
             {| subtle := Some {| importKey := None; deriveBits := None;
                                  decrypt := None |} |}
             (js "correct-horse") salt16 key32 (js "hello world") emit
             (world_with_browser
                {| subtle := Some {| importKey := None; deriveBits := None;
                                     decrypt := None |} |}) eq_refl).
    right. eexists. split; reflexivity.
Defined.

Lemma sink_exception_rejects_witness :
  nativeEncryptText key32 salt16 (js "transfer 100 to bob!")
    (fun _ => throw (Error "sink closed")) initialised =
    (Normal (Rejected (Error "sink closed")),
     add_events initialised [Call "nativeCrypto.createCipheriv";
                             Call "cipher.update"])
  /\
  nativeDecryptText key32 salt16
    (js "zCLOOJQenf4F+m77z9YKc620Y0OZMx6gQCXlfsIII6c=")
    (fun _ => throw (Error "sink closed")) initialised =
    (Normal (Rejected (Error "sink closed")),
     add_events initialised [Call "nativeCrypto.createDecipheriv";
                             Call "cipher.update"])
  /\
  browserDecryptText key32 salt16
    (js "zCLOOJQenf4F+m77z9YKc620Y0OZMx6gQCXlfsIII6c=")
    (fun _ => throw (Error "sink closed")) initialised =
    (Normal (Rejected (Error "sink closed")),
     add_events initialised [Call "browserCrypto.subtle.importKey";
                             Call "browserCrypto.subtle.decrypt"]).
Proof.
  split; [|split].
  - eapply (proj1 (sink_exception_rejects key32 salt16
                     (js "transfer 100 to bob!") _ _ initialised _)
              node (node_create (node_cipher aes_encrypt_block))
              (node_cipher aes_encrypt_block (base64_decode key32)
                           (base64_decode salt16))).
    + reflexivity.
    + reflexivity.
    + cbn [Buffer_from decode_input].
      apply node_create_ok; vm_compute; reflexivity.
    + vm_compute. reflexivity.
    + reflexivity.
  - eapply (proj1 (proj2 (sink_exception_rejects key32 salt16
                            (js "zCLOOJQenf4F+m77z9YKc620Y0OZMx6gQCXlfsIII6c=")
                            _ _ initialised _))
              node (node_create (node_decipher aes_decrypt_block))
              (node_decipher aes_decrypt_block (base64_decode key32)
                             (base64_decode salt16))).
    + reflexivity.
    + discriminate.
    + reflexivity.
    + cbn [Buffer_from decode_input].
      apply node_create_ok; vm_compute; reflexivity.
    + vm_compute. reflexivity.
    + reflexivity.
  - eapply (proj2 (proj2 (sink_exception_rejects key32 salt16
                            (js "zCLOOJQenf4F+m77z9YKc620Y0OZMx6gQCXlfsIII6c=")
                            _ _ initialised _))
              web (utf8_encode (js "transfer 100 to bob!"))).
    + reflexivity.
    + eexists _, _, _, _. split; [reflexivity|]. split; [reflexivity|].
      split; [reflexivity|]. split; [vm_compute; reflexivity|].
      vm_compute. reflexivity.
    + reflexivity.
Defined.

Lemma nativeGenerateIvv_makes_16_byte_salt_witness :
  exists ivv w',
    nativeGenerateIvv initialised = (Normal (Fulfilled ivv), w') /\
    base64_decode ivv =
      map (fun i => counter_source (entropy initialised + N.of_nat i))
          (seq 0 16) /\
    List.length (base64_decode ivv) = 16%nat /\
    List.length ivv = 24%nat /\
    entropy w' = entropy initialised + 16 /\
    nativeCrypto w' = nativeCrypto initialised /\
    events_of nativeGenerateIvv initialised = [Call "nativeCrypto.randomBytes"].
Proof.
  apply (nativeGenerateIvv_makes_16_byte_salt aes_encrypt_block
           aes_decrypt_block pbkdf2_hmac_sha256 counter_source initialised).
  reflexivity.
Defined.

(** The salt drawn in the initial state of the counting source is the
    base64 text of the bytes 00 01 .. 0f. *)
Example nativeGenerateIvv_first_salt :
  fst (nativeGenerateIvv initialised) = Normal (Fulfilled key16).
Proof. run. Qed.

Lemma fingerprints_agree_witness :
  let key :=
    base64_encode
      (pbkdf2_hmac_sha256 (utf8_encode (js "correct-horse"))
                          (base64_decode salt16) 100000 32) in
  let fingerprint :=
    base64_encode
      (pbkdf2_hmac_sha256 (utf8_encode key) (base64_decode salt16)
                          100000 32) in
  nativeGenerateHash (js "correct-horse") salt16 initialised =
    (Normal (Fulfilled fingerprint),
     add_events initialised [Call "nativeCrypto.pbkdf2Sync";
                             Call "nativeCrypto.pbkdf2Sync"])
  /\
  browserGenerateHash (js "correct-horse") salt16 initialised =
    (Normal (Fulfilled fingerprint),
     add_events initialised [Call "browserCrypto.subtle.importKey";
                             Call "browserCrypto.subtle.deriveBits";
                             Call "browserCrypto.subtle.importKey";
                             Call "browserCrypto.subtle.deriveBits"]).
Proof.
  exact (fingerprints_agree aes_encrypt_block aes_decrypt_block
           pbkdf2_hmac_sha256 counter_source (js "correct-horse") salt16
           initialised eq_refl eq_refl).
Defined.

Lemma generated_salt_and_key_roundtrip_witness :
  exists ivv key C w1 w2,
    nativeGenerateIvv (snd (nativeInit node new_world))
      = (Normal (Fulfilled ivv), w1) /\
    nativeGenerateKey (js "correct-horse") ivv w1
      = (Normal (Fulfilled key), w2) /\
    sink_output (nativeEncryptText key ivv (js "hello world")) w2 = Some C /\
    sink_output (nativeDecryptText key ivv C) w2 = Some (js "hello world").
Proof.
  apply (generated_salt_and_key_roundtrip aes_encrypt_block aes_decrypt_block
           pbkdf2_hmac_sha256 counter_source aes_encrypt_length
           aes_decrypt_encrypt pbkdf2_hmac_sha256_length
           (js "correct-horse") (js "hello world") new_world).
  - apply is_string_js.
  - vm_compute. reflexivity.
Defined.

Lemma ciphertext_size_witness :
  exists C,
    sink_output (nativeEncryptText key32 salt16 (js "0123456789abcdef"))
                initialised = Some C /\
    List.length (base64_decode C)
    = (16 * (List.length (utf8_encode (js "0123456789abcdef")) / 16 + 1))%nat /\
    List.length C
    = (4 * ((16 * (List.length (utf8_encode (js "0123456789abcdef")) / 16 + 1)
             + 2) / 3))%nat.
Proof.
  apply (ciphertext_size aes_encrypt_block aes_decrypt_block
           pbkdf2_hmac_sha256 counter_source aes_encrypt_length
           key32 salt16 (js "0123456789abcdef") initialised).
  - reflexivity.
  - vm_compute. reflexivity.
  - vm_compute. reflexivity.
Defined.

(** The plaintext of one block has a ciphertext of two, 32 bytes in 44
    characters. *)
Example ciphertext_size_one_block :
  (16 * (List.length (utf8_encode (js "0123456789abcdef")) / 16 + 1))%nat
    = 32%nat /\
  List.length (js "2MlXWOM1PlMPpSvRDnO5hk9rowIiB0xNR3w/KU8SqC8=") = 44%nat.
Proof. split; reflexivity. Qed.

Lemma encryption_replaces_unpaired_surrogates_witness :
  nativeEncryptText key32 salt16 (toWellFormed [0xD800; 0x61]) emit initialised
  = nativeEncryptText key32 salt16 [0xD800; 0x61] emit initialised.
Proof.
  apply (encryption_replaces_unpaired_surrogates aes_encrypt_block
           aes_decrypt_block pbkdf2_hmac_sha256 counter_source key32 salt16
           [0xD800; 0x61] emit initialised).
  reflexivity.
Defined.

Lemma decryption_accepts_valid_padding_witness :
  let C := js "2MlXWOM1PlMPpSvRDnO5hk9rowIiB0xNR3w/KU8SqC8=" in
  sink_output (nativeDecryptText key32 salt16 C) initialised =
    Some (utf8_decode
            (List.concat
               (removelast
                  (cbc_plain_blocks aes_decrypt_block (base64_decode key32)
                                    (base64_decode salt16) (base64_decode C)))
               ++ []))
  /\
  sink_output (browserDecryptText key32 salt16 C) initialised =
    Some (TextDecoder_decode
            (List.concat
               (removelast
                  (cbc_plain_blocks aes_decrypt_block (base64_decode key32)
                                    (base64_decode salt16) (base64_decode C)))
               ++ [])).
Proof.
  cbv zeta.
  apply (decryption_accepts_valid_padding aes_encrypt_block aes_decrypt_block
           pbkdf2_hmac_sha256 counter_source aes_decrypt_length key32 salt16
           (js "2MlXWOM1PlMPpSvRDnO5hk9rowIiB0xNR3w/KU8SqC8=") []
           initialised).
  - reflexivity.
  - reflexivity.
  - vm_compute. reflexivity.
  - vm_compute. reflexivity.
  - vm_compute. discriminate.
  - vm_compute. reflexivity.
  - vm_compute. reflexivity.
Defined.

Lemma truncated_ciphertext_rejected_witness :
  nativeDecryptText key32 salt16 (js "2MlXWOM1PlMPpSvRDnO5hk9rowIi") emit
    initialised =
    (Normal (Rejected (ProviderError "wrong final block length")),
     add_events initialised
       [Call "nativeCrypto.createDecipheriv"; Call "cipher.update";
        Emit (let plain :=
                List.concat
                  (cbc_plain_blocks aes_decrypt_block
                     (base64_decode key32) (base64_decode salt16)
                     (base64_decode (js "2MlXWOM1PlMPpSvRDnO5hk9rowIi"))) in
              utf8_decode
                (firstn (List.length plain - fst (utf8_incomplete plain))
                        plain));
        Call "cipher.final"])
  /\
  browserDecryptText key32 salt16 (js "2MlXWOM1PlMPpSvRDnO5hk9rowIi") emit
    initialised =
    (Normal (Rejected (ProviderError "OperationError")),
     add_events initialised [Call "browserCrypto.subtle.importKey";
                             Call "browserCrypto.subtle.decrypt"]).
Proof.
  apply (truncated_ciphertext_rejected aes_encrypt_block aes_decrypt_block
           pbkdf2_hmac_sha256 counter_source key32 salt16
           (js "2MlXWOM1PlMPpSvRDnO5hk9rowIi") initialised).
  - reflexivity.
  - reflexivity.
  - vm_compute. reflexivity.
  - vm_compute. reflexivity.
  - right. vm_compute. discriminate.
Defined.

(** The first 21 bytes of the two-block ciphertext of "0123456789abcdef":
    the sink receives the text of the one whole block, then the call is
    rejected. For the empty text the sink receives the empty string. *)
Example truncated_ciphertext_emits :
  emitted (events_of (nativeDecryptText key32 salt16
                        (js "2MlXWOM1PlMPpSvRDnO5hk9rowIi") emit) initialised)
    = [js "0123456789abcdef"] /\
  emitted (events_of (nativeDecryptText key32 salt16 [] emit) initialised)
    = [[]] /\
  fst (nativeDecryptText key32 salt16 [] emit initialised)
    = Normal (Rejected (ProviderError "wrong final block length")).
Proof. split; [run|]. split; run. Qed.

Lemma short_plaintext_chunks_witness :
  exists C,
    List.length C = 24%nat /\
    nativeEncryptText key32 salt16 [] emit initialised =
      (Normal (Fulfilled tt),
       add_events initialised
         [Call "nativeCrypto.createCipheriv"; Call "cipher.update";
          Emit []; Call "cipher.final"; Emit C]) /\
    nativeDecryptText key32 salt16 C emit initialised =
      (Normal (Fulfilled tt),
       add_events initialised
         [Call "nativeCrypto.createDecipheriv"; Call "cipher.update";
          Emit []; Call "cipher.final"; Emit (utf8_decode (utf8_encode []))]).
Proof.
  apply (short_plaintext_chunks aes_encrypt_block aes_decrypt_block
           pbkdf2_hmac_sha256 counter_source aes_encrypt_length
           aes_decrypt_encrypt key32 salt16 [] initialised).
  - reflexivity.
  - vm_compute. reflexivity.
  - vm_compute. reflexivity.
  - vm_compute. lia.
Defined.

(** The chunks of the empty plaintext and of "hello world". *)
Example short_plaintext_emits :
  emitted (events_of (nativeEncryptText key32 salt16 [] emit) initialised)
    = [[]; js "nzt1BJJvi9NuMRjpA6TNSg=="] /\
  emitted (events_of (nativeDecryptText key32 salt16
                        (js "nzt1BJJvi9NuMRjpA6TNSg==") emit) initialised)
    = [[]; []] /\
  exists C,
    emitted (events_of (nativeEncryptText key32 salt16 (js "hello world") emit)
                       initialised) = [[]; C] /\
    emitted (events_of (nativeDecryptText key32 salt16 C emit) initialised)
      = [[]; js "hello world"].
Proof.
  split; [run|]. split; [run|].
  eexists. split; [run|]. run.
Qed.

Lemma decryption_with_another_salt_witness :
  exists C,
    sink_output (nativeEncryptText key32 salt16
                   (js "0123456789abcdef and more")) initialised = Some C /\
    sink_output (nativeDecryptText key32 key16 C) initialised =
      Some (utf8_decode
              (xor_block
                 (xor_block
                    (firstn 16 (utf8_encode (js "0123456789abcdef and more")))
                    (base64_decode salt16))
                 (base64_decode key16)
                 ++ skipn 16 (utf8_encode (js "0123456789abcdef and more")))) /\
    sink_output (browserDecryptText key32 key16 C) initialised =
      Some (TextDecoder_decode
              (xor_block
                 (xor_block
                    (firstn 16 (utf8_encode (js "0123456789abcdef and more")))
                    (base64_decode salt16))
                 (base64_decode key16)
                 ++ skipn 16 (utf8_encode (js "0123456789abcdef and more")))).
Proof.
  apply (decryption_with_another_salt aes_encrypt_block aes_decrypt_block
           pbkdf2_hmac_sha256 counter_source aes_encrypt_length
           aes_decrypt_encrypt aes_decrypt_length key32 salt16 key16
           (js "0123456789abcdef and more") initialised).
  - reflexivity.
  - reflexivity.
  - vm_compute. reflexivity.
  - vm_compute. reflexivity.
  - vm_compute. reflexivity.
  - vm_compute. lia.
Defined.

(** Encrypted with the salt of zeros and decrypted with the salt
    00 01 .. 0f, the text comes back with its first 16 characters
    changed and the rest intact. *)
Example another_salt_garbles_first_block :
  exists C,
    sink_output (nativeEncryptText key32 salt16
                   (js "0123456789abcdef and more")) initialised = Some C /\
    sink_output (nativeDecryptText key32 key16 C) initialised
      = Some (js "0000000000kioiki and more") /\
    sink_output (browserDecryptText key32 key16 C) initialised
      = Some (js "0000000000kioiki and more").
Proof. eexists. split; [run|]. split; run. Qed.

Lemma shared_prefix_shows_in_ciphertext_witness :
  exists C1 C2,
    sink_output (nativeEncryptText key32 salt16
                   (js "0123456789abcdefONE")) initialised = Some C1 /\
    sink_output (nativeEncryptText key32 salt16
                   (js "0123456789abcdefTWO!")) initialised = Some C2 /\
    firstn (List.length (utf8_encode (js "0123456789abcdef")))
           (base64_decode C1)
    = firstn (List.length (utf8_encode (js "0123456789abcdef")))
             (base64_decode C2).
Proof.
  apply (shared_prefix_shows_in_ciphertext aes_encrypt_block aes_decrypt_block
           pbkdf2_hmac_sha256 counter_source aes_encrypt_length key32 salt16
           (js "0123456789abcdefONE") (js "0123456789abcdefTWO!")
           (utf8_encode (js "0123456789abcdef")) (utf8_encode (js "ONE"))
           (utf8_encode (js "TWO!")) initialised).
  - reflexivity.
  - vm_compute. reflexivity.
  - vm_compute. reflexivity.
  - vm_compute. reflexivity.
  - vm_compute. reflexivity.
  - vm_compute. reflexivity.
Defined.

Lemma browser_decryption_drops_byte_order_mark_witness :
  exists C,
    sink_output (nativeEncryptText key32 salt16 (0xFEFF :: js "hello world"))
                initialised = Some C /\
    sink_output (nativeDecryptText key32 salt16 C) initialised
      = Some (0xFEFF :: js "hello world") /\
    sink_output (browserDecryptText key32 salt16 C) initialised =
      Some (if starts_with_bom (0xFEFF :: js "hello world")
            then tl (0xFEFF :: js "hello world")
            else 0xFEFF :: js "hello world").
Proof.
  apply (browser_decryption_drops_byte_order_mark aes_encrypt_block
           aes_decrypt_block pbkdf2_hmac_sha256 counter_source
           aes_encrypt_length aes_decrypt_encrypt key32 salt16
           (0xFEFF :: js "hello world") initialised).
  - reflexivity.
  - reflexivity.
  - vm_compute. reflexivity.
  - vm_compute. reflexivity.
  - constructor; [vm_compute; reflexivity|apply is_string_js].
  - vm_compute. reflexivity.
Defined.

Lemma encryption_chunks_witness :
  let P := js "The quick brown fox jumps over the lazy dog, twice over." in
  let ct := cbc_pkcs7_encrypt aes_encrypt_block (base64_decode key32)
                              (base64_decode salt16) (utf8_encode P) in
  let whole := (16 * (List.length (utf8_encode P) / 16))%nat in
  let m := (whole - whole mod 3)%nat in
  nativeEncryptText key32 salt16 P emit initialised =
    (Normal (Fulfilled tt),
     add_events initialised
       [Call "nativeCrypto.createCipheriv"; Call "cipher.update";
        Emit (base64_encode (firstn m ct)); Call "cipher.final";
        Emit (base64_encode (skipn m ct))])
  /\ (List.length (firstn m ct) mod 3 = 0)%nat
  /\ base64_encode (firstn m ct) ++ base64_encode (skipn m ct)
     = base64_encode ct.
Proof.
  cbv zeta.
  apply (encryption_chunks aes_encrypt_block aes_decrypt_block
           pbkdf2_hmac_sha256 counter_source aes_encrypt_length key32 salt16
           (js "The quick brown fox jumps over the lazy dog, twice over.")
           initialised).
  - reflexivity.
  - vm_compute. reflexivity.
  - vm_compute. reflexivity.
Defined.
